(** * hydra-cached: the cached instantiation engine

    A shallow embedding of [hydra_cached/execution/hydra.py],
    [hydra_cached/execution/hydra_utils.py] and
    [hydra_cached/execution/caching/{memory,dumpable}.py], followed by the
    properties of the engine: cache hits, deterministic substitutes,
    cache-write policy, error propagation and cache persistence. *)

From Stdlib Require Import List String Ascii ZArith Bool Lia Permutation.
Import ListNotations.
Local Open Scope string_scope.
Local Open Scope list_scope.

Set Implicit Arguments.
Set Warnings "-register-all".


(* ================================================================= *)
(** ** Python objects handled by the engine *)

(** The objects that flow through [instantiate_node]: primitives, plain
    containers ([list], [dict]) and OmegaConf containers ([ListConfig],
    [DictConfig]).  A dictionary keeps its insertion order, which is the
    order in which [node.items()] yields the entries.  The containers
    are those that are made from lists and dicts: a structured config
    (made from a dataclass) and the metadata of a node are not part of
    a [Value]; interpolations are resolved. *)
Inductive Value : Type :=
| VNone
| VBool (b : bool)
| VInt (z : Z)
| VStr (s : string)
| VList (items : list Value)
| VDict (entries : list (string * Value))
| VListConfig (items : list Value)
| VDictConfig (entries : list (string * Value)).

Section ValueInduction.
Variable P : Value -> Prop.
Hypothesis HNone : P VNone.
Hypothesis HBool : forall b, P (VBool b).
Hypothesis HInt : forall z, P (VInt z).
Hypothesis HStr : forall s, P (VStr s).
Hypothesis HList : forall items, Forall P items -> P (VList items).
Hypothesis HDict :
  forall entries, Forall (fun kv => P (snd kv)) entries -> P (VDict entries).
Hypothesis HListConfig : forall items, Forall P items -> P (VListConfig items).
Hypothesis HDictConfig :
  forall entries, Forall (fun kv => P (snd kv)) entries -> P (VDictConfig entries).

Fixpoint Value_nested_ind (v : Value) : P v :=
  match v with
  | VNone => HNone
  | VBool b => HBool b
  | VInt z => HInt z
  | VStr s => HStr s
  | VList items =>
      HList ((fix go (l : list Value) : Forall P l :=
                match l with
                | [] => Forall_nil P
                | x :: l' => Forall_cons x (Value_nested_ind x) (go l')
                end) items)
  | VDict entries =>
      HDict ((fix go (l : list (string * Value))
                : Forall (fun kv => P (snd kv)) l :=
                match l with
                | [] => Forall_nil _
                | (k, x) :: l' =>
                    Forall_cons (A:=string * Value) (P:=fun kv => P (snd kv))
                      (k, x) (Value_nested_ind x) (go l')
                end) entries)
  | VListConfig items =>
      HListConfig ((fix go (l : list Value) : Forall P l :=
                      match l with
                      | [] => Forall_nil P
                      | x :: l' => Forall_cons x (Value_nested_ind x) (go l')
                      end) items)
  | VDictConfig entries =>
      HDictConfig ((fix go (l : list (string * Value))
                      : Forall (fun kv => P (snd kv)) l :=
                      match l with
                      | [] => Forall_nil _
                      | (k, x) :: l' =>
                          Forall_cons (A:=string * Value)
                            (P:=fun kv => P (snd kv))
                            (k, x) (Value_nested_ind x) (go l')
                      end) entries)
  end.
End ValueInduction.

(** Syntactic equality of two objects, as a boolean. *)
Fixpoint Value_eqb (a b : Value) {struct a} : bool :=
  let list_eqb :=
    fix go (l1 l2 : list Value) {struct l1} : bool :=
      match l1, l2 with
      | [], [] => true
      | x :: l1', y :: l2' => Value_eqb x y && go l1' l2'
      | _, _ => false
      end in
  let entries_eqb :=
    fix go (l1 l2 : list (string * Value)) {struct l1} : bool :=
      match l1, l2 with
      | [], [] => true
      | (k1, x) :: l1', (k2, y) :: l2' =>
          String.eqb k1 k2 && Value_eqb x y && go l1' l2'
      | _, _ => false
      end in
  match a, b with
  | VNone, VNone => true
  | VBool x, VBool y => Bool.eqb x y
  | VInt x, VInt y => Z.eqb x y
  | VStr x, VStr y => String.eqb x y
  | VList x, VList y => list_eqb x y
  | VDict x, VDict y => entries_eqb x y
  | VListConfig x, VListConfig y => list_eqb x y
  | VDictConfig x, VDictConfig y => entries_eqb x y
  | _, _ => false
  end.

(** *** Dictionary operations (insertion ordered, first match wins) *)

Section Dict.
Variables K V : Type.
Variable eqb : K -> K -> bool.

(** [key in d] *)
Fixpoint dict_contains (k : K) (d : list (K * V)) : bool :=
  match d with
  | [] => false
  | (k', _) :: d' => if eqb k' k then true else dict_contains k d'
  end.

(** [d.get(key)] *)
Fixpoint dict_get (k : K) (d : list (K * V)) : option V :=
  match d with
  | [] => None
  | (k', v) :: d' => if eqb k' k then Some v else dict_get k d'
  end.

(** [d[key] = v]: an existing key keeps its position, a new key is
    appended. *)
Fixpoint dict_set (k : K) (v : V) (d : list (K * V)) : list (K * V) :=
  match d with
  | [] => [(k, v)]
  | (k', v') :: d' =>
      if eqb k' k then (k', v) :: d' else (k', v') :: dict_set k v d'
  end.

(** [del d[key]] *)
Fixpoint dict_remove (k : K) (d : list (K * V)) : list (K * V) :=
  match d with
  | [] => []
  | (k', v') :: d' =>
      if eqb k' k then d' else (k', v') :: dict_remove k d'
  end.
End Dict.

(** Dictionaries with string keys. *)
Definition str_contains (V : Type) := dict_contains (V:=V) String.eqb.
Definition str_get (V : Type) := dict_get (V:=V) String.eqb.
Definition str_set (V : Type) := dict_set (V:=V) String.eqb.
Definition str_remove (V : Type) := dict_remove (V:=V) String.eqb.

(** [l[i] = v] on a list; [None] stands for Python's [IndexError]. *)
Fixpoint list_set (V : Type) (i : nat) (v : V) (l : list V) : option (list V) :=
  match l, i with
  | [], _ => None
  | _ :: l', O => Some (v :: l')
  | x :: l', S i' =>
      match list_set i' v l' with
      | Some r => Some (x :: r)
      | None => None
      end
  end.

(** Python truthiness, as used by [all([...])]. *)
Definition truthy (v : Value) : bool :=
  match v with
  | VNone => false
  | VBool b => b
  | VInt z => negb (Z.eqb z 0)
  | VStr s => negb (String.eqb s EmptyString)
  | VList l | VListConfig l => match l with [] => false | _ => true end
  | VDict d | VDictConfig d => match d with [] => false | _ => true end
  end.

(** [OmegaConf.is_config(node)] *)
Definition is_config (v : Value) : bool :=
  match v with
  | VListConfig _ | VDictConfig _ => true
  | _ => false
  end.

(** [OmegaConf.to_container(node, resolve=True)]: OmegaConf containers
    become plain ones, at every depth. *)
Fixpoint to_container (v : Value) : Value :=
  match v with
  | VListConfig l | VList l => VList (map to_container l)
  | VDictConfig d | VDict d =>
      VDict (map (fun kv => let '(k, x) := kv in (k, to_container x)) d)
  | _ => v
  end.

(** [OmegaConf.create(obj, flags={"allow_objects": True})]: plain
    containers become OmegaConf containers, at every depth. *)
Fixpoint OmegaConf_create (v : Value) : Value :=
  match v with
  | VListConfig l | VList l => VListConfig (map OmegaConf_create l)
  | VDictConfig d | VDict d =>
      VDictConfig (map (fun kv => let '(k, x) := kv in (k, OmegaConf_create x)) d)
  | _ => v
  end.

(* ================================================================= *)
(** ** Equality and hash of configuration nodes *)

(** Stable insertion sort of the entries of a mapping by key. *)
Fixpoint insert_entry (kv : string * Value) (l : list (string * Value))
  : list (string * Value) :=
  match l with
  | [] => [kv]
  | h :: t =>
      if String.leb (fst kv) (fst h) then kv :: l else h :: insert_entry kv t
  end.

Definition sort_entries (l : list (string * Value)) : list (string * Value) :=
  fold_right insert_entry [] l.

(** The form on which OmegaConf compares two containers
    ([DictConfig.__eq__] goes through the sorted keys of both mappings,
    [ListConfig.__eq__] through the positions; OmegaConf is a library,
    not part of this repository): the entries of every mapping are put
    in key order, sequences keep their order. *)
Fixpoint canon (v : Value) : Value :=
  match v with
  | VList l => VList (map canon l)
  | VListConfig l => VListConfig (map canon l)
  | VDict d =>
      VDict (sort_entries (map (fun kv => let '(k, x) := kv in (k, canon x)) d))
  | VDictConfig d =>
      VDictConfig
        (sort_entries (map (fun kv => let '(k, x) := kv in (k, canon x)) d))
  | _ => v
  end.

(** [a == b] on configuration nodes (OmegaConf's [__eq__]): the same
    kind of object, the same scalar, the same entries whatever the
    insertion order of the keys of a mapping, the same elements of a
    sequence in the same order.  It is used on the keys of the cache,
    which are OmegaConf containers throughout.  Python's [True == 1]
    and [False == 0] are left out: the hash of the text tells such
    keys apart. *)
Definition config_eqb (a b : Value) : bool := Value_eqb (canon a) (canon b).

(** [hash(s)] of a string: a stand-in for Python's hash of a text. *)
Definition str_hash (s : string) : Z :=
  fold_left
    (fun h c => ((h * 31 + Z.of_nat (nat_of_ascii c)) mod 2305843009213693951)%Z)
    (list_ascii_of_string s) 7%Z.

(** A stand-in for the hash of the text [str(node)]: the tree is
    read as it is written, the entries of a mapping in insertion
    order. *)
Fixpoint raw_hash (v : Value) : Z :=
  let mix := fun h x => ((h * 1000003 + x) mod 2305843009213693951)%Z in
  match v with
  | VNone => 0%Z
  | VBool b => if b then 1%Z else 2%Z
  | VInt z => (z mod 2305843009213693951)%Z
  | VStr s => str_hash s
  | VList l => fold_left (fun h x => mix h (raw_hash x)) l 3%Z
  | VListConfig l => fold_left (fun h x => mix h (raw_hash x)) l 4%Z
  | VDict d =>
      fold_left
        (fun h kv => let '(k, x) := kv in mix (mix h (str_hash k)) (raw_hash x))
        d 5%Z
  | VDictConfig d =>
      fold_left
        (fun h kv => let '(k, x) := kv in mix (mix h (str_hash k)) (raw_hash x))
        d 6%Z
  end.

(** [hash(node)]: OmegaConf's [__hash__] of a container is
    [hash(str(self))], the hash of the text of its content, so that it
    depends on the order in which the keys of a mapping were
    inserted. *)
Definition config_hash (v : Value) : Z := raw_hash v.

(* ================================================================= *)
(** ** hydra_utils.py *)

(** An exception that a target raises, as [_call_target] sees it: its
    class [type(e)] and its text [str(e)]. *)
Record ExcInfo : Type := mkExc {
  exc_class : string;
  exc_msg : string
}.

(** The exceptions of the engine.  [TargetRaised e] is the exception
    that leaves [_call_target]: an object of the class [exc_class e]
    with the text [exc_msg e]. *)
Inductive Exception : Type :=
| TypeError (msg : string)
| InstantiationException (msg : string)
| ImportError (msg : string)
| AssertionError (msg : string)
| KeyError
| IndexError
| ValueError (msg : string)
| TargetRaised (e : ExcInfo).

Inductive Result (A : Type) : Type :=
| Ok (a : A)
| Err (e : Exception).
Arguments Ok {A} a.
Arguments Err {A} e.

(** [FuncInfo]: the object attached to a function by the decorator. *)
Record FuncInfo : Type := mkFuncInfo { fi_not_deterministic : bool }.

(** [InstantiatedNodeInfo]; [time_target] is a duration in microseconds. *)
Record InstantiatedNodeInfo : Type := mkInfo {
  not_deterministic : bool;
  cache_result : bool;
  deterministic_config : option Value;
  time_target : option Z
}.

(** [InstantiatedNodeInfo()] *)
Definition default_info : InstantiatedNodeInfo :=
  {| not_deterministic := false; cache_result := true;
     deterministic_config := None; time_target := None |}.

(** [InstantiatedNode] *)
Record InstantiatedNode : Type := mkNode {
  instance : Value;
  info : InstantiatedNodeInfo
}.

(** The keys of the [infos] dictionary: positions for a sequence, names
    for a mapping. *)
Inductive Key : Type :=
| KIdx (i : nat)
| KStr (s : string).

Definition Key_eqb (a b : Key) : bool :=
  match a, b with
  | KIdx i, KIdx j => Nat.eqb i j
  | KStr s, KStr t => String.eqb s t
  | _, _ => false
  end.

(** [config[k] = v] on a (copied) container. *)
Definition config_setitem (c : Value) (k : Key) (v : Value) : Result Value :=
  match c, k with
  | VDictConfig d, KStr s => Ok (VDictConfig (str_set s v d))
  | VDict d, KStr s => Ok (VDict (str_set s v d))
  | VListConfig l, KIdx i =>
      match list_set i v l with
      | Some l' => Ok (VListConfig l')
      | None => Err IndexError
      end
  | VList l, KIdx i =>
      match list_set i v l with
      | Some l' => Ok (VList l')
      | None => Err IndexError
      end
  | _, _ => Err (TypeError "item assignment")
  end.

(** The loop of [combine] that builds the deterministic substitute:
    [det_config] is the variable [deterministic_config], copied from
    [parent_config] at the first child that carries a substitute. *)
Fixpoint combine_substitute (parent_config : Value)
    (infos : list (Key * InstantiatedNodeInfo))
    (det_config : option Value) : Result (option Value) :=
  match infos with
  | [] => Ok det_config
  | (k, i) :: infos' =>
      match deterministic_config i with
      | Some child =>
          let target :=
            match det_config with
            | None => parent_config      (* copy.copy(parent_config) *)
            | Some d => d
            end in
          match config_setitem target k child with
          | Ok d' => combine_substitute parent_config infos' (Some d')
          | Err e => Err e
          end
      | None => combine_substitute parent_config infos' det_config
      end
  end.

(** [InstantiatedNodeInfo.combine(infos, parent_config, target_info,
    deterministic_config)] *)
Definition combine (infos : list (Key * InstantiatedNodeInfo))
    (parent_config : option Value) (target_info : option InstantiatedNodeInfo)
    (det_config : option Value) : Result InstantiatedNodeInfo :=
  let substitute :=
    match det_config with
    | Some d => Ok (Some d)
    | None =>
        match parent_config with
        | None => Err (AssertionError "parent_config is required")
        | Some p => combine_substitute p infos None
        end
    end in
  match substitute with
  | Err e => Err e
  | Ok det_config' =>
      let infos_list :=
        map snd infos ++
        match target_info with Some t => [t] | None => [] end in
      let _not_deterministic :=
        match target_info with
        | Some t => not_deterministic t
        | None => false
        end in
      let _cache_result := forallb cache_result infos_list in
      Ok {| not_deterministic := _not_deterministic;
            cache_result := _cache_result;
            deterministic_config := det_config';
            time_target := None |}
  end.

(** [FuncInfo.from_func(func)], on the attribute [__info] of the
    function, and [InstantiatedNodeInfo.from_func(func, cache_result=c)]. *)
Definition FuncInfo_from_func (attr : option FuncInfo) : FuncInfo :=
  match attr with
  | Some i => i
  | None => mkFuncInfo false
  end.

Definition from_func_info (func_info : FuncInfo) (c : bool)
  : InstantiatedNodeInfo :=
  {| not_deterministic := fi_not_deterministic func_info;
     cache_result := c;
     deterministic_config := None;
     time_target := None |}.

Definition from_func (attr : option FuncInfo) (c : bool) : InstantiatedNodeInfo :=
  from_func_info (FuncInfo_from_func attr) c.

(* ================================================================= *)
(** ** caching/memory.py *)

Module InMemoryCache.
(** A Python [dict] finds a key through its hash, then through [==]. *)
Definition key_matches (stored probe : Value) : bool :=
  Z.eqb (config_hash stored) (config_hash probe) && config_eqb stored probe.

Section Store.
Variable TV : Type.

(** [self.store] *)
Definition store : Type := list (Value * TV).

Definition empty : store := [].

(** [__contains__] *)
Definition contains (c : store) (key : Value) : bool :=
  dict_contains key_matches key c.

(** [__getitem__]; [None] stands for [KeyError]. *)
Definition getitem (c : store) (key : Value) : option TV :=
  dict_get key_matches key c.

(** [__setitem__] *)
Definition setitem (c : store) (key : Value) (value : TV) : store :=
  dict_set key_matches key value c.
End Store.
End InMemoryCache.

(* ================================================================= *)
(** ** hydra.py: the instantiation engine *)

(** A call of a target returns a value (after some time) or raises. *)
Inductive CallOutcome : Type :=
| Returned (v : Value) (elapsed : Z)
| Raised (e : ExcInfo).

(** What the engine does to its surroundings, in program order: the
    target of a node is called, through [_call_target] with the
    arguments of line 222 (the event keeps what the target returned or
    raised), an entry is put into the cache. *)
Inductive Event : Type :=
| ECall (node : Value) (args : list Value) (kwargs : list (string * Value))
        (outcome : CallOutcome)
| EStore (key : Value) (value : InstantiatedNode).

Definition exclude_keys : list string :=
  ["_target_"; "_convert_"; "_recursive_"; "_cache_result_"; "_result_hash_"].

Definition excluded (key : string) : bool :=
  existsb (String.eqb key) exclude_keys.

(** [s.upper()] on the letters of ASCII. *)
Definition ascii_upper (c : ascii) : ascii :=
  let n := nat_of_ascii c in
  if Nat.leb 97 n && Nat.leb n 122 then ascii_of_nat (n - 32) else c.

Fixpoint upper (s : string) : string :=
  match s with
  | EmptyString => EmptyString
  | String c s' => String (ascii_upper c) (upper s')
  end.

(** [convert == ConvertMode.ALL] and [convert == ConvertMode.PARTIAL]:
    a string equals a mode when it is the name of the mode, whatever
    the case of its letters ([ConvertMode.__eq__] of hydra). *)
Definition is_ALL (convert : Value) : bool :=
  match convert with VStr s => String.eqb (upper s) "ALL" | _ => false end.

Definition is_PARTIAL (convert : Value) : bool :=
  match convert with
  | VStr s => String.eqb (upper s) "PARTIAL"
  | _ => false
  end.

(** [_convert_node(node, convert)].  In the mode [partial]
    [to_container] keeps structured configs (a [DictConfig] made from a
    dataclass) as they are; a [Value] holds none, so that on the
    containers of the model the two modes convert alike. *)
Definition _convert_node (node convert : Value) : Value :=
  if is_config node then
    if is_ALL convert then to_container node
    else if is_PARTIAL convert then to_container node
    else node
  else node.

(** [_is_target(node)] on the entries of a [DictConfig] *)
Definition _is_target (entries : list (string * Value)) : bool :=
  str_contains "_target_" entries.

(** The substitute of a node whose own target is not deterministic:
    [OmegaConf.structured(obj={"_result_hash_": h})]. *)
Definition result_hash_config (h : string) : Value :=
  VDictConfig [("_result_hash_", VStr h)].

Definition set_time_target (i : InstantiatedNodeInfo) (t : Z)
  : InstantiatedNodeInfo :=
  {| not_deterministic := not_deterministic i;
     cache_result := cache_result i;
     deterministic_config := deterministic_config i;
     time_target := Some t |}.

Definition set_not_deterministic (i : InstantiatedNodeInfo) (b : bool)
  : InstantiatedNodeInfo :=
  {| not_deterministic := b;
     cache_result := cache_result i;
     deterministic_config := deterministic_config i;
     time_target := time_target i |}.

(** [node[_Keys.CONVERT] if _Keys.CONVERT in node else convert], the same
    for [_recursive_], and [node.get("_cache_result_", True)]. *)
Definition effective_convert (entries : list (string * Value))
    (convert : Value) : Value :=
  match str_get "_convert_" entries with
  | Some c => c
  | None => convert
  end.

Definition effective_recursive (entries : list (string * Value))
    (recursive : Value) : Value :=
  match str_get "_recursive_" entries with
  | Some r => r
  | None => recursive
  end.

Definition own_cache_result (entries : list (string * Value)) : bool :=
  match str_get "_cache_result_" entries with
  | Some c => truthy c
  | None => true
  end.

Section Engine.
(** The state outside the engine that a target can read and change. *)
Variable World : Type.

(** A resolved target: its name as [_convert_target_to_string] prints
    it (module and qualified name), its [__info] attribute and what
    calling it with positional and keyword arguments does. *)
Record Target : Type := mkTarget {
  target_name : string;
  target_attr : option FuncInfo;
  target_call :
    list Value -> list (string * Value) -> World -> CallOutcome * World
}.

(** The decorator [not_deterministic]: it sets the attribute and returns
    the function itself. *)
Definition not_deterministic_decorator (func : Target) : Target :=
  {| target_name := target_name func;
     target_attr := Some (mkFuncInfo true);
     target_call := target_call func |}.

(** The callable that a value of [_target_] stands for: what [_locate]
    imports for a dotted path, the object itself for a type or a
    callable; [None] when the import fails or the object is no
    callable. *)
Variable resolve : Value -> option Target.

(** [joblib.hash]: the content hash of an object. *)
Variable joblib_hash : Value -> string.

Record State : Type := mkState {
  st_store : InMemoryCache.store InstantiatedNode;
  st_world : World;
  st_log : list Event
}.

(** Computations of the engine: they change the state and return a
    result or raise; the state reached when an exception is raised is
    kept. *)
Definition M (A : Type) : Type := State -> Result A * State.

Definition ret (A : Type) (a : A) : M A := fun s => (Ok a, s).

Definition raise (A : Type) (e : Exception) : M A := fun s => (Err e, s).

Definition bind (A B : Type) (c : M A) (f : A -> M B) : M B :=
  fun s =>
    match c s with
    | (Ok a, s') => f a s'
    | (Err e, s') => (Err e, s')
    end.

Definition lift (A : Type) (r : Result A) : M A := fun s => (r, s).

Arguments ret {A} a.
Arguments raise {A} e.

Notation "x <- c ;; k" := (bind c (fun x => k))
  (at level 61, c at next level, right associativity).
Notation "c ;;; k" := (bind c (fun _ => k))
  (at level 61, right associativity).

Definition cache_contains (key : Value) : M bool :=
  fun s => (Ok (InMemoryCache.contains (st_store s) key), s).

Definition cache_getitem (key : Value) : M InstantiatedNode :=
  fun s =>
    match InMemoryCache.getitem (st_store s) key with
    | Some n => (Ok n, s)
    | None => (Err KeyError, s)
    end.

(** The state once an entry was put into the cache. *)
Definition after_store (s : State) (key : Value) (value : InstantiatedNode)
  : State :=
  {| st_store := InMemoryCache.setitem (st_store s) key value;
     st_world := st_world s;
     st_log := st_log s ++ [EStore key value] |}.

(** The state once the target of [node] was called and left the world
    [w]. *)
Definition after_call (s : State) (node : Value) (args : list Value)
    (kwargs : list (string * Value)) (outcome : CallOutcome) (w : World)
  : State :=
  {| st_store := st_store s;
     st_world := w;
     st_log := st_log s ++ [ECall node args kwargs outcome] |}.

Definition cache_setitem (key : Value) (value : InstantiatedNode) : M unit :=
  fun s => (Ok tt, after_store s key value).

(** [_resolve_target(target)] of hydra: a string is located, and
    [_locate] raises [ImportError] for a path that cannot be imported;
    a type or a callable is returned as it is; anything else is an
    unsupported target. *)
Definition _resolve_target (target : option Value) : M Target :=
  match target with
  | Some t =>
      match resolve t with
      | Some f => ret f
      | None =>
          match t with
          | VStr _ => raise (ImportError "Error loading module")
          | _ => raise (InstantiationException "Unsupported target type")
          end
      end
  | None => raise (InstantiationException "Unsupported target type")
  end.

(** The elements of a [Sequence]: a list, a [ListConfig], or the
    characters of a string. *)
Definition sequence_items (v : Value) : option (list Value) :=
  match v with
  | VList l | VListConfig l => Some l
  | VStr s =>
      Some (map (fun c => VStr (String c EmptyString)) (list_ascii_of_string s))
  | _ => None
  end.

(** [_extract_pos_args] of hydra, on the positional and the keyword
    arguments that [_call_target] was given: the keyword
    [_args_] is taken out of the keyword arguments; it must be a
    sequence, and its elements are the positional arguments unless
    positional arguments were passed in. *)
Definition _extract_pos_args (input_args : list Value)
    (kwargs : list (string * Value))
  : ExcInfo + (list Value * list (string * Value)) :=
  match str_get "_args_" kwargs with
  | None => inr (input_args, kwargs)
  | Some config_args =>
      match sequence_items config_args with
      | Some items =>
          inr (match input_args with [] => items | _ => input_args end,
               str_remove "_args_" kwargs)
      | None => inl (mkExc "InstantiationException" "Unsupported _args_ type")
      end
  end.

(** The body of the [try] of [_call_target]: the positional arguments
    are extracted, then the target is called. *)
Definition call_body (target : Target) (args : list Value)
    (kwargs : list (string * Value)) (w : World) : CallOutcome * World :=
  match _extract_pos_args args kwargs with
  | inr (pos, kw) => target_call target pos kw w
  | inl e => (Raised e, w)
  end.

(** [type(e)(f"Error instantiating '{name}' : {e}")]: the exception
    that [_call_target] raises in the place of [e]. *)
Definition error_instantiating (name : string) (e : ExcInfo) : ExcInfo :=
  {| exc_class := exc_class e;
     exc_msg := "Error instantiating '" ++ name ++ "' : " ++ exc_msg e |}.

(** [_call_target(target, *args, **kwargs)], timed by the caller; [node]
    is the node whose target is called.  The log keeps the arguments as
    line 222 passes them and what the body did; an exception of the body
    is replaced by a new one of the same class. *)
Definition _call_target (node : Value) (target : Target)
    (args : list Value) (kwargs : list (string * Value)) : M (Value * Z) :=
  fun s =>
    let '(outcome, w) := call_body target args kwargs (st_world s) in
    let s' := after_call s node args kwargs outcome w in
    match outcome with
    | Returned v elapsed => (Ok (v, elapsed), s')
    | Raised e =>
        (Err (TargetRaised (error_instantiating (target_name target) e)), s')
    end.

(** The items of a [ListConfig], instantiated from left to right. *)
Definition instantiate_items (rec : Value -> M InstantiatedNode)
  : list Value -> M (list InstantiatedNode) :=
  fix go (items : list Value) : M (list InstantiatedNode) :=
    match items with
    | [] => ret []
    | item :: items' =>
        n <- rec item ;;
        ns <- go items' ;;
        ret (n :: ns)
    end.

(** The entries of a [DictConfig] without target, in order:
    [dict_items[key] = instantiated_node.instance] and
    [infos[key] = instantiated_node.info]. *)
Definition instantiate_entries (rec : Value -> M InstantiatedNode)
  : list (string * Value) ->
    list (string * Value) * list (Key * InstantiatedNodeInfo) ->
    M (list (string * Value) * list (Key * InstantiatedNodeInfo)) :=
  fix go (entries : list (string * Value))
         (acc : list (string * Value) * list (Key * InstantiatedNodeInfo)) :=
    match entries with
    | [] => ret acc
    | (key, value) :: entries' =>
        n <- rec value ;;
        go entries'
           (str_set key (instance n) (fst acc),
            dict_set Key_eqb (KStr key) (info n) (snd acc))
    end.

(** The loop over the entries of a node with target that builds
    [kwargs] and [infos]. *)
Definition instantiate_kwargs (rec : Value -> M InstantiatedNode)
    (recursive : bool) (convert : Value)
  : list (string * Value) ->
    list (string * Value) * list (Key * InstantiatedNodeInfo) ->
    M (list (string * Value) * list (Key * InstantiatedNodeInfo)) :=
  fix go (entries : list (string * Value))
         (acc : list (string * Value) * list (Key * InstantiatedNodeInfo)) :=
    match entries with
    | [] => ret acc
    | (key, value) :: entries' =>
        if excluded key then go entries' acc
        else if recursive then
          n <- rec value ;;
          go entries'
             (str_set key (_convert_node (instance n) convert) (fst acc),
              dict_set Key_eqb (KStr key) (info n) (snd acc))
        else
          go entries' (str_set key (_convert_node value convert) (fst acc),
                       snd acc)
    end.

(** [if node in cache: return cache[node]] *)
Definition cache_lookup (cache : bool) (key : Value)
  : M (option InstantiatedNode) :=
  if cache then
    hit <- cache_contains key ;;
    if hit then (n <- cache_getitem key ;; ret (Some n)) else ret None
  else ret None.

(** What the engine knows once the arguments of a deterministic or
    non-deterministic target are built: a cached result found under the
    deterministic substitute, or the key under which the result will be
    stored and the info computed so far. *)
Inductive Lookup : Type :=
| Found (n : InstantiatedNode)
| NotFound (cache_key : Value) (result_info : option InstantiatedNodeInfo).

(** Lines 203-219 of hydra.py. *)
Definition substitute_lookup (node : Value)
    (target_info : InstantiatedNodeInfo)
    (infos : list (Key * InstantiatedNodeInfo)) (cache : bool) : M Lookup :=
  if negb (not_deterministic target_info) then
    result_info <- lift (combine infos (Some node) (Some target_info) None) ;;
    match deterministic_config result_info with
    | Some d =>
        hit <- cache_lookup cache d ;;
        match hit with
        | Some n => ret (Found n)
        | None => ret (NotFound d (Some result_info))
        end
    | None => ret (NotFound node (Some result_info))
    end
  else ret (NotFound node None).

(** Lines 226-234 of hydra.py: the info of the result, once the target
    has returned. *)
Definition complete_info (target_info : InstantiatedNodeInfo)
    (infos : list (Key * InstantiatedNodeInfo))
    (result_info : option InstantiatedNodeInfo)
    (result_instance : Value) (t_delta : Z) : Result InstantiatedNodeInfo :=
  match
    match result_info with
    | Some i => Ok i
    | None =>
        let h := joblib_hash result_instance in
        combine infos None (Some target_info) (Some (result_hash_config h))
    end
  with
  | Ok i => Ok (set_time_target i t_delta)
  | Err e => Err e
  end.

(** Lines 236-246 of hydra.py: the result goes into the cache. *)
Definition store_result (cache : bool) (node cache_key : Value)
    (result : InstantiatedNode) : M unit :=
  if cache && cache_result (info result) then
    cache_setitem cache_key result ;;;
    if negb (config_eqb cache_key node) then
      cache_setitem node
        (mkNode (instance result)
                (set_not_deterministic (info result) true))
    else ret tt
  else ret tt.

(** Lines 221-247 of hydra.py: call the target, complete the info,
    store the result. *)
Definition call_and_store (node : Value) (target : Target)
    (target_info : InstantiatedNodeInfo)
    (args : list Value) (kwargs : list (string * Value))
    (infos : list (Key * InstantiatedNodeInfo)) (cache : bool)
    (cache_key : Value) (result_info : option InstantiatedNodeInfo)
  : M InstantiatedNode :=
  called <- _call_target node target args kwargs ;;
  let '(result_instance, t_delta) := called in
  result_info <-
    lift (complete_info target_info infos result_info result_instance
                        t_delta) ;;
  let result := mkNode result_instance result_info in
  store_result cache node cache_key result ;;;
  ret result.

(** The branch of [instantiate_node] for a [ListConfig]; [rec_call] is
    [instantiate_node] with the modes of this node. *)
Definition instantiate_list (rec_call : Value -> M InstantiatedNode)
    (node : Value) (items : list Value) (convert : Value)
  : M InstantiatedNode :=
  instantiated_nodes <- instantiate_items rec_call items ;;
  let items' := map instance instantiated_nodes in
  let infos :=
    List.combine (map KIdx (seq 0 (List.length instantiated_nodes)))
                 (map info instantiated_nodes) in
  i <- lift (combine infos (Some node) None None) ;;
  if is_ALL convert || is_PARTIAL convert
  then ret (mkNode (VList items') i)
  else ret (mkNode (OmegaConf_create (VList items')) i).

(** The branch for a [DictConfig] with a target. *)
Definition instantiate_target (rec_call : Value -> M InstantiatedNode)
    (node : Value) (entries : list (string * Value)) (args : list Value)
    (convert : Value) (recursive cache : bool) : M InstantiatedNode :=
  hit <- cache_lookup cache node ;;
  match hit with
  | Some n => ret n
  | None =>
      target <- _resolve_target (str_get "_target_" entries) ;;
      let target_info :=
        from_func (target_attr target) (own_cache_result entries) in
      built <- instantiate_kwargs rec_call recursive convert entries ([], []) ;;
      let '(kwargs, infos) := built in
      found <- substitute_lookup node target_info infos cache ;;
      match found with
      | Found n => ret n
      | NotFound cache_key result_info =>
          call_and_store node target target_info args kwargs infos cache
            cache_key result_info
      end
  end.

(** The branch for a [DictConfig] without target.  In the mode
    [partial] the source builds a plain dict only for a node whose
    [_metadata.object_type] is [None]; the metadata of a node is not
    part of a [Value], and the nodes of the model are read as nodes
    without object type. *)
Definition instantiate_dict (rec_call : Value -> M InstantiatedNode)
    (node : Value) (entries : list (string * Value)) (convert : Value)
  : M InstantiatedNode :=
  built <- instantiate_entries rec_call entries ([], []) ;;
  let '(dict_items, infos) := built in
  i <- lift (combine infos (Some node) None None) ;;
  if is_ALL convert || is_PARTIAL convert
  then ret (mkNode (VDict dict_items) i)
  else ret (mkNode (OmegaConf_create (VDict dict_items)) i).

(** [instantiate_node(node, *args, convert, recursive, cache)]; [cache]
    tells whether a cache object was passed. *)
Fixpoint instantiate_node (node : Value) (args : list Value)
    (convert recursive : Value) (cache : bool) {struct node}
  : M InstantiatedNode :=
  match node with
  | VNone => ret (mkNode VNone default_info)
  | VBool _ | VInt _ | VStr _ | VList _ | VDict _ =>
      ret (mkNode node default_info)
  | VListConfig items =>
      match recursive with
      | VBool _ =>
          instantiate_list
            (fun item => instantiate_node item [] convert recursive cache)
            node items convert
      | _ => raise (TypeError "_recursive_ flag must be a bool")
      end
  | VDictConfig entries =>
      let convert := effective_convert entries convert in
      let recursive := effective_recursive entries recursive in
      match recursive with
      | VBool rec =>
          if _is_target entries then
            instantiate_target
              (fun value => instantiate_node value [] convert recursive cache)
              node entries args convert rec cache
          else
            instantiate_dict
              (fun value => instantiate_node value [] convert recursive cache)
              node entries convert
      | _ => raise (TypeError "_recursive_ flag must be a bool")
      end
  end.

(** The [cache] argument of [instantiate]: [None], the string
    ["DISABLED"], a [Cache] object, or anything else. *)
Inductive CacheArgument : Type :=
| CacheNone
| CacheDisabled
| CacheObject
| CacheOther.

(** [instantiate(config, *args, cache=cache)] without keyword
    overrides.  With [cache=None] the engine works on a fresh
    [InMemoryCache] that the caller never sees; a [Cache] object is the
    store of the state. *)
Definition instantiate (config : Value) (args : list Value)
    (cache : CacheArgument) : M Value :=
  match config with
  | VNone => ret VNone
  | VDict entries | VDictConfig entries =>
      let entries :=
        map (fun kv => let '(k, x) := kv in (k, OmegaConf_create x)) entries in
      let _recursive_ :=
        match str_get "_recursive_" entries with
        | Some r => r
        | None => VBool true
        end in
      let entries := str_remove "_recursive_" entries in
      let _convert_ :=
        match str_get "_convert_" entries with
        | Some c => c
        | None => VStr "none"
        end in
      let entries := str_remove "_convert_" entries in
      let config := VDictConfig entries in
      match cache with
      | CacheNone =>
          fun s =>
            let '(r, s') :=
              instantiate_node config args _convert_ _recursive_ true
                {| st_store := InMemoryCache.empty InstantiatedNode;
                   st_world := st_world s;
                   st_log := st_log s |} in
            (match r with Ok n => Ok (instance n) | Err e => Err e end,
             {| st_store := st_store s;
                st_world := st_world s';
                st_log := st_log s' |})
      | CacheDisabled =>
          n <- instantiate_node config args _convert_ _recursive_ false ;;
          ret (instance n)
      | CacheObject =>
          n <- instantiate_node config args _convert_ _recursive_ true ;;
          ret (instance n)
      | CacheOther => raise (ValueError "cache has to be a Cache, None or DISABLED")
      end
  | _ => raise (InstantiationException "Top level config has to be a dict")
  end.
End Engine.

Arguments ret {World A} a _.
Arguments raise {World A} e _.
Arguments lift {World A} r _.


(* ================================================================= *)
(** ** caching/dumpable.py *)

Module DumpableInMemoryCache.
(** The part of the file system that [dump] touches. *)
Record FileSystem : Type := mkFS {
  fs_dirs : list string;
  fs_files : list (string * string)
}.

(** [path.exists] *)
Definition path_exists (fs : FileSystem) (p : string) : bool :=
  existsb (String.eqb p) (fs_dirs fs) || str_contains p (fs_files fs).

(** [makedirs(directory, exist_ok=True)] *)
Definition makedirs (fs : FileSystem) (directory : string) : FileSystem :=
  if existsb (String.eqb directory) (fs_dirs fs) then fs
  else {| fs_dirs := fs_dirs fs ++ [directory]; fs_files := fs_files fs |}.

(** [with open(p, "w") as f: f.write(content)] *)
Definition write_file (fs : FileSystem) (p content : string) : FileSystem :=
  {| fs_dirs := fs_dirs fs; fs_files := str_set p content (fs_files fs) |}.

(** [path.join(directory, f'{h}.ext')] *)
Definition path_join (directory name : string) : string :=
  directory ++ "/" ++ name.

(** The records written to the logger. *)
Inductive LogRecord : Type :=
| LogDump (entries : nat) (directory : string)
| LogDirectoryExists (directory : string)
| LogConstraint (message : string)
| LogEntryExists (h : string)
| LogDumped (n_dumped entries : nat) (directory : string).

(** A constraint returns the reason why an entry is left out, if any. *)
Definition Constraint : Type := Value -> InstantiatedNode -> option string.

(** [not_deterministic_constraint] *)
Definition not_deterministic_constraint : Constraint :=
  fun k v =>
    if not_deterministic (info v)
    then Some "don't dump/load entry since it is not deterministic"
    else None.

(** [exclude_targets_constraint] on the string form of the targets *)
Definition exclude_targets_constraint (exclude_targets : list Value)
  : Constraint :=
  fun k v =>
    match k with
    | VDictConfig entries | VDict entries =>
        match str_get "_target_" entries with
        | Some t =>
            if existsb (Value_eqb t) exclude_targets
            then Some "don't dump/load entry since it was created with an excluded target"
            else None
        | None =>
            if existsb (Value_eqb VNone) exclude_targets
            then Some "don't dump/load entry since it was created with an excluded target"
            else None
        end
    | _ => None
    end.

(** [exclude_target_time_none_or_lesser_then] *)
Definition exclude_target_time_none_or_lesser_then (min_time : Z)
  : Constraint :=
  fun k v =>
    match time_target (info v) with
    | None => Some "don't dump/load entry since its target_time is None"
    | Some t =>
        if Z.leb t min_time
        then Some "don't dump/load entry since its target_time is lesser"
        else None
    end.

Section Dump.
(** [OmegaConf.to_yaml], [joblib.hash] and [pkl.dump]. *)
Variable to_yaml : Value -> string.
Variable joblib_hash : Value -> string.
Variable pickle : InstantiatedNode -> string.

Variable verbose : bool.

(** The loop over the constraints: every constraint is asked, the
    entry is skipped as soon as one of them gave a reason. *)
Fixpoint check_constraints (constraints : list Constraint) (k : Value)
    (v : InstantiatedNode) (skip : bool) (log : list LogRecord)
  : bool * list LogRecord :=
  match constraints with
  | [] => (skip, log)
  | c :: constraints' =>
      match c k v with
      | Some constraint_error_message =>
          check_constraints constraints' k v true
            (if verbose then log ++ [LogConstraint constraint_error_message]
             else log)
      | None => check_constraints constraints' k v skip log
      end
  end.

(** The state of the loop of [dump]: the file system, [n_dumped] and
    the log. *)
Record DumpState : Type := mkDump {
  d_fs : FileSystem;
  n_dumped : nat;
  d_log : list LogRecord
}.

(** One turn of the loop [for k, v in self.store.items()]. *)
Definition dump_entry (directory : string)
    (constraints : option (list Constraint)) (overwrite : bool)
    (st : DumpState) (kv : Value * InstantiatedNode) : DumpState :=
  let '(k, v) := kv in
  let '(skip, log) :=
    match constraints with
    | Some cs => check_constraints cs k v false (d_log st)
    | None => (false, d_log st)
    end in
  if skip then {| d_fs := d_fs st; n_dumped := n_dumped st; d_log := log |}
  else
    let k_dump := to_yaml k in
    let h := joblib_hash (VStr k_dump) in
    let fn_config := path_join directory (h ++ ".yaml") in
    if path_exists (d_fs st) fn_config && negb overwrite then
      {| d_fs := d_fs st; n_dumped := n_dumped st;
         d_log := if verbose then log ++ [LogEntryExists h] else log |}
    else
      let fs1 := write_file (d_fs st) fn_config k_dump in
      let fn_data := path_join directory (h ++ ".pkl") in
      let fs2 := write_file fs1 fn_data (pickle v) in
      {| d_fs := fs2; n_dumped := n_dumped st + 1; d_log := log |}.

(** Did a constraint give a reason to leave the entry out? *)
Definition rejected (constraints : option (list Constraint)) (k : Value)
    (v : InstantiatedNode) : bool :=
  match constraints with
  | Some cs =>
      existsb (fun c => match c k v with Some _ => true | None => false end)
              cs
  | None => false
  end.


(** [dump(directory, constraints, overwrite)]: the value returned
    (the function has no [return] statement), the file system and the
    log afterwards. *)
Definition dump (store : InMemoryCache.store InstantiatedNode)
    (directory : string) (constraints : option (list Constraint))
    (overwrite : bool) (fs : FileSystem)
  : Value * FileSystem * list LogRecord :=
  let log :=
    if verbose then [LogDump (List.length store) directory] else [] in
  let log :=
    if path_exists fs directory
    then log ++ [LogDirectoryExists directory] else log in
  let st :=
    fold_left (dump_entry directory constraints overwrite) store
      {| d_fs := makedirs fs directory; n_dumped := 0; d_log := log |} in
  (VNone, d_fs st,
   d_log st ++ [LogDumped (n_dumped st) (List.length store) directory]).
End Dump.
End DumpableInMemoryCache.

(* ================================================================= *)
(** ** Vocabulary of the properties *)

(** Number of objects in a tree. *)
Fixpoint size (v : Value) : nat :=
  match v with
  | VList l | VListConfig l => S (fold_right (fun x n => size x + n) 0 l)
  | VDict d | VDictConfig d =>
      S (fold_right (fun kv n => (let '(_, x) := kv in size x) + n) 0 d)
  | _ => 1
  end.

(** A tree that contains, at any depth, a mapping with the reserved key
    [_result_hash_]: the placeholder that the engine puts in deterministic
    substitutes. *)
Fixpoint has_result_hash (v : Value) : bool :=
  match v with
  | VList l | VListConfig l => existsb has_result_hash l
  | VDict d | VDictConfig d =>
      str_contains "_result_hash_" d
      || existsb (fun kv => let '(_, x) := kv in has_result_hash x) d
  | _ => false
  end.

(** The key under which the engine stores a computed result with info
    [i]: the deterministic substitute when the target is deterministic and
    a substitute exists, the node itself otherwise. *)
Definition cache_key_of (node : Value) (i : InstantiatedNodeInfo) : Value :=
  if not_deterministic i then node
  else match deterministic_config i with
       | Some d => d
       | None => node
       end.

(** The entries that the events of a log put into a store, in order. *)
Definition replay (events : list Event)
    (store : InMemoryCache.store InstantiatedNode)
  : InMemoryCache.store InstantiatedNode :=
  fold_left
    (fun st ev =>
       match ev with
       | EStore key value => InMemoryCache.setitem st key value
       | ECall _ _ _ _ => st
       end)
    events store.

(** How often the target of [node] was called. *)
Definition count_calls (node : Value) (events : list Event) : nat :=
  List.length
    (filter
       (fun ev =>
          match ev with
          | ECall n _ _ _ => Value_eqb n node
          | EStore _ _ => false
          end)
       events).

(** The keyword arguments of a node whose entries are passed on as they
    are ([_recursive_] is false). *)
Fixpoint raw_kwargs (convert : Value) (entries : list (string * Value))
    (kwargs : list (string * Value)) : list (string * Value) :=
  match entries with
  | [] => kwargs
  | (key, value) :: entries' =>
      if excluded key then raw_kwargs convert entries' kwargs
      else raw_kwargs convert entries'
             (str_set key (_convert_node value convert) kwargs)
  end.

(** An info that carries no trace of a target that is not deterministic. *)
Definition deterministic_info (i : InstantiatedNodeInfo) : Prop :=
  not_deterministic i = false /\ deterministic_config i = None.

(** An info whose substitute, if any, contains a result hash. *)
Definition substitute_hashed (i : InstantiatedNodeInfo) : Prop :=
  forall d, deterministic_config i = Some d -> has_result_hash d = true.

(** An event that is not the call of a target of a tree larger than [n]. *)
Definition event_within (n : nat) (ev : Event) : Prop :=
  match ev with
  | ECall node _ _ _ => size node <= n
  | EStore _ _ => True
  end.

(** An event that is not a call that raised. *)
Definition event_returned (ev : Event) : Prop :=
  match ev with
  | ECall _ _ _ (Raised _) => False
  | _ => True
  end.

(** The nodes whose target was called, in order. *)
Definition called_nodes (events : list Event) : list Value :=
  flat_map
    (fun ev => match ev with ECall n _ _ _ => [n] | EStore _ _ => [] end)
    events.

(** The node at a path of names and positions below a node. *)
Fixpoint at_path (p : list Key) (v : Value) : option Value :=
  match p with
  | [] => Some v
  | KStr x :: p' =>
      match v with
      | VDict d | VDictConfig d =>
          match str_get x d with
          | Some c => at_path p' c
          | None => None
          end
      | _ => None
      end
  | KIdx n :: p' =>
      match v with
      | VList l | VListConfig l =>
          match nth_error l n with
          | Some c => at_path p' c
          | None => None
          end
      | _ => None
      end
  end.


Section Vocabulary.
Variable World : Type.
Variable resolve : Value -> option (Target World).

(** Is the target that this value names marked as not deterministic:
    does it carry the attribute that the decorator sets, with the flag
    set? *)
Definition target_not_deterministic (t : Value) : bool :=
  match resolve t with
  | Some f =>
      match target_attr f with
      | Some func_info => fi_not_deterministic func_info
      | None => false
      end
  | None => false
  end.

(** The name of the target of a node, as the message of
    [_call_target] prints it. *)
Definition target_name_of (node : Value) : option string :=
  match node with
  | VDictConfig entries =>
      match str_get "_target_" entries with
      | Some t =>
          match resolve t with
          | Some f => Some (target_name f)
          | None => None
          end
      | None => None
      end
  | _ => None
  end.

(** A tree in which no node has a target marked as not deterministic. *)
Fixpoint deterministic_tree (v : Value) : bool :=
  match v with
  | VList l | VListConfig l => forallb deterministic_tree l
  | VDict d => forallb (fun kv => let '(_, x) := kv in deterministic_tree x) d
  | VDictConfig d =>
      match str_get "_target_" d with
      | Some t => negb (target_not_deterministic t)
      | None => true
      end
      && forallb (fun kv => let '(_, x) := kv in deterministic_tree x) d
  | _ => true
  end.

(** [hoare c s Q E]: run from [s], the computation [c] returns a result
    and a state that satisfy [Q], or raises in a state that satisfies
    [E]. *)
Definition hoare (A : Type) (c : M World A) (s : State World)
    (Q : A -> State World -> Prop) (E : Exception -> State World -> Prop)
  : Prop :=
  match c s with
  | (Ok a, s') => Q a s'
  | (Err e, s') => E e s'
  end.

(** The state that [store_result] leaves. *)
Definition stored (cache : bool) (node cache_key : Value)
    (result : InstantiatedNode) (s : State World) : State World :=
  if cache && cache_result (info result) then
    if negb (config_eqb cache_key node) then
      after_store (after_store s cache_key result) node
        (mkNode (instance result) (set_not_deterministic (info result) true))
    else after_store s cache_key result
  else s.

(** The events that an evaluation from [s] to [s'] added to the log. *)
Definition new_events (s s' : State World) : list Event :=
  skipn (List.length (st_log s)) (st_log s').

Variable joblib_hash : Value -> string.

(** [computed entries args convert recursive cache s v i s1]: the
    evaluation of the node with target [VDictConfig entries] from [s]
    missed the cache, called the target of the node, which returned [v],
    and ended in [s1] with the info [i]. *)
Definition computed (entries : list (string * Value)) (args : list Value)
    (convert recursive : Value) (cache : bool) (s : State World)
    (kwargs : list (string * Value)) (v : Value) (i : InstantiatedNodeInfo)
    (s1 : State World) : Prop :=
  let node := VDictConfig entries in
  exists rec tv target infos s_k t w i0,
    effective_recursive entries recursive = VBool rec /\
    (if cache then InMemoryCache.getitem (st_store s) node else None) = None /\
    str_get "_target_" entries = Some tv /\
    resolve tv = Some target /\
    instantiate_kwargs
      (fun value =>
         instantiate_node resolve joblib_hash value []
           (effective_convert entries convert) (VBool rec) cache)
      rec (effective_convert entries convert) entries ([], []) s
    = (Ok (kwargs, infos), s_k) /\
    call_body target args kwargs (st_world s_k) = (Returned v t, w) /\
    let ti := from_func (target_attr target) (own_cache_result entries) in
    (if not_deterministic ti
     then combine infos None (Some ti)
            (Some (result_hash_config (joblib_hash v)))
     else combine infos (Some node) (Some ti) None) = Ok i0 /\
    i = set_time_target i0 t /\
    (not_deterministic ti = false ->
     forall d, deterministic_config i0 = Some d ->
               (if cache then InMemoryCache.getitem (st_store s_k) d
                else None) = None) /\
    s1 = stored cache node (cache_key_of node i) (mkNode v i)
           (after_call s_k node args kwargs (Returned v t) w).

(** [trace_inv s0 n s]: the state [s] is reached from [s0] by logged
    events only: the store is the one of [s0] with the logged entries
    put in, the targets called belong to trees of size [n] at most, and
    every call returned. *)
Definition trace_inv (s0 : State World) (n : nat) (s : State World) : Prop :=
  exists events,
    st_log s = st_log s0 ++ events /\
    st_store s = replay events (st_store s0) /\
    Forall (event_within n) events /\
    Forall event_returned events.

(** [trace_err s0 n e s]: the same for a state in which the exception
    [e] was raised; an exception that left [_call_target] stands for
    the one that is the outcome of the last event, a call. *)
Definition trace_err (s0 : State World) (n : nat) (e : Exception)
    (s : State World) : Prop :=
  exists events,
    st_log s = st_log s0 ++ events /\
    st_store s = replay events (st_store s0) /\
    Forall (event_within n) events /\
    match e with
    | TargetRaised q =>
        exists before node args kwargs p name,
          events = before ++ [ECall node args kwargs (Raised p)] /\
          target_name_of node = Some name /\
          q = error_instantiating name p /\
          Forall event_returned before
    | _ => Forall event_returned events
    end.
End Vocabulary.

(* ================================================================= *)
(** ** A bench of targets *)

Module Bench.
(** The world is the tape of values that the random source returns. *)
Definition World : Type := list Z.

Definition kwarg (k : string) (kwargs : list (string * Value)) : Z :=
  match str_get k kwargs with
  | Some (VInt z) => z
  | _ => 0%Z
  end.

(** [add(a, b)] returns [a + b]. *)
Definition add : Target World :=
  mkTarget "bench.add" None
    (fun _ kwargs w =>
       (Returned (VInt (kwarg "a" kwargs + kwarg "b" kwargs)) 5, w)).

(** [random_source()] and [other_source()] return the next value of
    the tape and are marked as not deterministic. *)
Definition random_source : Target World :=
  not_deterministic_decorator
    (mkTarget "bench.random_source" None
       (fun _ _ w =>
          match w with
          | x :: w' => (Returned (VInt x) 3, w')
          | [] => (Raised (mkExc "IndexError" "no value left"), w)
          end)).

Definition other_source : Target World := random_source.

(** [consumer(x)] returns [2 * x]. *)
Definition consumer : Target World :=
  mkTarget "bench.consumer" None
    (fun _ kwargs w => (Returned (VInt (2 * kwarg "x" kwargs)) 9, w)).

(** [wrap(y)] returns [y + 1]. *)
Definition wrap : Target World :=
  mkTarget "bench.wrap" None
    (fun _ kwargs w => (Returned (VInt (kwarg "y" kwargs + 1)) 2, w)).

(** [train(x)] returns [x] after two seconds. *)
Definition train : Target World :=
  mkTarget "bench.train" None
    (fun _ kwargs w => (Returned (VInt (kwarg "x" kwargs)) 2000000, w)).

(** [broken()] raises [RuntimeError("broken")]. *)
Definition broken : Target World :=
  mkTarget "bench.broken" None
    (fun _ _ w => (Raised (mkExc "RuntimeError" "broken"), w)).

Definition resolve (t : Value) : option (Target World) :=
  match t with
  | VStr "add" => Some add
  | VStr "random_source" => Some random_source
  | VStr "other_source" => Some other_source
  | VStr "consumer" => Some consumer
  | VStr "wrap" => Some wrap
  | VStr "train" => Some train
  | VStr "broken" => Some broken
  | _ => None
  end.

(** A content hash that tells integers apart. *)
Definition joblib_hash (v : Value) : string :=
  match v with
  | VInt z => String (ascii_of_N (Z.to_N z)) EmptyString
  | _ => "object"
  end.

Definition call (target : string) (kwargs : list (string * Value)) : Value :=
  VDictConfig (("_target_", VStr target) :: kwargs).

(** A state with an empty cache. *)
Definition fresh (w : World) : State World := mkState [] w [].

(** [instantiate_node(node, cache=cache)] with the default modes. *)
Definition run (node : Value) (s : State World)
  : Result InstantiatedNode * State World :=
  instantiate_node resolve joblib_hash node [] (VStr "none") (VBool true)
    true s.

(** The node that a run returned. *)
Definition returned (r : Result InstantiatedNode * State World)
  : InstantiatedNode :=
  match fst r with
  | Ok n => n
  | Err _ => mkNode VNone default_info
  end.
End Bench.

Module Examples.
Import Bench.

(** [{_target_: add, a: 1, b: 2, _cache_result_: false}] *)
Definition uncached_sum : Value :=
  call "add" [("a", VInt 1); ("b", VInt 2); ("_cache_result_", VBool false)].

(** [{_target_: consumer, x: {_target_: random_source}}] *)
Definition consumer_of_random : Value :=
  call "consumer" [("x", call "random_source" [])].
End Examples.

Module CacheResultExample.
Import Bench.

(** A random source whose result is not to be cached, its consumer, and
    a node that depends on the consumer. *)
Definition source : Value :=
  call "random_source" [("_cache_result_", VBool false)].
Definition inner : Value := call "consumer" [("x", source)].
Definition outer : Value := call "wrap" [("y", inner)].

(** The consumer of another source, evaluated before. *)
Definition earlier : Value := call "consumer" [("x", call "other_source" [])].

Definition tree : Value := VListConfig [earlier; outer].
End CacheResultExample.

Module FailureExample.
Import Bench.

(** A sum, then a node whose argument is computed before its own target
    raises. *)
Definition sum : Value := call "add" [("a", VInt 1); ("b", VInt 2)].
Definition failing : Value :=
  call "broken" [("x", call "add" [("a", VInt 3); ("b", VInt 4)])].
Definition tree : Value :=
  call "wrap" [("y", VListConfig [sum; failing; sum])].
End FailureExample.

Module SubstituteExample.
Import Bench.

(** [{_target_: wrap, y: {_target_: consumer, x: {_target_:
    random_source}}}]: the source that is not deterministic lies two
    levels below the node. *)
Definition entries : list (string * Value) :=
  [("_target_", VStr "wrap"); ("y", Examples.consumer_of_random)].

(** The cache of a first run with the value 7, restored without the
    entries marked as not deterministic. *)
Definition restored : InMemoryCache.store InstantiatedNode :=
  filter (fun kv => negb (not_deterministic (info (snd kv))))
         (st_store (snd (run (VDictConfig entries) (fresh [7%Z])))).

(** A second run, in which the random source returns [z]. *)
Definition second (z : Z) : State World := mkState restored [z] [].

(** The key of the consumer when the source returned [z], and the info
    stored with the result of the consumer. *)
Definition consumer_key (z : Z) : Value :=
  VDictConfig
    [("_target_", VStr "consumer");
     ("x", result_hash_config (joblib_hash (VInt z)))].


(** The key of the node itself when the source returned [z]. *)
Definition key (z : Z) : Value :=
  VDictConfig [("_target_", VStr "wrap"); ("y", consumer_key z)].

End SubstituteExample.

Module ReservedKeyExample.
Import Bench.

(** [{_target_: consumer, x: {_result_hash_: h}}] with [h] the content
    hash of 7: a configuration that uses the reserved key
    [_result_hash_], and the key under which the result of the consumer
    of a random source is stored when the source returns 7. *)
Definition D : Value :=
  VDictConfig
    [("_target_", VStr "consumer");
     ("x", result_hash_config (joblib_hash (VInt 7)))].

(** The state, cache included, that the evaluation of the consumer of
    a random source leaves when the source returns 7. *)
Definition shared : State World :=
  snd (run Examples.consumer_of_random (fresh [7%Z])).
End ReservedKeyExample.

Module DumpExample.
Import DumpableInMemoryCache.

(** Stand-ins for the serializers. *)
Definition to_yaml (k : Value) : string :=
  match k with
  | VDictConfig (("_target_", VStr t) :: _) => t
  | _ => "config"
  end.
Definition joblib_hash (v : Value) : string :=
  match v with
  | VStr s => s
  | _ => "object"
  end.
Definition pickle (v : InstantiatedNode) : string :=
  match instance v with
  | VInt z => String (ascii_of_N (Z.to_N z)) EmptyString
  | _ => "object"
  end.

Definition key : Value := Bench.call "add" [("a", VInt 1); ("b", VInt 2)].
Definition value : InstantiatedNode := mkNode (VInt 3) default_info.
Definition empty_fs : FileSystem := mkFS [] [].
End DumpExample.


(* ================================================================= *)
(** ** More vocabulary: events, entries and conversion modes *)

(** An event that is the call of a target, not a write to the cache. *)
Definition event_is_call (ev : Event) : Prop :=
  match ev with
  | ECall _ _ _ _ => True
  | EStore _ _ => False
  end.

(** An entry of the cache whose result was to be cached and whose
    target was timed. *)
Definition timed_entry (kv : Value * InstantiatedNode) : Prop :=
  cache_result (info (snd kv)) = true /\ time_target (info (snd kv)) <> None.

(** A tree in which every [_convert_] key asks for the mode [all]. *)
Fixpoint converting_all (v : Value) : bool :=
  match v with
  | VList l | VListConfig l => forallb converting_all l
  | VDict d => forallb (fun kv => let '(_, x) := kv in converting_all x) d
  | VDictConfig d =>
      match str_get "_convert_" d with
      | Some c => is_ALL c
      | None => true
      end
      && forallb (fun kv => let '(_, x) := kv in converting_all x) d
  | _ => true
  end.

(** A call none of whose keyword arguments is an OmegaConf container. *)
Definition plain_kwargs (ev : Event) : Prop :=
  match ev with
  | ECall _ _ kwargs _ => Forall (fun kv => is_config (snd kv) = false) kwargs
  | EStore _ _ => True
  end.

(** [len(set(keys)) == len(keys)]: the keys of a dictionary are
    distinct. *)
Fixpoint distinct_keys (d : list (string * Value)) : bool :=
  match d with
  | [] => true
  | (k, _) :: d' => negb (str_contains k d') && distinct_keys d'
  end.

(** A configuration that holds data only: primitives in OmegaConf
    containers, no mapping with a [_target_] or a [_convert_] key, and
    [_recursive_], where present, a bool. *)
Fixpoint data_only (v : Value) : bool :=
  match v with
  | VList _ | VDict _ => false
  | VListConfig l => forallb data_only l
  | VDictConfig d =>
      negb (str_contains "_target_" d)
      && negb (str_contains "_convert_" d)
      && match str_get "_recursive_" d with
         | Some (VBool _) | None => true
         | Some _ => false
         end
      && distinct_keys d
      && forallb (fun kv => let '(_, x) := kv in data_only x) d
  | _ => true
  end.

(* ================================================================= *)
(** ** caching/dumpable.py: the other constraints, and those of main.py *)

(** [type(obj)] for the objects of the model. *)
Inductive PyType : Type :=
| TNoneType | TBool | TInt | TStr | TList | TDict | TListConfig | TDictConfig.

Definition type_of (v : Value) : PyType :=
  match v with
  | VNone => TNoneType
  | VBool _ => TBool
  | VInt _ => TInt
  | VStr _ => TStr
  | VList _ => TList
  | VDict _ => TDict
  | VListConfig _ => TListConfig
  | VDictConfig _ => TDictConfig
  end.

Definition PyType_eqb (a b : PyType) : bool :=
  match a, b with
  | TNoneType, TNoneType | TBool, TBool | TInt, TInt | TStr, TStr
  | TList, TList | TDict, TDict | TListConfig, TListConfig
  | TDictConfig, TDictConfig => true
  | _, _ => false
  end.

(** [exclude_types_constraint] *)
Definition exclude_types_constraint (exclude_types : list PyType)
  : DumpableInMemoryCache.Constraint :=
  fun k v =>
    if existsb (PyType_eqb (type_of (instance v))) exclude_types
    then Some "don't dump/load entry since its type is in exclude_types"
    else None.

(** The constraints that [main] passes to [dump]: the excluded targets
    (the strings between the commas of [--exclude_persisting_targets]),
    no result of a target that is not deterministic, and only results
    whose target ran for more than a second (durations are in
    microseconds). *)
Definition main_constraints (exclude_persisting_targets : list string)
  : list DumpableInMemoryCache.Constraint :=
  [DumpableInMemoryCache.exclude_targets_constraint
     (map VStr exclude_persisting_targets);
   DumpableInMemoryCache.not_deterministic_constraint;
   DumpableInMemoryCache.exclude_target_time_none_or_lesser_then 1000000%Z].

(* ================================================================= *)
(** ** caching/dumpable.py: loading the cache *)

Module DumpableLoad.
Import DumpableInMemoryCache.

(** [s] without the prefix [p], if it starts with it. *)
Fixpoint strip_prefix (p s : string) : option string :=
  match p, s with
  | EmptyString, _ => Some s
  | String a p', String b s' =>
      if Ascii.eqb a b then strip_prefix p' s' else None
  | String _ _, EmptyString => None
  end.

(** What [*] stands for when a name matches [*.pkl]. *)
Fixpoint stem_of (name : string) : option string :=
  if String.eqb name ".pkl" then Some EmptyString
  else
    match name with
    | EmptyString => None
    | String c name' =>
        match stem_of name' with
        | Some stem => Some (String c stem)
        | None => None
        end
    end.

Fixpoint no_slash (name : string) : bool :=
  match name with
  | EmptyString => true
  | String c name' => negb (Ascii.eqb c "/") && no_slash name'
  end.

(** A name that starts with a dot is not matched by [*]. *)
Definition hidden (name : string) : bool :=
  match name with
  | String c _ => Ascii.eqb c "."
  | EmptyString => false
  end.

(** Does the path match [path.join(directory, '*.pkl')]?  The
    directory name is taken to hold no wildcard character. *)
Definition matches_pkl (directory p : string) : bool :=
  match strip_prefix (directory ++ "/") p with
  | Some name =>
      no_slash name && negb (hidden name)
      && match stem_of name with Some _ => true | None => false end
  | None => false
  end.

(** [glob.glob(path.join(directory, '*.pkl'))]: the paths of the file
    system, directories and files, that match, in the order in which the
    file system lists them. *)
Definition glob_pkl (fs : FileSystem) (directory : string) : list string :=
  filter (matches_pkl directory) (fs_dirs fs ++ map fst (fs_files fs)).

(** What can go wrong with a file. *)
Inductive LoadError : Type :=
| FileNotFoundError (p : string)
| IsADirectoryError (p : string)
| UnpicklingError (p : string)
| YamlError (p : string).

(** The records written to the logger by [load] and by the
    [__setitem__] of a verbose cache. *)
Inductive LoadRecord : Type :=
| LogLoad (files : nat) (directory : string)
| LogWarning (message : string)
| LogAdd (key : Value)
| LogLoaded (entries : nat).

(** The cache and the log while [load] runs. *)
Record LoadState : Type := mkLoad {
  l_store : InMemoryCache.store InstantiatedNode;
  l_log : list LoadRecord
}.

(** [load] returns nothing; it ends with the cache filled, or with an
    exception and the cache as filled so far. *)
Inductive LoadResult : Type :=
| Loaded (st : LoadState)
| LoadFailed (e : LoadError) (st : LoadState).

Section Load.
(** [pkl.load], [OmegaConf.load] on the content of a file, and the
    first component of [path.splitext]. *)
Variable unpickle : string -> option InstantiatedNode.
Variable from_yaml : string -> option Value.
Variable splitext : string -> string.

Variable verbose : bool.

(** [open(p)] for reading. *)
Definition read_file (fs : FileSystem) (p : string) : LoadError + string :=
  match str_get p (fs_files fs) with
  | Some content => inr content
  | None =>
      if existsb (String.eqb p) (fs_dirs fs)
      then inl (IsADirectoryError p)
      else inl (FileNotFoundError p)
  end.

(** The loop over the constraints in [load]. *)
Fixpoint check_load_constraints (constraints : list Constraint) (k : Value)
    (v : InstantiatedNode) (skip : bool) (log : list LoadRecord)
  : bool * list LoadRecord :=
  match constraints with
  | [] => (skip, log)
  | c :: constraints' =>
      match c k v with
      | Some constraint_error_message =>
          check_load_constraints constraints' k v true
            (if verbose then log ++ [LogWarning constraint_error_message]
             else log)
      | None => check_load_constraints constraints' k v skip log
      end
  end.

(** One turn of the loop [for fn in file_names]. *)
Definition load_file (constraints : option (list Constraint))
    (fs : FileSystem) (st : LoadState) (fn : string)
  : LoadError + LoadState :=
  match read_file fs fn with
  | inl e => inl e
  | inr data =>
      match unpickle data with
      | None => inl (UnpicklingError fn)
      | Some v =>
          let config_fn := (splitext fn ++ ".yaml")%string in
          match read_file fs config_fn with
          | inl e => inl e
          | inr text =>
              match from_yaml text with
              | None => inl (YamlError config_fn)
              | Some k =>
                  let '(skip, log) :=
                    match constraints with
                    | Some cs =>
                        check_load_constraints cs k v false (l_log st)
                    | None => (false, l_log st)
                    end in
                  if skip then inr {| l_store := l_store st; l_log := log |}
                  else
                    inr {| l_store := InMemoryCache.setitem (l_store st) k v;
                           l_log := if verbose then log ++ [LogAdd k]
                                    else log |}
              end
          end
      end
  end.

Fixpoint load_files (constraints : option (list Constraint))
    (fs : FileSystem) (file_names : list string) (st : LoadState)
  : LoadResult :=
  match file_names with
  | [] => Loaded st
  | fn :: file_names' =>
      match load_file constraints fs st fn with
      | inl e => LoadFailed e st
      | inr st' => load_files constraints fs file_names' st'
      end
  end.

(** [load(directory, constraints)] on a cache that holds [store]. *)
Definition load (store : InMemoryCache.store InstantiatedNode)
    (directory : string) (constraints : option (list Constraint))
    (fs : FileSystem) : LoadResult :=
  let file_names := glob_pkl fs directory in
  let log :=
    if verbose then [LogLoad (List.length file_names) directory] else [] in
  match load_files constraints fs file_names
          {| l_store := store; l_log := log |} with
  | Loaded st =>
      Loaded {| l_store := l_store st;
                l_log := l_log st ++ [LogLoaded (List.length (l_store st))] |}
  | LoadFailed e st => LoadFailed e st
  end.

(** [DumpableInMemoryCache(directory=directory, verbose=verbose)] *)
Definition __init__ (directory : option string) (fs : FileSystem)
  : LoadResult :=
  match directory with
  | Some d => load (InMemoryCache.empty InstantiatedNode) d None fs
  | None =>
      Loaded {| l_store := InMemoryCache.empty InstantiatedNode;
                l_log := [] |}
  end.
End Load.
End DumpableLoad.

(** A name that [*] can stand for in [*.pkl]: no slash in it and no dot
    in front. *)
Definition plain_name (h : string) : bool :=
  DumpableLoad.no_slash h && negb (DumpableLoad.hidden (h ++ ".pkl")).

(** A path that does not lie in the directory. *)
Definition outside (directory p : string) : bool :=
  match DumpableLoad.strip_prefix (directory ++ "/") p with
  | None => true
  | Some _ => false
  end.

(** The entries of a store that no constraint leaves out. *)
Definition accepted (constraints : option (list DumpableInMemoryCache.Constraint))
    (store : list (Value * InstantiatedNode))
  : list (Value * InstantiatedNode) :=
  filter (fun kv => negb (DumpableInMemoryCache.rejected constraints
                            (fst kv) (snd kv))) store.

Section DumpedFiles.
Variable to_yaml : Value -> string.
Variable joblib_hash : Value -> string.
Variable pickle : InstantiatedNode -> string.

(** The name under which a key is dumped, its two files, and the files
    of a list of entries. *)
Definition dump_name (k : Value) : string := joblib_hash (VStr (to_yaml k)).

Definition key_path (directory : string) (k : Value) : string :=
  DumpableInMemoryCache.path_join directory (dump_name k ++ ".yaml").

Definition data_path (directory : string) (k : Value) : string :=
  DumpableInMemoryCache.path_join directory (dump_name k ++ ".pkl").

Definition dumped_files (directory : string)
    (entries : list (Value * InstantiatedNode)) : list (string * string) :=
  flat_map
    (fun kv =>
       [(key_path directory (fst kv), to_yaml (fst kv));
        (data_path directory (fst kv), pickle (snd kv))])
    entries.
End DumpedFiles.

Module LoadExample.
(** Stand-ins for the readers that undo the writers of [DumpExample],
    on its one entry. *)
Definition unpickle (data : string) : option InstantiatedNode :=
  if String.eqb data (DumpExample.pickle DumpExample.value)
  then Some DumpExample.value else None.

Definition from_yaml (text : string) : option Value :=
  if String.eqb text "add" then Some DumpExample.key else None.

(** [path.splitext(p)[0]] for a path with an extension of three
    letters. *)
Definition splitext (p : string) : string :=
  substring 0 (String.length p - 4) p.
End LoadExample.

(* ================================================================= *)
(** ** main.py *)

Module Main.
Import DumpableInMemoryCache DumpableLoad.


Section Main.
Variable World : Type.
Variable resolve : Value -> option (Target World).
Variable joblib_hash : Value -> string.
Variable to_yaml : Value -> string.
Variable pickle : InstantiatedNode -> string.
Variable unpickle : string -> option InstantiatedNode.
Variable from_yaml : string -> option Value.
Variable splitext : string -> string.



End Main.
End Main.

(* ================================================================= *)
(** ** Vocabulary: evaluations with and without a cache *)

(** A tree in which no mapping sets [_convert_] or [_recursive_]: the
    modes given at the top hold everywhere. *)
Fixpoint uniform (v : Value) : bool :=
  match v with
  | VList l | VListConfig l => forallb uniform l
  | VDict d => forallb (fun kv => let '(_, x) := kv in uniform x) d
  | VDictConfig d =>
      negb (str_contains "_convert_" d)
      && negb (str_contains "_recursive_" d)
      && forallb (fun kv => let '(_, x) := kv in uniform x) d
  | _ => true
  end.

(** The keys of a mapping come in order. *)
Fixpoint keys_sorted (d : list (string * Value)) : bool :=
  match d with
  | [] => true
  | (k1, _) :: d' =>
      match d' with
      | [] => true
      | (k2, _) :: _ => String.leb k1 k2
      end && keys_sorted d'
  end.

(** A tree all of whose mappings have their keys in order: the one
    representative of its class of equal configurations. *)
Fixpoint canonical (v : Value) : bool :=
  match v with
  | VList l | VListConfig l => forallb canonical l
  | VDict d | VDictConfig d =>
      keys_sorted d
      && forallb (fun kv => let '(_, x) := kv in canonical x) d
  | _ => true
  end.

Section CachedAndNot.
Variable World : Type.
Variable resolve : Value -> option (Target World).
Variable joblib_hash : Value -> string.

(** A target whose outcome depends on its arguments only and that
    leaves the world as it is. *)
Definition pure_target (target : Target World) : Prop :=
  forall args kwargs w w',
    target_call target args kwargs w
    = (fst (target_call target args kwargs w'), w).

(** Without a cache, from any state, the node evaluates to [v], with an
    info that carries no trace of a target that is not deterministic. *)
Definition uncached (convert : Value) (recursive : bool) (node v : Value)
  : Prop :=
  forall s0 : State World,
    exists i s0',
      instantiate_node resolve joblib_hash node [] convert (VBool recursive)
        false s0 = (Ok (mkNode v i), s0') /\
      deterministic_info i.

(** An entry of the cache that holds what its key evaluates to. *)
Definition sound_entry (convert : Value) (recursive : bool)
    (kv : Value * InstantiatedNode) : Prop :=
  canonical (fst kv) = true /\
  deterministic_info (info (snd kv)) /\
  uncached convert recursive (fst kv) (instance (snd kv)).

Definition sound_cache (convert : Value) (recursive : bool)
    (s : State World) : Prop :=
  Forall (sound_entry convert recursive) (st_store s).
End CachedAndNot.

Module PureExample.
(** The targets of the bench that compute their result from their
    arguments. *)
Definition resolve (t : Value) : option (Target Bench.World) :=
  match t with
  | VStr "add" => Some Bench.add
  | VStr "consumer" => Some Bench.consumer
  | VStr "wrap" => Some Bench.wrap
  | _ => None
  end.

(** [wrap(y = consumer(x = add(a=1, b=2)))], twice in a list. *)
Definition tree : Value :=
  let inner :=
    Bench.call "wrap"
      [("y", Bench.call "consumer"
               [("x", Bench.call "add" [("a", VInt 1); ("b", VInt 2)])])] in
  VListConfig [inner; inner].
End PureExample.

(* ================================================================= *)
(** ** utils.py: tables as a dict of lists and as a list of dicts *)

Module Utils.
Section Tables.
(** The objects in the cells ([Any]). *)
Variable A : Type.

(** [dict(pairs)] *)
Definition dict_of (pairs : list (string * A)) : list (string * A) :=
  fold_left (fun d kv => str_set (fst kv) (snd kv) d) pairs [].

(** One step of [zip] over the unpacked columns: the next element of
    every column, if none is exhausted. *)
Fixpoint heads (columns : list (list A)) : option (list A) :=
  match columns with
  | [] => Some []
  | c :: columns' =>
      match c, heads columns' with
      | x :: _, Some row => Some (x :: row)
      | _, _ => None
      end
  end.

Fixpoint zip_rows (n : nat) (columns : list (list A)) : list (list A) :=
  match n with
  | O => []
  | S n' =>
      match heads columns with
      | Some row => row :: zip_rows n' (map (@tl A) columns)
      | None => []
      end
  end.

(** [zip] over the unpacked columns: without columns there is no
    row. *)
Definition zip_star (columns : list (list A)) : list (list A) :=
  match columns with
  | [] => []
  | c :: _ => zip_rows (List.length c) columns
  end.

(** [dl_to_ld(dl)]: the list of [dict(zip(dl, t))] for [t] in the [zip]
    of the unpacked [dl.values()]. *)
Definition dl_to_ld (dl : list (string * list A))
  : list (list (string * A)) :=
  map (fun t => dict_of (List.combine (map fst dl) t))
      (zip_star (map snd dl)).

(** [np.array(x, dtype=object)] and [json.dumps(x)]; the latter raises
    for an object that cannot be serialized. *)
Variable np_array : A -> A.
Variable json_dumps : A -> Result A.

(** [[func(dic[k]) for dic in ld]] *)
Fixpoint column (func : A -> Result A) (k : string)
    (ld : list (list (string * A))) : Result (list A) :=
  match ld with
  | [] => Ok []
  | dic :: ld' =>
      match str_get k dic with
      | None => Err KeyError
      | Some x =>
          match func x with
          | Err e => Err e
          | Ok y =>
              match column func k ld' with
              | Ok col => Ok (y :: col)
              | Err e => Err e
              end
          end
      end
  end.

(** [{k: [func(dic[k]) for dic in ld] for k in keys}] *)
Fixpoint columns_of (func : A -> Result A) (keys : list string)
    (ld : list (list (string * A))) (acc : list (string * list A))
  : Result (list (string * list A)) :=
  match keys with
  | [] => Ok acc
  | k :: keys' =>
      match column func k ld with
      | Err e => Err e
      | Ok col => columns_of func keys' ld (str_set k col acc)
      end
  end.

(** [ld_to_dl(ld, as_numpy, as_json_string)] *)
Definition ld_to_dl (ld : list (list (string * A)))
    (as_numpy as_json_string : bool) : Result (list (string * list A)) :=
  if as_numpy && as_json_string then
    Err (AssertionError "either as_numpy or as_json_string allowed to be True")
  else
    let func :=
      if as_numpy then (fun x => Ok (np_array x))
      else if as_json_string then json_dumps
      else (fun x => Ok x) in
    match ld with
    | [] => Err IndexError
    | first :: _ => columns_of func (map fst first) ld []
    end.
End Tables.
End Utils.

(** The entries of a dict under the given keys, in the order of the
    keys. *)
Definition restrict (A : Type) (keys : list string) (dic : list (string * A))
  : list (string * A) :=
  flat_map (fun k => match str_get k dic with
                     | Some x => [(k, x)]
                     | None => []
                     end) keys.

(* ================================================================= *)
(** * Properties *)

(** Finds an event in a concrete log. *)
Ltac find_event :=
  vm_compute; repeat (first [left; reflexivity | right]).

(* ================================================================= *)
(** ** Equality of configuration nodes *)

Lemma Value_eqb_eq : forall a b, Value_eqb a b = true <-> a = b.
Proof.
  assert (Hlist : forall l,
             Forall (fun a => forall b, Value_eqb a b = true <-> a = b) l ->
             forall l2,
               (fix go (l1 l2 : list Value) {struct l1} : bool :=
                  match l1, l2 with
                  | [], [] => true
                  | x :: l1', y :: l2' => Value_eqb x y && go l1' l2'
                  | _, _ => false
                  end) l l2 = true <-> l = l2).
  { induction 1 as [|x l Hx Hl IH]; intros [|y l2];
      try (split; [discriminate | congruence]); try tauto.
    rewrite andb_true_iff, Hx, IH. split.
    - intros [-> ->]. reflexivity.
    - intros E. inversion E. tauto. }
  assert (Hentries : forall l,
             Forall (fun kv => forall b, Value_eqb (snd kv) b = true <-> snd kv = b) l ->
             forall l2,
               (fix go (l1 l2 : list (string * Value)) {struct l1} : bool :=
                  match l1, l2 with
                  | [], [] => true
                  | (k1, x) :: l1', (k2, y) :: l2' =>
                      String.eqb k1 k2 && Value_eqb x y && go l1' l2'
                  | _, _ => false
                  end) l l2 = true <-> l = l2).
  { induction 1 as [|[k x] l Hx Hl IH]; intros [|[k2 y] l2];
      try (split; [discriminate | congruence]); try tauto.
    simpl in Hx. rewrite !andb_true_iff, String.eqb_eq, Hx, IH. split.
    - intros [[-> ->] ->]. reflexivity.
    - intros E. inversion E. tauto. }
  intros a. induction a using Value_nested_ind; intros c; destruct c; simpl;
    try (split; [discriminate | congruence]).
  - tauto.
  - rewrite Bool.eqb_true_iff. split; congruence.
  - rewrite Z.eqb_eq. split; congruence.
  - rewrite String.eqb_eq. split; congruence.
  - rewrite (Hlist _ H). split; congruence.
  - rewrite (Hentries _ H). split; congruence.
  - rewrite (Hlist _ H). split; congruence.
  - rewrite (Hentries _ H). split; congruence.
Qed.

Lemma Value_eqb_refl : forall a, Value_eqb a a = true.
Proof. intros a. apply Value_eqb_eq. reflexivity. Qed.

Lemma config_eqb_canon : forall a b, config_eqb a b = true <-> canon a = canon b.
Proof. intros a b. unfold config_eqb. apply Value_eqb_eq. Qed.

Lemma config_eqb_refl : forall a, config_eqb a a = true.
Proof. intros a. apply config_eqb_canon. reflexivity. Qed.

Lemma config_eqb_sym : forall a b, config_eqb a b = config_eqb b a.
Proof.
  intros a b.
  destruct (config_eqb a b) eqn:E1, (config_eqb b a) eqn:E2; try reflexivity.
  - apply config_eqb_canon in E1. symmetry in E1.
    apply config_eqb_canon in E1. congruence.
  - apply config_eqb_canon in E2. symmetry in E2.
    apply config_eqb_canon in E2. congruence.
Qed.


Lemma config_eqb_true_l :
  forall a b c, config_eqb a b = true -> config_eqb a c = config_eqb b c.
Proof.
  intros a b c H. apply config_eqb_canon in H.
  unfold config_eqb. rewrite H. reflexivity.
Qed.

(** A key of the dictionary matches itself, and no key that is not
    equal to it. *)
Lemma key_matches_refl : forall a, InMemoryCache.key_matches a a = true.
Proof.
  intros a. unfold InMemoryCache.key_matches.
  rewrite Z.eqb_refl, config_eqb_refl. reflexivity.
Qed.

Lemma key_matches_sym :
  forall a b, InMemoryCache.key_matches a b = InMemoryCache.key_matches b a.
Proof.
  intros a b. unfold InMemoryCache.key_matches.
  rewrite Z.eqb_sym, config_eqb_sym. reflexivity.
Qed.

Lemma key_matches_true_l :
  forall a b c,
    InMemoryCache.key_matches a b = true ->
    InMemoryCache.key_matches a c = InMemoryCache.key_matches b c.
Proof.
  intros a b c H. unfold InMemoryCache.key_matches in *.
  apply andb_prop in H. destruct H as [Hh He].
  apply Z.eqb_eq in Hh. rewrite Hh, (config_eqb_true_l _ _ c He).
  reflexivity.
Qed.

Lemma key_matches_different :
  forall a b, config_eqb a b = false -> InMemoryCache.key_matches a b = false.
Proof.
  intros a b H. unfold InMemoryCache.key_matches. rewrite H.
  apply andb_false_r.
Qed.

Lemma key_matches_equal :
  forall a b, InMemoryCache.key_matches a b = true -> config_eqb a b = true.
Proof.
  intros a b H. unfold InMemoryCache.key_matches in H.
  apply andb_prop in H. exact (proj2 H).
Qed.


(* ================================================================= *)
(** ** Dictionaries and the store of the cache *)

Section DictFacts.
Variables K V : Type.
Variable eqb : K -> K -> bool.

Lemma dict_contains_get :
  forall (k : K) (d : list (K * V)),
    dict_contains eqb k d =
    match dict_get eqb k d with Some _ => true | None => false end.
Proof.
  intros k d. induction d as [|[k' v] d IH]; simpl; [reflexivity|].
  destruct (eqb k' k); [reflexivity | exact IH].
Qed.

Lemma dict_get_In :
  forall (k : K) (d : list (K * V)) v,
    dict_get eqb k d = Some v -> exists k', In (k', v) d.
Proof.
  intros k d v. induction d as [|[k' v'] d IH]; simpl; [discriminate|].
  destruct (eqb k' k).
  - intros [= ->]. exists k'. left. reflexivity.
  - intros H. destruct (IH H) as [k0 Hin]. exists k0. right. exact Hin.
Qed.

Lemma Forall_dict_set :
  forall (P : V -> Prop) (k : K) v (d : list (K * V)),
    Forall (fun kv => P (snd kv)) d -> P v ->
    Forall (fun kv => P (snd kv)) (dict_set eqb k v d).
Proof.
  intros P k v d Hd Hv. induction Hd as [|[k' v'] d Hx Hd IH]; simpl.
  - constructor; [exact Hv | constructor].
  - destruct (eqb k' k); constructor; auto.
Qed.
End DictFacts.

Section StoreFacts.
Variable TV : Type.
Implicit Types c : InMemoryCache.store TV.

Lemma contains_getitem :
  forall c key,
    InMemoryCache.contains c key =
    match InMemoryCache.getitem c key with Some _ => true | None => false end.
Proof. intros c key. apply dict_contains_get. Qed.

Lemma getitem_setitem :
  forall c k1 k2 (v : TV),
    InMemoryCache.getitem (InMemoryCache.setitem c k1 v) k2 =
    if InMemoryCache.key_matches k1 k2 then Some v
    else InMemoryCache.getitem c k2.
Proof.
  unfold InMemoryCache.getitem, InMemoryCache.setitem.
  intros c k1 k2 v. induction c as [|[k' v'] c IH]; simpl.
  - reflexivity.
  - destruct (InMemoryCache.key_matches k' k1) eqn:E1; simpl.
    + rewrite (key_matches_true_l _ _ k2 E1).
      destruct (InMemoryCache.key_matches k1 k2); reflexivity.
    + rewrite IH.
      destruct (InMemoryCache.key_matches k' k2) eqn:E2; [|reflexivity].
      rewrite (key_matches_sym k1 k2), <- (key_matches_true_l _ _ k1 E2), E1.
      reflexivity.
Qed.

Lemma getitem_setitem_same :
  forall c k (v : TV),
    InMemoryCache.getitem (InMemoryCache.setitem c k v) k = Some v.
Proof. intros. rewrite getitem_setitem, key_matches_refl. reflexivity. Qed.

Lemma getitem_setitem_other :
  forall c k1 k2 (v : TV),
    config_eqb k1 k2 = false ->
    InMemoryCache.getitem (InMemoryCache.setitem c k1 v) k2
    = InMemoryCache.getitem c k2.
Proof.
  intros c k1 k2 v H.
  rewrite getitem_setitem, (key_matches_different _ _ H). reflexivity.
Qed.

Lemma getitem_proper :
  forall c k1 k2,
    InMemoryCache.key_matches k1 k2 = true ->
    InMemoryCache.getitem c k1 = InMemoryCache.getitem c k2.
Proof.
  unfold InMemoryCache.getitem. intros c k1 k2 H.
  induction c as [|[k' v'] c IH]; simpl; [reflexivity|].
  rewrite !(key_matches_sym k').
  rewrite (key_matches_true_l _ _ k' H), IH. reflexivity.
Qed.

Lemma getitem_In :
  forall c key (v : TV),
    InMemoryCache.getitem c key = Some v -> exists k', In (k', v) c.
Proof. intros c key v. apply dict_get_In. Qed.

Lemma Forall_setitem :
  forall (P : TV -> Prop) c key v,
    Forall (fun kv => P (snd kv)) c -> P v ->
    Forall (fun kv => P (snd kv)) (InMemoryCache.setitem c key v).
Proof. intros. apply Forall_dict_set; assumption. Qed.
End StoreFacts.

(* ================================================================= *)
(** ** Reasoning about computations of the engine *)

Section HoareFacts.
Variable World : Type.
Implicit Types s : State World.

Lemma hoare_ret :
  forall (A : Type) (a : A) s (Q : A -> State World -> Prop) E,
    Q a s -> hoare (ret a) s Q E.
Proof. intros. exact H. Qed.

Lemma hoare_raise :
  forall (A : Type) e s (Q : A -> State World -> Prop) (E : Exception -> _ -> Prop),
    E e s -> hoare (raise (A:=A) e) s Q E.
Proof. intros. exact H. Qed.

Lemma hoare_lift :
  forall (A : Type) (r : Result A) s (Q : A -> State World -> Prop)
         (E : Exception -> State World -> Prop),
    match r with Ok a => Q a s | Err e => E e s end ->
    hoare (lift r) s Q E.
Proof. intros A [a|e] s Q E H; exact H. Qed.

Lemma hoare_bind :
  forall (A B : Type) (c : M World A) (f : A -> M World B) s
         (Q : B -> State World -> Prop) E,
    hoare c s (fun a s' => hoare (f a) s' Q E) E ->
    hoare (bind c f) s Q E.
Proof.
  unfold hoare, bind. intros A B c f s Q E H.
  destruct (c s) as [[a|e] s']; exact H.
Qed.

Lemma hoare_weaken :
  forall (A : Type) (c : M World A) s
         (Q Q' : A -> State World -> Prop)
         (E E' : Exception -> State World -> Prop),
    hoare c s Q E ->
    (forall a s', Q a s' -> Q' a s') ->
    (forall e s', E e s' -> E' e s') ->
    hoare c s Q' E'.
Proof.
  unfold hoare. intros A c s Q Q' E E' H HQ HE.
  destruct (c s) as [[a|e] s']; auto.
Qed.

Lemma hoare_ok :
  forall (A : Type) (c : M World A) s Q E a s',
    hoare c s Q E -> c s = (Ok a, s') -> Q a s'.
Proof. unfold hoare. intros A c s Q E a s' H Hc. rewrite Hc in H. exact H. Qed.

Lemma hoare_err :
  forall (A : Type) (c : M World A) s (Q : A -> State World -> Prop) E e s',
    hoare c s Q E -> c s = (Err e, s') -> E e s'.
Proof. unfold hoare. intros A c s Q E e s' H Hc. rewrite Hc in H. exact H. Qed.

(** Looking something up does not change the state. *)
Lemma cache_lookup_eq :
  forall cache key s,
    cache_lookup cache key s =
    (Ok (if cache then InMemoryCache.getitem (st_store s) key else None), s).
Proof.
  intros cache key s. unfold cache_lookup. destruct cache; [|reflexivity].
  unfold bind, cache_contains, cache_getitem, ret.
  rewrite contains_getitem.
  destruct (InMemoryCache.getitem (st_store s) key) eqn:G; simpl;
    [rewrite G|]; reflexivity.
Qed.
End HoareFacts.

(* ================================================================= *)
(** ** The rule of the engine *)

Lemma Forall_combine_snd :
  forall (A B : Type) (P : B -> Prop) (l1 : list A) (l2 : list B),
    Forall P l2 -> Forall (fun ab => P (snd ab)) (List.combine l1 l2).
Proof.
  intros A B P l1. induction l1 as [|a l1 IH]; intros l2 H; simpl.
  - constructor.
  - destruct H as [|b l2 Hb Hl]; constructor; auto.
Qed.

Lemma config_setitem_not_raised :
  forall c k v e p, config_setitem c k v = Err e -> e <> TargetRaised p.
Proof.
  intros c k v e p. unfold config_setitem.
  destruct c, k; try (intros [= <-]; discriminate);
    destruct (list_set i v items); intros [= <-]; discriminate.
Qed.

Lemma combine_substitute_not_raised :
  forall parent infos acc e p,
    combine_substitute parent infos acc = Err e -> e <> TargetRaised p.
Proof.
  intros parent infos. induction infos as [|[k i] infos IH]; intros acc e p; simpl.
  - discriminate.
  - destruct (deterministic_config i); [|apply IH].
    destruct (config_setitem _ k v) eqn:S; [apply IH|].
    intros [= <-]. eapply config_setitem_not_raised; eassumption.
Qed.

Lemma combine_not_raised :
  forall infos parent ti dc e p,
    combine infos parent ti dc = Err e -> e <> TargetRaised p.
Proof.
  intros infos parent ti dc e p. unfold combine.
  destruct dc; [discriminate|].
  destruct parent; [|intros [= <-]; discriminate].
  destruct (combine_substitute v infos None) eqn:C; [discriminate|].
  intros [= <-]. eapply combine_substitute_not_raised; eassumption.
Qed.

Section EngineRule.
Variable World : Type.
Variable resolve : Value -> option (Target World).
Variable joblib_hash : Value -> string.

Variable Inv : State World -> Prop.
Variable Good : Value -> Prop.
Variable Qi : InstantiatedNodeInfo -> Prop.
Variable E : Exception -> State World -> Prop.

Hypothesis Good_items : forall l, Good (VListConfig l) -> Forall Good l.
Hypothesis Good_entries :
  forall d, Good (VDictConfig d) -> Forall (fun kv => Good (snd kv)) d.
Hypothesis Qi_default : Qi default_info.
Hypothesis Qi_container :
  forall node infos i,
    Good node -> Forall (fun ki => Qi (snd ki)) infos ->
    combine infos (Some node) None None = Ok i -> Qi i.
Hypothesis Qi_deterministic :
  forall d tv target infos i t,
    Good (VDictConfig d) ->
    str_get "_target_" d = Some tv -> resolve tv = Some target ->
    not_deterministic (from_func (target_attr target) (own_cache_result d))
    = false ->
    Forall (fun ki => Qi (snd ki)) infos ->
    combine infos (Some (VDictConfig d))
      (Some (from_func (target_attr target) (own_cache_result d))) None
    = Ok i ->
    Qi (set_time_target i t).
Hypothesis Qi_not_deterministic :
  forall d tv target infos i t h,
    Good (VDictConfig d) ->
    str_get "_target_" d = Some tv -> resolve tv = Some target ->
    not_deterministic (from_func (target_attr target) (own_cache_result d))
    = true ->
    Forall (fun ki => Qi (snd ki)) infos ->
    combine infos None
      (Some (from_func (target_attr target) (own_cache_result d)))
      (Some (result_hash_config h))
    = Ok i ->
    Qi (set_time_target i t).
Hypothesis Qi_forced :
  forall i, Qi i -> deterministic_config i <> None ->
            Qi (set_not_deterministic i true).
Hypothesis Inv_hit :
  forall s key r,
    Inv s -> InMemoryCache.getitem (st_store s) key = Some r -> Qi (info r).
Hypothesis Inv_store :
  forall s key r, Inv s -> Qi (info r) -> Inv (after_store s key r).
Hypothesis Inv_call :
  forall s node args kwargs v t w,
    Good node -> Inv s ->
    Inv (after_call s node args kwargs (Returned v t) w).
Hypothesis E_call :
  forall s node args kwargs w p name,
    Good node -> Inv s -> target_name_of resolve node = Some name ->
    E (TargetRaised (error_instantiating name p))
      (after_call s node args kwargs (Raised p) w).
Hypothesis E_other :
  forall s e, Inv s -> (forall p, e <> TargetRaised p) -> E e s.

Local Abbreviation Post := (fun (n : InstantiatedNode) (s : State World) =>
                          Inv s /\ Qi (info n)).

Local Abbreviation child_ok rec_call :=
  (fun v : Value => forall s, Inv s -> hoare (rec_call v) s Post E).

Lemma instantiate_items_rule :
  forall rec_call items,
    Forall (child_ok rec_call) items ->
    forall s, Inv s ->
      hoare (instantiate_items rec_call items) s
        (fun ns s' => Inv s' /\ Forall (fun n => Qi (info n)) ns) E.
Proof.
  intros rec_call items H. induction H as [|item items Hx Hl IH]; intros s Hs.
  - simpl. apply hoare_ret. split; [exact Hs | constructor].
  - simpl. apply hoare_bind.
    eapply hoare_weaken; [apply Hx; exact Hs | | auto].
    intros n s1 [Hs1 Hn]. apply hoare_bind.
    eapply hoare_weaken; [apply IH; exact Hs1 | | auto].
    intros ns s2 [Hs2 Hns]. apply hoare_ret. split; [exact Hs2|].
    constructor; assumption.
Qed.

Lemma instantiate_entries_rule :
  forall rec_call entries,
    Forall (fun kv => child_ok rec_call (snd kv)) entries ->
    forall acc s, Inv s -> Forall (fun ki => Qi (snd ki)) (snd acc) ->
      hoare (instantiate_entries rec_call entries acc) s
        (fun r s' => Inv s' /\ Forall (fun ki => Qi (snd ki)) (snd r)) E.
Proof.
  intros rec_call entries H.
  induction H as [|[key value] entries Hx Hl IH]; intros acc s Hs Hacc.
  - simpl. apply hoare_ret. split; assumption.
  - simpl. apply hoare_bind.
    eapply hoare_weaken; [apply Hx; exact Hs | | auto].
    intros n s1 [Hs1 Hn]. apply IH; [exact Hs1|]. simpl.
    apply Forall_dict_set; assumption.
Qed.

Lemma instantiate_kwargs_rule :
  forall rec_call recursive convert entries,
    Forall (fun kv => child_ok rec_call (snd kv)) entries ->
    forall acc s, Inv s -> Forall (fun ki => Qi (snd ki)) (snd acc) ->
      hoare (instantiate_kwargs rec_call recursive convert entries acc) s
        (fun r s' => Inv s' /\ Forall (fun ki => Qi (snd ki)) (snd r)) E.
Proof.
  intros rec_call recursive convert entries H.
  induction H as [|[key value] entries Hx Hl IH]; intros acc s Hs Hacc.
  - simpl. apply hoare_ret. split; assumption.
  - simpl. destruct (excluded key); [apply IH; assumption|].
    destruct recursive.
    + apply hoare_bind.
      eapply hoare_weaken; [apply Hx; exact Hs | | auto].
      intros n s1 [Hs1 Hn]. apply IH; [exact Hs1|]. simpl.
      apply Forall_dict_set; assumption.
    + apply IH; assumption.
Qed.

Lemma instantiate_list_rule :
  forall rec_call items convert s,
    Good (VListConfig items) ->
    Forall (child_ok rec_call) items ->
    Inv s ->
    hoare (instantiate_list rec_call (VListConfig items) items convert) s
          Post E.
Proof.
  intros rec_call items convert s HG Hch Hs. unfold instantiate_list.
  apply hoare_bind.
  eapply hoare_weaken;
    [apply instantiate_items_rule; eassumption | | auto].
  intros ns s1 [Hs1 Hns]. apply hoare_bind. apply hoare_lift.
  destruct (combine _ _ _ _) as [i|e] eqn:C.
  - assert (Hi : Qi i).
    { eapply Qi_container; [exact HG | | exact C].
      apply Forall_combine_snd. apply Forall_map. exact Hns. }
    destruct (is_ALL convert || is_PARTIAL convert);
      apply hoare_ret; split; assumption.
  - apply E_other; [exact Hs1|]. intros p. eapply combine_not_raised. exact C.
Qed.

Lemma instantiate_dict_rule :
  forall rec_call entries convert s,
    Good (VDictConfig entries) ->
    Forall (fun kv => child_ok rec_call (snd kv)) entries ->
    Inv s ->
    hoare (instantiate_dict rec_call (VDictConfig entries) entries convert) s
          Post E.
Proof.
  intros rec_call entries convert s HG Hch Hs. unfold instantiate_dict.
  apply hoare_bind.
  eapply hoare_weaken;
    [apply instantiate_entries_rule; [exact Hch | exact Hs | constructor]
    | | auto].
  intros [dict_items infos] s1 [Hs1 Hinfos]. simpl in Hinfos.
  apply hoare_bind. apply hoare_lift.
  destruct (combine _ _ _ _) as [i|e] eqn:C.
  - assert (Hi : Qi i) by (eapply Qi_container; eassumption).
    destruct (is_ALL convert || is_PARTIAL convert);
      apply hoare_ret; split; assumption.
  - apply E_other; [exact Hs1|]. intros p. eapply combine_not_raised. exact C.
Qed.

Lemma store_result_rule :
  forall cache node cache_key result s,
    Inv s -> Qi (info result) ->
    (config_eqb cache_key node = false ->
     deterministic_config (info result) <> None) ->
    hoare (store_result cache node cache_key result) s
          (fun _ s' => Inv s') E.
Proof.
  intros cache node cache_key result s Hs Hq Hkey. unfold store_result.
  destruct (cache && cache_result (info result)); [|apply hoare_ret; exact Hs].
  apply hoare_bind. unfold hoare at 1, cache_setitem.
  destruct (config_eqb cache_key node) eqn:K; simpl.
  - apply hoare_ret. apply Inv_store; assumption.
  - unfold hoare, cache_setitem. apply Inv_store.
    + apply Inv_store; assumption.
    + simpl. apply Qi_forced; [exact Hq | apply Hkey; reflexivity].
Qed.

Lemma instantiate_target_rule :
  forall rec_call entries args convert recursive cache s,
    Good (VDictConfig entries) ->
    Forall (fun kv => child_ok rec_call (snd kv)) entries ->
    Inv s ->
    hoare (instantiate_target resolve joblib_hash rec_call
             (VDictConfig entries) entries args convert recursive cache) s
          Post E.
Proof.
  intros rec_call entries args convert recursive cache s HG Hch Hs.
  unfold instantiate_target.
  apply hoare_bind. unfold hoare at 1. rewrite cache_lookup_eq.
  destruct (if cache then _ else None) as [n|] eqn:Hit.
  { apply hoare_ret. split; [exact Hs|].
    destruct cache; [|discriminate]. eapply Inv_hit; eassumption. }
  apply hoare_bind. unfold _resolve_target.
  destruct (str_get "_target_" entries) as [tv|] eqn:Htv;
    [|apply hoare_raise; apply E_other; [exact Hs | discriminate]].
  destruct (resolve tv) as [target|] eqn:Hres;
    [|destruct tv; apply hoare_raise; apply E_other;
      solve [exact Hs | discriminate]].
  assert (Hname : target_name_of resolve (VDictConfig entries)
                  = Some (target_name target)).
  { unfold target_name_of. rewrite Htv, Hres. reflexivity. }
  apply hoare_ret. apply hoare_bind.
  eapply hoare_weaken;
    [apply instantiate_kwargs_rule; [exact Hch | exact Hs | constructor]
    | | auto].
  intros [kwargs infos] s1 [Hs1 Hinfos]. simpl in Hinfos.
  set (ti := from_func (target_attr target) (own_cache_result entries)).
  apply hoare_bind. unfold substitute_lookup.
  destruct (not_deterministic ti) eqn:Hnd; simpl.
  - (* the target is not deterministic *)
    apply hoare_ret. unfold call_and_store.
    apply hoare_bind. unfold hoare at 1, _call_target.
    destruct (call_body target args kwargs (st_world s1)) as [[v t|p] w].
    + apply hoare_bind. apply hoare_lift. unfold complete_info.
      destruct (combine _ _ _ _) as [i|e] eqn:C.
      * assert (Hq : Qi (set_time_target i t))
          by (eapply Qi_not_deterministic; eassumption).
        apply hoare_bind.
        eapply hoare_weaken;
          [apply store_result_rule;
           [apply Inv_call; [exact HG | exact Hs1] | exact Hq |]
          | | auto].
        -- rewrite config_eqb_refl. discriminate.
        -- intros u s2 Hs2. apply hoare_ret. split; assumption.
      * apply E_other; [apply Inv_call; assumption|].
        intros p. eapply combine_not_raised. exact C.
    + apply E_call; assumption.
  - (* the target is deterministic *)
    apply hoare_bind. apply hoare_lift.
    destruct (combine _ _ _ _) as [i|e] eqn:C;
      [|apply E_other; [exact Hs1|];
        intros p; eapply combine_not_raised; exact C].
    assert (Hq : forall t, Qi (set_time_target i t))
      by (intros t; eapply Qi_deterministic; eassumption).
    assert (Hcall :
      forall cache_key,
        (config_eqb cache_key (VDictConfig entries) = false ->
         deterministic_config i <> None) ->
        hoare (call_and_store joblib_hash (VDictConfig entries) target ti
                 args kwargs infos cache cache_key (Some i)) s1 Post E).
    { intros cache_key Hkey. unfold call_and_store.
      apply hoare_bind. unfold hoare at 1, _call_target.
      destruct (call_body target args kwargs (st_world s1)) as [[v t|p] w];
        [|apply E_call; assumption].
      apply hoare_bind. apply hoare_lift. simpl.
      apply hoare_bind.
      eapply hoare_weaken;
        [apply store_result_rule;
         [apply Inv_call; [exact HG | exact Hs1] | apply Hq | exact Hkey]
        | | auto].
      intros u s2 Hs2. apply hoare_ret. split; [exact Hs2 | apply Hq]. }
    destruct (deterministic_config i) as [d|] eqn:Hd.
    + apply hoare_bind. unfold hoare at 1. rewrite cache_lookup_eq.
      destruct (if cache then InMemoryCache.getitem (st_store s1) d else None)
        as [n|] eqn:Hit2.
      * cbv beta iota delta [ret]. apply hoare_ret. split; [exact Hs1|].
        destruct cache; [|discriminate]. eapply Inv_hit; eassumption.
      * cbv beta iota delta [ret]. apply Hcall. intros _. discriminate.
    + apply hoare_ret. apply Hcall. rewrite config_eqb_refl. discriminate.
Qed.

(** The rule of the engine: an invariant of the state and a property of
    the infos that the steps of the engine keep hold for every
    evaluation. *)
Theorem engine_rule :
  forall node,
    Good node ->
    forall args convert recursive cache s,
      Inv s ->
      hoare (instantiate_node resolve joblib_hash node args convert
               recursive cache) s Post E.
Proof.
  intros node. induction node using Value_nested_ind;
    intros HG args convert recursive cache st Hs;
    try (apply hoare_ret; split; [exact Hs | exact Qi_default]).
  - (* ListConfig *)
    simpl. destruct recursive;
      try (apply hoare_raise; apply E_other; [exact Hs | discriminate]).
    apply instantiate_list_rule; [exact HG | | exact Hs].
    apply Good_items in HG. rewrite Forall_forall in *.
    intros item Hin s' Hs'. apply H; auto.
  - (* DictConfig *)
    simpl. destruct (effective_recursive entries recursive);
      try (apply hoare_raise; apply E_other; [exact Hs | discriminate]).
    assert (Hch : forall c r,
               Forall (fun kv => child_ok
                         (fun value => instantiate_node resolve joblib_hash
                                         value [] c r cache) (snd kv))
                      entries).
    { intros c r. apply Good_entries in HG. rewrite Forall_forall in *.
      intros kv Hin s' Hs'. apply H; auto. }
    destruct (_is_target entries).
    + apply instantiate_target_rule; auto.
    + apply instantiate_dict_rule; auto.
Qed.
End EngineRule.

(* ================================================================= *)
(** ** The log of an evaluation *)

Lemma size_item :
  forall l x, In x l -> size x < size (VListConfig l).
Proof.
  intros l x. simpl. induction l as [|y l IH]; simpl; [tauto|].
  intros [->|H]; [lia | apply IH in H; lia].
Qed.

Lemma size_entry :
  forall d kv, In kv d -> size (snd kv) < size (VDictConfig d).
Proof.
  intros d kv. simpl. induction d as [|[k y] d IH]; simpl; [tauto|].
  intros [<-|H]; [simpl; lia | apply IH in H; lia].
Qed.

Lemma replay_app :
  forall evs1 evs2 st, replay (evs1 ++ evs2) st = replay evs2 (replay evs1 st).
Proof. intros. unfold replay. apply fold_left_app. Qed.

Section EngineTrace.
Variable World : Type.
Variable resolve : Value -> option (Target World).
Variable joblib_hash : Value -> string.

Lemma trace_inv_refl : forall (s : State World) n, trace_inv s n s.
Proof.
  intros s n. exists []. rewrite app_nil_r. repeat split; constructor.
Qed.

Lemma trace_inv_mono :
  forall (s0 s : State World) n m, n <= m -> trace_inv s0 n s -> trace_inv s0 m s.
Proof.
  intros s0 s n m Hnm (evs & Hl & Hs & Hw & Hr). exists evs.
  repeat split; try assumption.
  eapply Forall_impl; [|exact Hw]. intros [node a k o|k v]; simpl; lia.
Qed.

Lemma trace_err_mono :
  forall (s0 s : State World) n m e,
    n <= m -> trace_err resolve s0 n e s -> trace_err resolve s0 m e s.
Proof.
  intros s0 s n m e Hnm (evs & Hl & Hs & Hw & Hr). exists evs.
  repeat split; try assumption.
  eapply Forall_impl; [|exact Hw]. intros [node a k o|k v]; simpl; lia.
Qed.

(** Every evaluation is traced by its log. *)
Lemma engine_trace :
  forall n node args convert recursive cache (s0 s : State World),
    size node <= n ->
    trace_inv s0 n s ->
    hoare (instantiate_node resolve joblib_hash node args convert recursive
             cache) s
      (fun _ s' => trace_inv s0 n s') (trace_err resolve s0 n).
Proof.
  intros n node args convert recursive cache s0 s Hsize Hs.
  eapply hoare_weaken.
  - apply (@engine_rule World resolve joblib_hash
             (trace_inv s0 n) (fun v => size v <= n)
             (fun _ => True) (trace_err resolve s0 n)); auto.
    + intros l Hl. apply Forall_forall. intros x Hx.
      apply size_item in Hx. lia.
    + intros d Hd. apply Forall_forall. intros kv Hkv.
      apply size_entry in Hkv. lia.
    + intros s1 key r (evs & Hl & Hst & Hw & Hr) _.
      exists (evs ++ [EStore key r]). simpl. rewrite Hl, app_assoc.
      repeat split.
      * rewrite replay_app, <- Hst. reflexivity.
      * apply Forall_app. split; [exact Hw | repeat constructor].
      * apply Forall_app. split; [exact Hr | repeat constructor].
    + intros s1 nd a k v t w Hn (evs & Hl & Hst & Hw & Hr).
      exists (evs ++ [ECall nd a k (Returned v t)]). simpl.
      rewrite Hl, app_assoc. repeat split.
      * rewrite replay_app, <- Hst. reflexivity.
      * apply Forall_app. split; [exact Hw | repeat constructor; exact Hn].
      * apply Forall_app. split; [exact Hr | repeat constructor].
    + intros s1 nd a k w p name Hn (evs & Hl & Hst & Hw & Hr) Hname.
      exists (evs ++ [ECall nd a k (Raised p)]). simpl.
      rewrite Hl, app_assoc. repeat split.
      * rewrite replay_app, <- Hst. reflexivity.
      * apply Forall_app. split; [exact Hw | repeat constructor; exact Hn].
      * exists evs, nd, a, k, p, name. repeat split; assumption.
    + intros s1 e (evs & Hl & Hst & Hw & Hr) He. exists evs.
      repeat split; try assumption.
      destruct e; try exact Hr. exfalso. eapply He. reflexivity.
  - intros a s' [H _]. exact H.
  - auto.
Qed.
End EngineTrace.

(* ================================================================= *)
(** ** The branch of a node with target, step by step *)

Section EngineEquations.
Variable World : Type.
Variable resolve : Value -> option (Target World).
Variable joblib_hash : Value -> string.
Implicit Types s : State World.


Lemma store_result_eq :
  forall cache node cache_key result s,
    store_result cache node cache_key result s =
    (Ok tt, stored cache node cache_key result s).
Proof.
  intros. unfold store_result, stored.
  destruct (cache && cache_result (info result)); [|reflexivity].
  unfold bind, cache_setitem.
  destruct (negb (config_eqb cache_key node)); reflexivity.
Qed.

Lemma substitute_lookup_eq :
  forall node ti infos cache s,
    substitute_lookup node ti infos cache s =
    if not_deterministic ti then (Ok (NotFound node None), s)
    else
      match combine infos (Some node) (Some ti) None with
      | Err e => (Err e, s)
      | Ok ri =>
          match deterministic_config ri with
          | Some d =>
              match (if cache then InMemoryCache.getitem (st_store s) d
                     else None) with
              | Some n => (Ok (Found n), s)
              | None => (Ok (NotFound d (Some ri)), s)
              end
          | None => (Ok (NotFound node (Some ri)), s)
          end
      end.
Proof.
  intros. unfold substitute_lookup.
  destruct (not_deterministic ti); [reflexivity|]. simpl.
  unfold bind, lift.
  destruct (combine infos (Some node) (Some ti) None) as [ri|e];
    [|reflexivity].
  destruct (deterministic_config ri) as [d|]; [|reflexivity].
  rewrite cache_lookup_eq.
  destruct (if cache then _ else None); reflexivity.
Qed.

Lemma call_and_store_eq :
  forall node target ti args kwargs infos cache cache_key ri s,
    call_and_store joblib_hash node target ti args kwargs infos cache
      cache_key ri s =
    match call_body target args kwargs (st_world s) with
    | (Returned v t, w) =>
        let s' := after_call s node args kwargs (Returned v t) w in
        match complete_info joblib_hash ti infos ri v t with
        | Ok i =>
            (Ok (mkNode v i), stored cache node cache_key (mkNode v i) s')
        | Err e => (Err e, s')
        end
    | (Raised p, w) =>
        (Err (TargetRaised (error_instantiating (target_name target) p)),
         after_call s node args kwargs (Raised p) w)
    end.
Proof.
  intros. unfold call_and_store, bind, _call_target.
  destruct (call_body target args kwargs (st_world s)) as [[v t|p] w];
    [|reflexivity].
  unfold lift.
  destruct (complete_info joblib_hash ti infos ri v t) as [i|e];
    [|reflexivity].
  rewrite store_result_eq. reflexivity.
Qed.

Lemma instantiate_node_target_eq :
  forall entries args convert recursive cache rec,
    effective_recursive entries recursive = VBool rec ->
    _is_target entries = true ->
    instantiate_node resolve joblib_hash (VDictConfig entries) args convert recursive cache =
    instantiate_target resolve joblib_hash
      (fun value =>
         instantiate_node resolve joblib_hash value [] (effective_convert entries convert) (VBool rec) cache)
      (VDictConfig entries) entries args
      (effective_convert entries convert) rec cache.
Proof.
  intros entries args convert recursive cache rec Hr Ht.
  simpl. rewrite Hr, Ht. reflexivity.
Qed.

(** A node found in the cache is returned as it is stored. *)
Lemma instantiate_target_hit :
  forall rec_call node entries args convert rec s n,
    InMemoryCache.getitem (st_store s) node = Some n ->
    instantiate_target resolve joblib_hash rec_call node entries args
      convert rec true s = (Ok n, s).
Proof.
  intros. unfold instantiate_target, bind. rewrite cache_lookup_eq, H.
  reflexivity.
Qed.

(** A node that is not found: the target is resolved, the arguments are
    built, and the substitute decides. *)
Lemma instantiate_target_miss :
  forall rec_call node entries args convert rec (cache : bool) s tv target,
    (if cache then InMemoryCache.getitem (st_store s) node else None)
    = None ->
    str_get "_target_" entries = Some tv ->
    resolve tv = Some target ->
    instantiate_target resolve joblib_hash rec_call node entries args
      convert rec cache s =
    match instantiate_kwargs rec_call rec convert entries ([], []) s with
    | (Ok (kwargs, infos), s_k) =>
        let ti := from_func (target_attr target) (own_cache_result entries) in
        match substitute_lookup node ti infos cache s_k with
        | (Ok (Found n), s') => (Ok n, s')
        | (Ok (NotFound cache_key ri), s') =>
            call_and_store joblib_hash node target ti args kwargs infos
              cache cache_key ri s'
        | (Err e, s') => (Err e, s')
        end
    | (Err e, s_k) => (Err e, s_k)
    end.
Proof.
  intros rec_call node entries args convert rec cache s tv target Hm Htv Hres.
  unfold instantiate_target, bind. rewrite cache_lookup_eq, Hm.
  unfold _resolve_target. rewrite Htv, Hres. unfold ret at 1.
  destruct (instantiate_kwargs rec_call rec convert entries ([], []) s)
    as [[[kwargs infos]|e] s_k]; [|reflexivity].
  destruct (substitute_lookup _ _ _ _ _) as [[[n|key ri]|e] s'];
    reflexivity.
Qed.
End EngineEquations.

Unset Implicit Arguments.

(* ================================================================= *)
(** ** Computed results *)

Lemma skipn_length_app :
  forall (A : Type) (l evs : list A), skipn (List.length l) (l ++ evs) = evs.
Proof. intros A l evs. induction l; simpl; auto. Qed.

Section Computed.
Variable World : Type.
Variable resolve : Value -> option (Target World).
Variable joblib_hash : Value -> string.
Implicit Types s : State World.


Lemma new_events_app :
  forall s s' evs, st_log s' = st_log s ++ evs -> new_events s s' = evs.
Proof. intros s s' evs H. unfold new_events. rewrite H. apply skipn_length_app. Qed.

Lemma new_events_refl : forall s, new_events s s = [].
Proof. intros s. apply new_events_app. rewrite app_nil_r. reflexivity. Qed.

(** The arguments of a node are built by evaluations of smaller trees. *)
Lemma instantiate_kwargs_trace :
  forall entries convert recursive cache rec conv acc s0 s,
    trace_inv s0 (size (VDictConfig entries) - 1) s ->
    hoare (instantiate_kwargs
             (fun value => instantiate_node resolve joblib_hash value [] convert recursive cache)
             rec conv entries acc) s
      (fun _ s' => trace_inv s0 (size (VDictConfig entries) - 1) s')
      (trace_err resolve s0 (size (VDictConfig entries) - 1)).
Proof.
  intros entries convert recursive cache rec conv acc s0 s Hs.
  eapply hoare_weaken.
  - apply (@instantiate_kwargs_rule World
             (trace_inv s0 (size (VDictConfig entries) - 1))
             (fun _ => True)
             (trace_err resolve s0 (size (VDictConfig entries) - 1))).
    + apply Forall_forall. intros kv Hin s1 Hs1.
      eapply hoare_weaken.
      * apply engine_trace; [|exact Hs1].
        apply size_entry in Hin. lia.
      * intros a s' H. split; [exact H | exact I].
      * auto.
    + exact Hs.
    + apply Forall_forall. intros; exact I.
  - intros a s' [H _]. exact H.
  - auto.
Qed.

Lemma stored_log :
  forall cache node key r s,
    exists stores,
      st_log (stored cache node key r s) = st_log s ++ stores /\
      Forall (fun ev => match ev with EStore _ _ => True | _ => False end)
             stores.
Proof.
  intros. unfold stored.
  destruct (cache && cache_result (info r)).
  - destruct (negb (config_eqb key node)); simpl.
    + eexists [_; _]. rewrite <- app_assoc. split; [reflexivity|].
      repeat constructor.
    + eexists [_]. split; [reflexivity|]. repeat constructor.
  - exists []. rewrite app_nil_r. split; [reflexivity | constructor].
Qed.

Lemma size_positive : forall v, 1 <= size v.
Proof. destruct v; simpl; lia. Qed.

(** An evaluation that called the target of the node itself computed
    the result. *)
Lemma computed_inv :
  forall entries args convert recursive cache s v i s1 kw out,
    _is_target entries = true ->
    instantiate_node resolve joblib_hash (VDictConfig entries) args convert recursive cache s
    = (Ok (mkNode v i), s1) ->
    In (ECall (VDictConfig entries) args kw out) (new_events s s1) ->
    computed resolve joblib_hash entries args convert recursive cache s
             kw v i s1.
Proof.
  intros entries args convert recursive cache s v i s1 kw out Ht Hev Hin.
  set (node := VDictConfig entries) in *.
  assert (Hr : exists rec, effective_recursive entries recursive = VBool rec).
  { unfold node in Hev. simpl in Hev.
    destruct (effective_recursive entries recursive); try discriminate.
    eexists. reflexivity. }
  destruct Hr as [rec Hr].
  unfold node in Hev.
  rewrite (instantiate_node_target_eq resolve joblib_hash entries args
             convert recursive cache Hr Ht) in Hev. fold node in Hev.
  destruct (if cache then InMemoryCache.getitem (st_store s) node else None)
    as [n|] eqn:Hm.
  { exfalso. unfold instantiate_target, bind in Hev.
    rewrite cache_lookup_eq, Hm in Hev. injection Hev as _ <-.
    rewrite new_events_refl in Hin. exact Hin. }
  assert (Htv : exists tv, str_get "_target_" entries = Some tv).
  { unfold _is_target, str_contains in Ht. rewrite dict_contains_get in Ht.
    unfold str_get. destruct (dict_get String.eqb "_target_" entries);
      [eexists; reflexivity | discriminate]. }
  destruct Htv as [tv Htv].
  destruct (resolve tv) as [target|] eqn:Hres.
  2:{ exfalso. unfold instantiate_target, bind in Hev.
      rewrite cache_lookup_eq, Hm in Hev. unfold _resolve_target in Hev.
      rewrite Htv, Hres in Hev. destruct tv; discriminate. }
  rewrite (instantiate_target_miss resolve joblib_hash _ node entries args
             _ rec cache s Hm Htv Hres) in Hev.
  pose proof (@instantiate_kwargs_trace entries
                (effective_convert entries convert) (VBool rec) cache rec
                (effective_convert entries convert) ([], []) s s
                (trace_inv_refl s _)) as Htr.
  unfold hoare in Htr.
  destruct (instantiate_kwargs _ rec _ entries ([], []) s)
    as [[[kwargs infos]|e] s_k] eqn:Hk; [|discriminate].
  destruct Htr as (evs & Hlog & _ & Hwithin & _).
  assert (Hnot : forall a k o, ~ In (ECall node a k o) evs).
  { intros a k o Hc. rewrite Forall_forall in Hwithin.
    apply Hwithin in Hc. simpl in Hc.
    pose proof (size_positive node). fold node in Hc. lia. }
  simpl in Hev. rewrite substitute_lookup_eq in Hev.
  remember (from_func (target_attr target) (own_cache_result entries))
    as ti eqn:Hti_def.
  assert (Hfin :
    forall key ri,
      (not_deterministic ti = true -> ri = None /\ key = node) ->
      (not_deterministic ti = false ->
       exists i0, ri = Some i0 /\
         combine infos (Some node) (Some ti) None = Ok i0 /\
         key = cache_key_of node i0 /\
         forall d, deterministic_config i0 = Some d ->
           (if cache then InMemoryCache.getitem (st_store s_k) d else None)
           = None) ->
      call_and_store joblib_hash node target ti args kwargs infos cache
        key ri s_k = (Ok (mkNode v i), s1) ->
      computed resolve joblib_hash entries args convert recursive cache s
               kw v i s1).
  { intros key ri Hnd Hdet Hc. rewrite call_and_store_eq in Hc.
    destruct (call_body target args kwargs (st_world s_k))
      as [[v' t|p] w] eqn:Hcall; [|discriminate].
    simpl in Hc.
    destruct (complete_info joblib_hash ti infos ri v' t) as [i'|e] eqn:Hci;
      [|discriminate].
    injection Hc as -> -> <-.
    assert (Hkw : kw = kwargs).
    { destruct (stored_log cache node key (mkNode v i)
                  (after_call s_k node args kwargs (Returned v t) w))
        as (stores & Hst & Hstores).
      rewrite (new_events_app s _ (evs ++ ECall node args kwargs (Returned v t) :: stores)) in Hin.
      2:{ rewrite Hst. simpl. rewrite Hlog, <- !app_assoc. reflexivity. }
      apply in_app_or in Hin. destruct Hin as [Hin|[Hin|Hin]].
      - exfalso. eapply Hnot. exact Hin.
      - congruence.
      - exfalso. rewrite Forall_forall in Hstores. apply Hstores in Hin.
        exact Hin. }
    subst kw.
    unfold complete_info in Hci.
    destruct (not_deterministic ti) eqn:Hti.
    - destruct (Hnd eq_refl) as [-> ->].
      destruct (combine infos None (Some ti) _) as [i0|] eqn:Hcomb;
        [|discriminate].
      injection Hci as <-.
      exists rec, tv, target, infos, s_k, t, w, i0.
      cbv zeta. fold node. rewrite <- Hti_def, Hti.
      repeat split; try assumption; try reflexivity; try discriminate.
      unfold cache_key_of. simpl.
      replace (not_deterministic i0) with true; [reflexivity|].
      unfold combine in Hcomb. injection Hcomb as <-. simpl. symmetry. exact Hti.
    - destruct (Hdet eq_refl) as (i0 & -> & Hcomb & -> & Hmiss).
      injection Hci as <-.
      exists rec, tv, target, infos, s_k, t, w, i0.
      cbv zeta. fold node. rewrite <- Hti_def, Hti.
      repeat split; try assumption; try reflexivity.
      + intros _. exact Hmiss. }
  destruct (not_deterministic ti) eqn:Hti.
  - apply (Hfin node None); auto; discriminate.
  - destruct (combine infos (Some node) (Some ti) None) as [ri|e] eqn:Hcomb;
      [|discriminate].
    assert (Hndri : not_deterministic ri = false).
    { unfold combine in Hcomb.
      destruct (combine_substitute node infos None); [|discriminate].
      injection Hcomb as <-. exact Hti. }
    destruct (deterministic_config ri) as [d|] eqn:Hd.
    + destruct (if cache then InMemoryCache.getitem (st_store s_k) d else None)
        as [n|] eqn:Hm2.
      * exfalso. injection Hev as _ <-.
        rewrite (new_events_app s s_k evs Hlog) in Hin.
        eapply Hnot. exact Hin.
      * apply (Hfin d (Some ri)); [discriminate| |exact Hev].
        intros _. exists ri.
        split; [reflexivity|]. split; [reflexivity|]. split.
        -- unfold cache_key_of. rewrite Hndri, Hd. reflexivity.
        -- intros d' Hd'. rewrite Hd in Hd'. injection Hd' as <-. exact Hm2.
    + apply (Hfin node (Some ri)); [discriminate| |exact Hev].
      intros _. exists ri.
      split; [reflexivity|]. split; [reflexivity|]. split.
      * unfold cache_key_of. rewrite Hndri, Hd. reflexivity.
      * intros d' Hd'. rewrite Hd in Hd'. discriminate.
Qed.

(** Conversely, these steps make up the evaluation. *)
Lemma computed_run :
  forall entries args convert recursive cache s kw v i s1,
    computed resolve joblib_hash entries args convert recursive cache s
             kw v i s1 ->
    instantiate_node resolve joblib_hash (VDictConfig entries) args convert recursive cache s
    = (Ok (mkNode v i), s1).
Proof.
  intros entries args convert recursive cache s kw v i s1
    (rec & tv & target & infos & s_k & t & w & i0 & Hr & Hm & Htv & Hres
     & Hk & Hcall & Hcomb & -> & Hmiss & ->).
  assert (Ht : _is_target entries = true).
  { unfold _is_target, str_contains. rewrite dict_contains_get.
    unfold str_get in Htv. rewrite Htv. reflexivity. }
  rewrite (instantiate_node_target_eq resolve joblib_hash entries args
             convert recursive cache Hr Ht).
  rewrite (instantiate_target_miss resolve joblib_hash _ _ entries args
             _ rec cache s Hm Htv Hres).
  rewrite Hk. simpl. rewrite substitute_lookup_eq.
  remember (from_func (target_attr target) (own_cache_result entries))
    as ti eqn:Hti_def.
  cbv zeta in Hcomb, Hmiss.
  destruct (not_deterministic ti) eqn:Hti.
  - rewrite call_and_store_eq, Hcall. cbv zeta.
    unfold complete_info. rewrite Hcomb.
    replace (cache_key_of (VDictConfig entries) (set_time_target i0 t))
      with (VDictConfig entries); [reflexivity|].
    unfold cache_key_of. simpl.
    replace (not_deterministic i0) with true; [reflexivity|].
    unfold combine in Hcomb. injection Hcomb as <-. simpl. symmetry. exact Hti.
  - rewrite Hcomb.
    assert (Hndi : not_deterministic i0 = false).
    { unfold combine in Hcomb.
      destruct (combine_substitute _ infos None); [|discriminate].
      injection Hcomb as <-. exact Hti. }
    specialize (Hmiss eq_refl).
    unfold cache_key_of. simpl. rewrite Hndi.
    destruct (deterministic_config i0) as [d|] eqn:Hd.
    + rewrite (Hmiss d eq_refl).
      rewrite call_and_store_eq, Hcall. reflexivity.
    + rewrite call_and_store_eq, Hcall. reflexivity.
Qed.
End Computed.


(* ================================================================= *)
(** ** Cache hits *)

Section CacheHit.
Variable World : Type.
Variable resolve : Value -> option (Target World).
Variable joblib_hash : Value -> string.
Implicit Types s : State World.

Lemma count_calls_app :
  forall node evs1 evs2,
    count_calls node (evs1 ++ evs2)
    = count_calls node evs1 + count_calls node evs2.
Proof.
  intros. unfold count_calls. rewrite filter_app, length_app. reflexivity.
Qed.

Lemma count_calls_within :
  forall node evs,
    Forall (event_within (size node - 1)) evs -> count_calls node evs = 0.
Proof.
  intros node evs H. unfold count_calls.
  induction H as [|ev evs Hev Hevs IH]; simpl; [reflexivity|].
  destruct ev as [n a k o|k v]; [|exact IH].
  destruct (Value_eqb n node) eqn:En; [|exact IH].
  apply Value_eqb_eq in En. subst n. simpl in Hev.
  pose proof (size_positive node). lia.
Qed.

Lemma count_calls_stores :
  forall node evs,
    Forall (fun ev => match ev with EStore _ _ => True | _ => False end) evs ->
    count_calls node evs = 0.
Proof.
  intros node evs H. unfold count_calls.
  induction H as [|ev evs Hev Hevs IH]; simpl; [reflexivity|].
  destruct ev; [contradiction | exact IH].
Qed.

(** A computed result comes from one call of the target of the node. *)
Lemma computed_count :
  forall entries args convert recursive cache s kw v i s1,
    computed resolve joblib_hash entries args convert recursive cache s
             kw v i s1 ->
    count_calls (VDictConfig entries) (new_events s s1) = 1.
Proof.
  intros entries args convert recursive cache s kw v i s1
    (rec & tv & target & infos & s_k & t & w & i0 & Hr & Hm & Htv & Hres
     & Hk & Hcall & Hcomb & -> & Hmiss & ->).
  pose proof (@instantiate_kwargs_trace World resolve joblib_hash entries
                (effective_convert entries convert) (VBool rec) cache rec
                (effective_convert entries convert) ([], []) s s
                (trace_inv_refl s _)) as Htr.
  unfold hoare in Htr. rewrite Hk in Htr.
  destruct Htr as (evs & Hlog & _ & Hwithin & _).
  destruct (stored_log World cache (VDictConfig entries)
              (cache_key_of (VDictConfig entries) (set_time_target i0 t))
              (mkNode v (set_time_target i0 t))
              (after_call s_k (VDictConfig entries) args kw (Returned v t) w))
    as (stores & Hst & Hstores).
  rewrite (new_events_app World s _
             (evs ++ ECall (VDictConfig entries) args kw (Returned v t)
                  :: stores)).
  2:{ rewrite Hst. simpl. rewrite Hlog, <- !app_assoc. reflexivity. }
  rewrite count_calls_app, (count_calls_within _ _ Hwithin).
  change (ECall (VDictConfig entries) args kw (Returned v t) :: stores)
    with ([ECall (VDictConfig entries) args kw (Returned v t)] ++ stores).
  rewrite count_calls_app, (count_calls_stores _ _ Hstores).
  unfold count_calls. cbn [filter]. rewrite Value_eqb_refl. reflexivity.
Qed.

(** The entry of the node after the result was computed and stored. *)
Lemma computed_stored_node :
  forall entries args convert recursive s kw v i s1,
    computed resolve joblib_hash entries args convert recursive true s
             kw v i s1 ->
    cache_result i = true ->
    InMemoryCache.key_matches (cache_key_of (VDictConfig entries) i)
      (VDictConfig entries) = true \/
    config_eqb (cache_key_of (VDictConfig entries) i) (VDictConfig entries)
    = false ->
    InMemoryCache.getitem (st_store s1) (VDictConfig entries)
    = Some (mkNode v
              (if config_eqb (cache_key_of (VDictConfig entries) i)
                             (VDictConfig entries)
               then i else set_not_deterministic i true)).
Proof.
  intros entries args convert recursive s kw v i s1
    (rec & tv & target & infos & s_k & t & w & i0 & Hr & Hm & Htv & Hres
     & Hk & Hcall & Hcomb & -> & Hmiss & ->) Hcr Hkey.
  unfold stored. cbn [info instance andb]. rewrite Hcr.
  destruct (config_eqb _ (VDictConfig entries)) eqn:Ek; cbn [negb st_store after_store].
  - destruct Hkey as [Hkey | Hkey]; [|discriminate].
    rewrite getitem_setitem, Hkey. reflexivity.
  - rewrite getitem_setitem_same. reflexivity.
Qed.


Lemma instantiate_node_hit :
  forall entries args convert recursive rec s n,
    _is_target entries = true ->
    effective_recursive entries recursive = VBool rec ->
    InMemoryCache.getitem (st_store s) (VDictConfig entries) = Some n ->
    instantiate_node resolve joblib_hash (VDictConfig entries) args convert
      recursive true s = (Ok n, s).
Proof.
  intros entries args convert recursive rec s n Ht Hr Hn.
  rewrite (instantiate_node_target_eq resolve joblib_hash entries args
             convert recursive true Hr Ht).
  apply instantiate_target_hit. exact Hn.
Qed.

(** C1 (as amended).  A node with target that is a key of the active
    cache is returned as stored: nothing else happens, the state
    (cache, world, log of calls) is unchanged.  Consequently, when an
    evaluation of the node called the target of the node and returned a
    result whose [cache_result] is true, the next evaluation against the
    same cache returns the same value without any call, so that the
    target of the node was called once in both evaluations together;
    the info is the same, except that [not_deterministic] is forced to
    true when the result was stored under a deterministic substitute.
    The result is found again under the node because it was stored
    under the node, under a key with the hash of the node, or, with
    the forced flag, under the node beside a substitute that is
    different from the node. *)
Theorem C1_cache_hit_idempotent :
  forall entries args convert recursive s,
    _is_target entries = true ->
    (forall rec n,
        effective_recursive entries recursive = VBool rec ->
        InMemoryCache.getitem (st_store s) (VDictConfig entries) = Some n ->
        instantiate_node resolve joblib_hash (VDictConfig entries) args
          convert recursive true s = (Ok n, s))
    /\
    (forall kw out v i s1,
        instantiate_node resolve joblib_hash (VDictConfig entries) args
          convert recursive true s = (Ok (mkNode v i), s1) ->
        In (ECall (VDictConfig entries) args kw out) (new_events s s1) ->
        cache_result i = true ->
        InMemoryCache.key_matches (cache_key_of (VDictConfig entries) i)
          (VDictConfig entries) = true \/
        config_eqb (cache_key_of (VDictConfig entries) i)
          (VDictConfig entries) = false ->
        exists i',
          instantiate_node resolve joblib_hash (VDictConfig entries) args
            convert recursive true s1 = (Ok (mkNode v i'), s1) /\
          (i' = i \/
           i' = set_not_deterministic i true /\
           not_deterministic i = false /\ deterministic_config i <> None) /\
          count_calls (VDictConfig entries)
            (new_events s s1 ++ new_events s1 s1) = 1).
Proof.
  intros entries args convert recursive s Ht. split.
  - intros rec n Hr Hn. eapply instantiate_node_hit; eassumption.
  - intros kw out v i s1 Hev Hin Hcr Hkey.
    pose proof (computed_inv World resolve joblib_hash entries args convert
                  recursive true s v i s1 kw out Ht Hev Hin) as Hc.
    pose proof (computed_stored_node _ _ _ _ _ _ _ _ _ Hc Hcr Hkey) as Hst.
    pose proof (computed_count _ _ _ _ _ _ _ _ _ _ Hc) as Hcount.
    destruct Hc as (rec & _ & _ & _ & _ & _ & _ & _ & Hr & _).
    eexists. split; [|split].
    + eapply instantiate_node_hit; eassumption.
    + unfold cache_key_of.
      destruct (not_deterministic i) eqn:Hnd.
      * left. rewrite config_eqb_refl. reflexivity.
      * destruct (deterministic_config i) as [d|] eqn:Hd.
        -- destruct (config_eqb d (VDictConfig entries));
             [left; reflexivity | right].
           split; [reflexivity|]. split; [reflexivity | discriminate].
        -- left. rewrite config_eqb_refl. reflexivity.
    + rewrite new_events_refl, app_nil_r. exact Hcount.
Qed.
End CacheHit.



(** C1, witness: the consumer of a random source, evaluated twice. *)
Lemma C1_witness :
  let entries :=
    [("_target_", VStr "consumer"); ("x", Bench.call "random_source" [])] in
  let s := Bench.fresh [7%Z] in
  let i := info (Bench.returned (Bench.run (VDictConfig entries) s)) in
  let s1 := snd (Bench.run (VDictConfig entries) s) in
  Bench.run (VDictConfig entries) s = (Ok (mkNode (VInt 14) i), s1) /\
  exists i',
    Bench.run (VDictConfig entries) s1 = (Ok (mkNode (VInt 14) i'), s1) /\
    (i' = i \/
     i' = set_not_deterministic i true /\
     not_deterministic i = false /\ deterministic_config i <> None) /\
    count_calls (VDictConfig entries) (new_events s s1 ++ new_events s1 s1) = 1.
Proof.
  intros entries s i s1.
  destruct (C1_cache_hit_idempotent Bench.World Bench.resolve
              Bench.joblib_hash entries [] (VStr "none") (VBool true) s
              eq_refl) as [_ H].
  split; [vm_compute; reflexivity|].
  apply (H [("x", VInt 7)] (Returned (VInt 14) 9) (VInt 14) i s1).
  - vm_compute. reflexivity.
  - find_event.
  - reflexivity.
  - right. vm_compute. reflexivity.
Defined.

(** C1 as stated fails: a node with [_cache_result_: false] is computed
    by both evaluations (two calls of its target), and the second
    evaluation of a consumer of a random source returns an info that
    differs from the first one. *)
Lemma C1_counterexample :
  (exists r1 s1 r2 s2,
      Bench.run Examples.uncached_sum (Bench.fresh []) = (Ok r1, s1) /\
      Bench.run Examples.uncached_sum s1 = (Ok r2, s2) /\
      count_calls Examples.uncached_sum (st_log s2) = 2) /\
  (exists r1 s1 r2 s2,
      Bench.run Examples.consumer_of_random (Bench.fresh [7%Z]) = (Ok r1, s1) /\
      Bench.run Examples.consumer_of_random s1 = (Ok r2, s2) /\
      not_deterministic (info r1) = false /\
      not_deterministic (info r2) = true).
Proof.
  split.
  - do 4 eexists. split; [vm_compute; reflexivity|].
    split; [vm_compute; reflexivity|]. vm_compute. reflexivity.
  - do 4 eexists. split; [vm_compute; reflexivity|].
    split; [vm_compute; reflexivity|]. split; reflexivity.
Qed.

(* ================================================================= *)
(** ** The entries written for a computed result *)

Section CacheWrite.
Variable World : Type.
Variable resolve : Value -> option (Target World).
Variable joblib_hash : Value -> string.
Implicit Types s : State World.

(** The events of an evaluation that computed its result: those of the
    arguments, the call, the stores. *)
Lemma computed_events :
  forall entries args convert recursive cache s kw v i s1,
    computed resolve joblib_hash entries args convert recursive cache s
             kw v i s1 ->
    exists evs s_k t w,
      st_log s_k = st_log s ++ evs /\
      st_store s_k = replay evs (st_store s) /\
      Forall (event_within (size (VDictConfig entries) - 1)) evs /\
      s1 = stored cache (VDictConfig entries)
             (cache_key_of (VDictConfig entries) i) (mkNode v i)
             (after_call s_k (VDictConfig entries) args kw (Returned v t) w).
Proof.
  intros entries args convert recursive cache s kw v i s1
    (rec & tv & target & infos & s_k & t & w & i0 & Hr & Hm & Htv & Hres
     & Hk & Hcall & Hcomb & -> & Hmiss & ->).
  pose proof (instantiate_kwargs_trace World resolve joblib_hash entries
                (effective_convert entries convert) (VBool rec) cache rec
                (effective_convert entries convert) ([], []) s s
                (trace_inv_refl s _)) as Htr.
  unfold hoare in Htr. rewrite Hk in Htr.
  destruct Htr as (evs & Hlog & Hstore & Hwithin & _).
  exists evs, s_k, t, w. repeat split; assumption.
Qed.

(** C3 (as amended).  When an evaluation with an active cache computed
    the result of a node with target, the combined [cache_result] is
    true and the deterministic substitute of the result differs from the
    node, the entries written after the call depend on the target of the
    node.  For a target that is deterministic, the substitute is the
    cache key and two entries are written, with the same value: the one
    under the substitute stores the info of the result as it is, the
    one under the node itself stores it with [not_deterministic] forced
    to true.  For a target that is not deterministic, the substitute is
    the placeholder of the result and the cache key is the node: one
    entry is written, under the node, with the info of the result as it
    is, and nothing under the substitute. *)
Theorem C3_two_entries :
  forall entries args convert recursive s kw out v i s1 d,
    _is_target entries = true ->
    instantiate_node resolve joblib_hash (VDictConfig entries) args convert
      recursive true s = (Ok (mkNode v i), s1) ->
    In (ECall (VDictConfig entries) args kw out) (new_events s s1) ->
    cache_result i = true ->
    deterministic_config i = Some d ->
    config_eqb d (VDictConfig entries) = false ->
    (not_deterministic i = false ->
     InMemoryCache.getitem (st_store s1) d = Some (mkNode v i) /\
     InMemoryCache.getitem (st_store s1) (VDictConfig entries)
     = Some (mkNode v (set_not_deterministic i true)) /\
     exists evs,
       new_events s s1
       = evs ++ [ECall (VDictConfig entries) args kw out;
                 EStore d (mkNode v i);
                 EStore (VDictConfig entries)
                   (mkNode v (set_not_deterministic i true))]) /\
    (not_deterministic i = true ->
     d = result_hash_config (joblib_hash v) /\
     InMemoryCache.getitem (st_store s1) (VDictConfig entries)
     = Some (mkNode v i) /\
     exists evs,
       new_events s s1
       = evs ++ [ECall (VDictConfig entries) args kw out;
                 EStore (VDictConfig entries) (mkNode v i)]).
Proof.
  intros entries args convert recursive s kw out v i s1 d Ht Hev Hin Hcr
    Hd Hne.
  pose proof (computed_inv World resolve joblib_hash entries args convert
                recursive true s v i s1 kw out Ht Hev Hin) as Hc.
  destruct (computed_events _ _ _ _ _ _ _ _ _ _ Hc)
    as (evs & s_k & t & w & Hlog & _ & Hwithin & Hs1).
  assert (Hout :
    forall stores,
      st_log s1
      = st_log s ++ evs
        ++ ECall (VDictConfig entries) args kw (Returned v t) :: stores ->
      Forall (fun ev => match ev with EStore _ _ => True | _ => False end)
             stores ->
      out = Returned v t).
  { intros stores Hl Hst.
    rewrite (new_events_app World s s1 _ Hl) in Hin.
    apply in_app_or in Hin. destruct Hin as [Hin|[Hin|Hin]].
    - exfalso. rewrite Forall_forall in Hwithin. apply Hwithin in Hin.
      simpl in Hin. pose proof (size_positive (VDictConfig entries)).
      simpl in H. lia.
    - congruence.
    - exfalso. rewrite Forall_forall in Hst. exact (Hst _ Hin). }
  unfold stored in Hs1. cbn [info instance andb] in Hs1. rewrite Hcr in Hs1.
  split.
  - intros Hnd.
    assert (Hkey : cache_key_of (VDictConfig entries) i = d).
    { unfold cache_key_of. rewrite Hnd, Hd. reflexivity. }
    rewrite Hkey, Hne in Hs1. cbn [negb] in Hs1.
    assert (Hl : st_log s1
                 = st_log s ++ evs
                   ++ ECall (VDictConfig entries) args kw (Returned v t)
                      :: [EStore d (mkNode v i);
                          EStore (VDictConfig entries)
                            (mkNode v (set_not_deterministic i true))]).
    { rewrite Hs1. simpl. rewrite Hlog, <- !app_assoc. reflexivity. }
    rewrite (Hout _ Hl) by (repeat constructor).
    split; [|split].
    + rewrite Hs1. cbn [st_store after_store after_call].
      rewrite getitem_setitem_other by (rewrite config_eqb_sym; exact Hne).
      apply getitem_setitem_same.
    + rewrite Hs1. apply getitem_setitem_same.
    + exists evs. apply new_events_app. exact Hl.
  - intros Hnd.
    assert (Hkey : cache_key_of (VDictConfig entries) i = VDictConfig entries).
    { unfold cache_key_of. rewrite Hnd. reflexivity. }
    rewrite Hkey, config_eqb_refl in Hs1. cbn [negb] in Hs1.
    assert (Hl : st_log s1
                 = st_log s ++ evs
                   ++ ECall (VDictConfig entries) args kw (Returned v t)
                      :: [EStore (VDictConfig entries) (mkNode v i)]).
    { rewrite Hs1. simpl. rewrite Hlog, <- !app_assoc. reflexivity. }
    rewrite (Hout _ Hl) by (repeat constructor).
    split; [|split].
    + destruct Hc as (rec & tv & target & infos & s_k' & t' & w' & i0 & _ & _
                      & _ & _ & _ & _ & Hcomb & -> & _).
      cbv zeta in Hcomb. cbn [not_deterministic set_time_target] in Hnd.
      cbn [deterministic_config set_time_target] in Hd.
      destruct (not_deterministic (from_func _ _)) eqn:E.
      * unfold combine in Hcomb. injection Hcomb as <-.
        simpl in Hd. injection Hd as <-. reflexivity.
      * unfold combine in Hcomb.
        destruct (combine_substitute _ infos None); [|discriminate].
        injection Hcomb as <-. unfold from_func, from_func_info in E.
        cbn [not_deterministic] in E, Hnd. rewrite E in Hnd. discriminate.
    + rewrite Hs1. apply getitem_setitem_same.
    + exists evs. apply new_events_app. exact Hl.
Qed.
End CacheWrite.

(** C3, witness: the two entries of the consumer of a random source and
    the one entry of the random source itself. *)
Lemma C3_witness :
  let entries :=
    [("_target_", VStr "consumer"); ("x", Bench.call "random_source" [])] in
  let s := Bench.fresh [7%Z] in
  let i := info (Bench.returned (Bench.run (VDictConfig entries) s)) in
  let s1 := snd (Bench.run (VDictConfig entries) s) in
  let d :=
    VDictConfig
      [("_target_", VStr "consumer");
       ("x", result_hash_config (Bench.joblib_hash (VInt 7)))] in
  let source := Bench.call "random_source" [] in
  let i0 := info (Bench.returned (Bench.run source s)) in
  let s0 := snd (Bench.run source s) in
  (InMemoryCache.getitem (st_store s1) d = Some (mkNode (VInt 14) i) /\
   InMemoryCache.getitem (st_store s1) (VDictConfig entries)
   = Some (mkNode (VInt 14) (set_not_deterministic i true)) /\
   exists evs,
     new_events s s1
     = evs ++ [ECall (VDictConfig entries) [] [("x", VInt 7)]
                     (Returned (VInt 14) 9);
               EStore d (mkNode (VInt 14) i);
               EStore (VDictConfig entries)
                 (mkNode (VInt 14) (set_not_deterministic i true))]) /\
  (result_hash_config (Bench.joblib_hash (VInt 7))
   = result_hash_config (Bench.joblib_hash (VInt 7)) /\
   InMemoryCache.getitem (st_store s0) source = Some (mkNode (VInt 7) i0) /\
   exists evs,
     new_events s s0
     = evs ++ [ECall source [] [] (Returned (VInt 7) 3);
               EStore source (mkNode (VInt 7) i0)]).
Proof.
  intros entries s i s1 d source i0 s0. split.
  - apply (proj1 (C3_two_entries Bench.World Bench.resolve Bench.joblib_hash
                    entries [] (VStr "none") (VBool true) s [("x", VInt 7)]
                    (Returned (VInt 14) 9) (VInt 14) i s1 d eq_refl
                    ltac:(vm_compute; reflexivity) ltac:(find_event) eq_refl
                    eq_refl ltac:(vm_compute; reflexivity))).
    reflexivity.
  - apply (proj2 (C3_two_entries Bench.World Bench.resolve Bench.joblib_hash
                    [("_target_", VStr "random_source")] [] (VStr "none")
                    (VBool true) s [] (Returned (VInt 7) 3) (VInt 7) i0 s0
                    (result_hash_config (Bench.joblib_hash (VInt 7))) eq_refl
                    ltac:(vm_compute; reflexivity) ltac:(find_event) eq_refl
                    eq_refl ltac:(vm_compute; reflexivity))).
    reflexivity.
Defined.

(** C3 as stated fails.  For the consumer of a random source, the entry
    under the node itself does not store the info of the result as it is
    (its [not_deterministic] is true, the one of the result is false), and
    the entry under the substitute is not marked.  For the random source
    itself, whose substitute, the placeholder of its result, differs from
    the node, there is no second entry: nothing is stored under the
    substitute. *)
Lemma C3_counterexample :
  let node := Examples.consumer_of_random in
  let d :=
    VDictConfig
      [("_target_", VStr "consumer");
       ("x", result_hash_config (Bench.joblib_hash (VInt 7)))] in
  let source := Bench.call "random_source" [] in
  (exists v i s1 i_node i_subst,
      Bench.run node (Bench.fresh [7%Z]) = (Ok (mkNode v i), s1) /\
      cache_result i = true /\
      deterministic_config i = Some d /\
      config_eqb d node = false /\
      InMemoryCache.getitem (st_store s1) node = Some (mkNode v i_node) /\
      InMemoryCache.getitem (st_store s1) d = Some (mkNode v i_subst) /\
      i_node <> i /\
      not_deterministic i_subst = false) /\
  (exists v i s1 h,
      Bench.run source (Bench.fresh [7%Z]) = (Ok (mkNode v i), s1) /\
      cache_result i = true /\
      deterministic_config i = Some h /\
      config_eqb h source = false /\
      List.length (st_store s1) = 1 /\
      InMemoryCache.getitem (st_store s1) h = None).
Proof.
  split.
  - do 5 eexists.
    split; [vm_compute; reflexivity|].
    split; [reflexivity|]. split; [reflexivity|].
    split; [vm_compute; reflexivity|].
    split; [vm_compute; reflexivity|].
    split; [vm_compute; reflexivity|].
    split; [discriminate | reflexivity].
  - do 4 eexists.
    split; [vm_compute; reflexivity|].
    split; [reflexivity|]. split; [reflexivity|].
    split; vm_compute; auto.
Qed.

(* ================================================================= *)
(** ** Propagation of [cache_result] *)


Section CacheResult.
Variable World : Type.
Variable resolve : Value -> option (Target World).
Variable joblib_hash : Value -> string.
Implicit Types s : State World.

End CacheResult.




(* ================================================================= *)
(** ** Nodes whose arguments are not instantiated *)

Section NotRecursive.
Variable World : Type.
Variable resolve : Value -> option (Target World).
Variable joblib_hash : Value -> string.
Implicit Types s : State World.

(** With [_recursive_] false no argument is evaluated and no info is
    collected. *)
Lemma instantiate_kwargs_raw :
  forall (rec_call : Value -> M World InstantiatedNode) convert entries acc s,
    instantiate_kwargs rec_call false convert entries acc s
    = (Ok (raw_kwargs convert entries (fst acc), snd acc), s).
Proof.
  intros rec_call convert entries.
  induction entries as [|[key value] entries IH]; intros [kwargs infos] s.
  - reflexivity.
  - simpl. destruct (excluded key); rewrite IH; reflexivity.
Qed.

(** C10 (as amended).  A node with target whose effective
    [_recursive_] flag is false, not found in the cache, is computed
    without evaluating any argument: the target is called in the state
    of the start with the entries as they are, no info of a child is
    collected, so that the info of the result has the [cache_result] of
    the flag [_cache_result_] of the node alone and a deterministic
    substitute that is absent when the target is deterministic and is
    the placeholder with the hash of the result when it is not; the
    result is stored under the node itself, if and only if that flag is
    true. *)
Theorem C10_not_recursive :
  forall entries args convert recursive (cache : bool) s tv target v t w,
    effective_recursive entries recursive = VBool false ->
    (if cache
     then InMemoryCache.getitem (st_store s) (VDictConfig entries)
     else None) = None ->
    str_get "_target_" entries = Some tv ->
    resolve tv = Some target ->
    call_body target args
      (raw_kwargs (effective_convert entries convert) entries [])
      (st_world s) = (Returned v t, w) ->
    let nd := fi_not_deterministic (FuncInfo_from_func (target_attr target)) in
    let i :=
      {| not_deterministic := nd;
         cache_result := own_cache_result entries;
         deterministic_config :=
           if nd then Some (result_hash_config (joblib_hash v)) else None;
         time_target := Some t |} in
    instantiate_node resolve joblib_hash (VDictConfig entries) args convert
      recursive cache s
    = (Ok (mkNode v i),
       stored cache (VDictConfig entries) (VDictConfig entries) (mkNode v i)
         (after_call s (VDictConfig entries) args
            (raw_kwargs (effective_convert entries convert) entries [])
            (Returned v t) w)).
Proof.
  intros entries args convert recursive cache s tv target v t w Hr Hm Htv
    Hres Hcall nd i.
  assert (Hkey : cache_key_of (VDictConfig entries) i = VDictConfig entries).
  { unfold cache_key_of, i. simpl. destruct nd; reflexivity. }
  apply (computed_run World resolve joblib_hash entries args convert
           recursive cache s
           (raw_kwargs (effective_convert entries convert) entries [])).
  exists false, tv, target, [], s, t, w.
  exists {| not_deterministic := nd;
            cache_result := own_cache_result entries;
            deterministic_config :=
              if nd then Some (result_hash_config (joblib_hash v)) else None;
            time_target := None |}.
  split; [exact Hr|]. split; [exact Hm|]. split; [exact Htv|].
  split; [exact Hres|]. split; [apply instantiate_kwargs_raw|].
  split; [exact Hcall|]. cbv zeta. split; [|split; [reflexivity|split]].
  - unfold combine, from_func, from_func_info. cbn [not_deterministic].
    fold nd. destruct nd; simpl; rewrite Bool.andb_true_r; reflexivity.
  - intros Hnd d Hd. unfold from_func, from_func_info in Hnd.
    cbn [not_deterministic] in Hnd. fold nd in Hnd. rewrite Hnd in Hd.
    discriminate.
  - change (set_time_target _ t) with i. rewrite Hkey. reflexivity.
Qed.
End NotRecursive.

(** C10, witness: a sum that takes its arguments as they are. *)
Lemma C10_witness :
  let entries :=
    [("_target_", VStr "add"); ("_recursive_", VBool false);
     ("a", VInt 1);
     ("b", Bench.call "random_source" [("_cache_result_", VBool false)])] in
  let s := Bench.fresh [7%Z] in
  let kwargs :=
    [("a", VInt 1);
     ("b", Bench.call "random_source" [("_cache_result_", VBool false)])] in
  let i :=
    {| not_deterministic := false; cache_result := true;
       deterministic_config := None; time_target := Some 5%Z |} in
  Bench.run (VDictConfig entries) s
  = (Ok (mkNode (VInt 1) i),
     stored true (VDictConfig entries) (VDictConfig entries)
       (mkNode (VInt 1) i)
       (after_call s (VDictConfig entries) [] kwargs
          (Returned (VInt 1) 5) [7%Z])).
Proof.
  intros entries s kwargs i.
  apply (C10_not_recursive Bench.World Bench.resolve Bench.joblib_hash
           entries [] (VStr "none") (VBool true) true s (VStr "add")
           Bench.add (VInt 1) 5%Z [7%Z]); reflexivity.
Defined.

(** C10 as stated fails: a random source with [_recursive_: false]
    returns an info with a deterministic substitute. *)
Lemma C10_counterexample :
  let entries :=
    [("_target_", VStr "random_source"); ("_recursive_", VBool false)] in
  exists v i s1,
    effective_recursive entries (VBool true) = VBool false /\
    Bench.run (VDictConfig entries) (Bench.fresh [7%Z])
    = (Ok (mkNode v i), s1) /\
    deterministic_config i <> None.
Proof.
  do 3 eexists. split; [reflexivity|].
  split; [vm_compute; reflexivity | discriminate].
Qed.

(* ================================================================= *)
(** ** Determinism is not inherited *)

Lemma combine_not_deterministic :
  forall infos parent_config target_info det_config i,
    combine infos parent_config target_info det_config = Ok i ->
    not_deterministic i
    = match target_info with
      | Some t => not_deterministic t
      | None => false
      end.
Proof.
  intros infos parent_config target_info det_config i H. unfold combine in H.
  destruct (match det_config with Some d => Ok (Some d) | None => _ end);
    [|discriminate].
  injection H as <-. reflexivity.
Qed.

Lemma combine_substitute_absent :
  forall parent infos acc,
    Forall (fun ki => deterministic_config (snd ki) = None) infos ->
    combine_substitute parent infos acc = Ok acc.
Proof.
  intros parent infos acc H. revert acc.
  induction H as [|[k i] infos Hi Hinfos IH]; intros acc; simpl.
  - reflexivity.
  - simpl in Hi. rewrite Hi. apply IH.
Qed.

Lemma combine_deterministic_info :
  forall infos node target_info i,
    Forall (fun ki => deterministic_info (snd ki)) infos ->
    match target_info with
    | Some t => not_deterministic t = false
    | None => True
    end ->
    combine infos (Some node) target_info None = Ok i ->
    deterministic_info i.
Proof.
  intros infos node target_info i Hinfos Ht H.
  split.
  - rewrite (combine_not_deterministic _ _ _ _ _ H).
    destruct target_info; [exact Ht | reflexivity].
  - unfold combine in H. rewrite combine_substitute_absent in H.
    + injection H as <-. reflexivity.
    + eapply Forall_impl; [|exact Hinfos]. intros ki [_ Hd]. exact Hd.
Qed.

Section Determinism.
Variable World : Type.
Variable resolve : Value -> option (Target World).
Variable joblib_hash : Value -> string.
Implicit Types s : State World.

Lemma target_info_not_deterministic :
  forall tv target c,
    resolve tv = Some target ->
    not_deterministic (from_func (target_attr target) c)
    = target_not_deterministic resolve tv.
Proof.
  intros tv target c H. unfold target_not_deterministic. rewrite H.
  unfold from_func, FuncInfo_from_func.
  destruct (target_attr target); reflexivity.
Qed.

(** The evaluation of a deterministic tree against a cache with
    deterministic infos only. *)
Lemma deterministic_tree_rule :
  forall node args convert recursive cache s,
    deterministic_tree resolve node = true ->
    Forall (fun kv => deterministic_info (info (snd kv))) (st_store s) ->
    hoare (instantiate_node resolve joblib_hash node args convert recursive
             cache) s
      (fun n s' =>
         Forall (fun kv => deterministic_info (info (snd kv))) (st_store s')
         /\ deterministic_info (info n))
      (fun _ _ => True).
Proof.
  intros node args convert recursive cache s Hgood Hs.
  apply (@engine_rule World resolve joblib_hash
           (fun s =>
              Forall (fun kv => deterministic_info (info (snd kv)))
                     (st_store s))
           (fun v => deterministic_tree resolve v = true)
           deterministic_info (fun _ _ => True)); auto.
  - intros l Hl. simpl in Hl. rewrite forallb_forall in Hl.
    apply Forall_forall. exact Hl.
  - intros d Hd. simpl in Hd. apply andb_true_iff in Hd.
    destruct Hd as [_ Hd]. rewrite forallb_forall in Hd.
    apply Forall_forall. intros [k x] Hin. apply (Hd (k, x) Hin).
  - split; reflexivity.
  - intros nd infos i _ Hinfos Hc.
    apply (combine_deterministic_info infos nd None i Hinfos I Hc).
  - intros d tv target infos i t _ _ _ Hnd Hinfos Hc.
    destruct (combine_deterministic_info infos _ (Some _) i Hinfos Hnd Hc)
      as [H1 H2].
    split; assumption.
  - intros d tv target infos i t h Hd Htv Hres Hnd _ _. exfalso.
    simpl in Hd. unfold str_get in Htv. unfold str_get in Hd.
    rewrite Htv in Hd. apply andb_true_iff in Hd. destruct Hd as [Hd _].
    rewrite <- (target_info_not_deterministic tv target
                  (own_cache_result d) Hres), Hnd in Hd.
    discriminate.
  - intros i [_ Hd] Hne. contradiction.
  - intros s0 key r Hs0 Hget. apply getitem_In in Hget.
    destruct Hget as [k' Hin]. rewrite Forall_forall in Hs0.
    apply (Hs0 (k', r) Hin).
  - intros s0 key r Hs0 Hr. simpl.
    apply (Forall_setitem (fun n => deterministic_info (info n)));
      assumption.
Qed.

Lemma instantiate_list_not_deterministic :
  forall rec_call node items convert s n s',
    instantiate_list (World:=World) rec_call node items convert s
    = (Ok n, s') ->
    not_deterministic (info n) = false.
Proof.
  intros rec_call node items convert s n s'. unfold instantiate_list, bind.
  destruct (instantiate_items rec_call items s) as [[ns|e] s1];
    [|discriminate].
  unfold lift. destruct (combine _ (Some node) None None) as [i|e] eqn:C;
    [|discriminate].
  apply combine_not_deterministic in C.
  destruct (is_ALL convert || is_PARTIAL convert); intros [= <- _]; exact C.
Qed.

Lemma instantiate_dict_not_deterministic :
  forall rec_call node entries convert s n s',
    instantiate_dict (World:=World) rec_call node entries convert s
    = (Ok n, s') ->
    not_deterministic (info n) = false.
Proof.
  intros rec_call node entries convert s n s'. unfold instantiate_dict, bind.
  destruct (instantiate_entries rec_call entries ([], []) s)
    as [[[dict_items infos]|e] s1]; [|discriminate].
  unfold lift. destruct (combine _ (Some node) None None) as [i|e] eqn:C;
    [|discriminate].
  apply combine_not_deterministic in C.
  destruct (is_ALL convert || is_PARTIAL convert); intros [= <- _]; exact C.
Qed.

(** The [not_deterministic] that [combine] computes is the flag of
    the target info of the node, false when there is none; the engine
    passes a target info for nodes with target only, so that the info
    of a node without target has [not_deterministic] false and the info
    computed for a node with target has the flag of its target, whatever
    the infos of the children are.  The evaluation of a tree in which
    no target is marked as not deterministic, against a cache whose
    infos are deterministic (a fresh cache, for one), returns an info
    with [not_deterministic] false and no deterministic substitute, at
    any depth, and leaves such a cache. *)
Theorem determinism_not_inherited :
  (forall infos parent_config target_info det_config i,
      combine infos parent_config target_info det_config = Ok i ->
      not_deterministic i
      = match target_info with
        | Some t => not_deterministic t
        | None => false
        end) /\
  (forall node args convert recursive cache s n s',
      match node with
      | VDictConfig entries => _is_target entries = false
      | _ => True
      end ->
      instantiate_node resolve joblib_hash node args convert recursive
        cache s = (Ok n, s') ->
      not_deterministic (info n) = false) /\
  (forall entries args convert recursive cache s kw out v i s1,
      _is_target entries = true ->
      instantiate_node resolve joblib_hash (VDictConfig entries) args
        convert recursive cache s = (Ok (mkNode v i), s1) ->
      In (ECall (VDictConfig entries) args kw out) (new_events s s1) ->
      exists tv,
        str_get "_target_" entries = Some tv /\
        not_deterministic i = target_not_deterministic resolve tv) /\
  (forall node args convert recursive cache s n s',
      deterministic_tree resolve node = true ->
      Forall (fun kv => deterministic_info (info (snd kv))) (st_store s) ->
      instantiate_node resolve joblib_hash node args convert recursive
        cache s = (Ok n, s') ->
      not_deterministic (info n) = false /\
      deterministic_config (info n) = None /\
      Forall (fun kv => deterministic_info (info (snd kv))) (st_store s')).
Proof.
  split; [exact combine_not_deterministic|]. split; [|split].
  - intros node args convert recursive cache s n s' Hnode Hev.
    destruct node; simpl in Hev; try (injection Hev as <- _; reflexivity).
    + destruct recursive; try discriminate.
      eapply instantiate_list_not_deterministic. exact Hev.
    + destruct (effective_recursive entries recursive); try discriminate.
      rewrite Hnode in Hev.
      eapply instantiate_dict_not_deterministic. exact Hev.
  - intros entries args convert recursive cache s kw out v i s1 Ht Hev Hin.
    destruct (computed_inv World resolve joblib_hash entries args convert
                recursive cache s v i s1 kw out Ht Hev Hin)
      as (rec & tv & target & infos & s_k & t & w & i0 & Hr & Hm & Htv
          & Hres & Hk & Hcall & Hcomb & -> & _).
    exists tv. split; [exact Htv|]. cbn [not_deterministic set_time_target].
    rewrite <- (target_info_not_deterministic tv target
                  (own_cache_result entries) Hres).
    cbv zeta in Hcomb.
    destruct (not_deterministic (from_func _ _)) eqn:E;
      rewrite (combine_not_deterministic _ _ _ _ _ Hcomb); exact E.
  - intros node args convert recursive cache s n s' Hgood Hs Hev.
    pose proof (deterministic_tree_rule node args convert recursive cache s
                  Hgood Hs) as H.
    unfold hoare in H. rewrite Hev in H. destruct H as [Hs' [Hnd Hdc]].
    repeat split; assumption.
Qed.
End Determinism.

(** A deterministic tree of depth three against a fresh cache. *)
Example determinism_not_inherited_example :
  let node :=
    Bench.call "add"
      [("a", Bench.call "add"
               [("a", Bench.call "add" [("a", VInt 1); ("b", VInt 2)]);
                ("b", VInt 3)]);
       ("b", Bench.call "wrap"
               [("y", VListConfig
                        [Bench.call "add" [("a", VInt 1); ("b", VInt 2)]])])] in
  let r := Bench.run node (Bench.fresh []) in
  not_deterministic (info (Bench.returned r)) = false /\
  deterministic_config (info (Bench.returned r)) = None /\
  Forall (fun kv => deterministic_info (info (snd kv))) (st_store (snd r)).
Proof.
  intros node r.
  apply (proj2 (proj2 (proj2 (determinism_not_inherited Bench.World
                                Bench.resolve Bench.joblib_hash)))
           node [] (VStr "none") (VBool true) true (Bench.fresh [])
           (Bench.returned r) (snd r)).
  - reflexivity.
  - constructor.
  - vm_compute. reflexivity.
Qed.

(** C4, failing input.  The node [D] is
    [{_target_: consumer, x: {_result_hash_: h}}]: the target of [D] is
    not marked as not deterministic and nothing below [D] has a target,
    so that [D] is a deterministic node with deterministic descendants
    only.  Evaluated against a fresh cache, [D] is computed, and its
    info has [not_deterministic] false and no deterministic substitute,
    as claimed.  Evaluated against the cache that the evaluation of the
    consumer of a random source left, [D] is found in the cache, under
    the substitute of that consumer: no target is called, the value of
    the other node is returned, and the info carries a deterministic
    substitute. *)
Theorem C4_failing_input :
  let D := ReservedKeyExample.D in
  let s := ReservedKeyExample.shared in
  deterministic_tree Bench.resolve D = true /\
  target_not_deterministic Bench.resolve (VStr "consumer") = false /\
  (exists s',
      Bench.run D (Bench.fresh [])
      = (Ok (mkNode (VInt 0)
               {| not_deterministic := false; cache_result := true;
                  deterministic_config := None;
                  time_target := Some 9%Z |}), s') /\
      count_calls D (st_log s') = 1) /\
  Bench.run D s
  = (Ok (mkNode (VInt 14)
           {| not_deterministic := false; cache_result := true;
              deterministic_config := Some D;
              time_target := Some 9%Z |}), s).
Proof.
  intros D s.
  split; [reflexivity|]. split; [reflexivity|]. split.
  - eexists. split; vm_compute; reflexivity.
  - vm_compute. reflexivity.
Qed.

(* ================================================================= *)
(** ** Deterministic substitutes differ from the node *)

Lemma existsb_insert_entry :
  forall f kv l,
    existsb f (insert_entry kv l) = f kv || existsb f l.
Proof.
  intros f kv l. induction l as [|h t IH]; simpl; [reflexivity|].
  destruct (String.leb (fst kv) (fst h)); simpl; [reflexivity|].
  rewrite IH. destruct (f kv), (f h); reflexivity.
Qed.

Lemma existsb_sort_entries :
  forall f l, existsb f (sort_entries l) = existsb f l.
Proof.
  intros f l. induction l as [|h t IH]; simpl; [reflexivity|].
  rewrite existsb_insert_entry, IH. reflexivity.
Qed.

Lemma str_contains_existsb :
  forall (V : Type) k (d : list (string * V)),
    str_contains k d = existsb (fun kv => String.eqb (fst kv) k) d.
Proof.
  intros V k d. induction d as [|[k' v] d IH]; simpl; [reflexivity|].
  destruct (String.eqb k' k); [reflexivity | exact IH].
Qed.

Lemma has_result_hash_canon :
  forall v, has_result_hash (canon v) = has_result_hash v.
Proof.
  induction v using Value_nested_ind; try reflexivity.
  - simpl. induction H as [|x l Hx Hl IH]; simpl; [reflexivity|].
    rewrite Hx, IH. reflexivity.
  - simpl. rewrite !str_contains_existsb, !existsb_sort_entries. f_equal.
    + induction entries as [|[k x] d IH]; simpl; [reflexivity|].
      inversion H; subst. rewrite IH by assumption. reflexivity.
    + induction H as [|[k x] d Hx Hd IH]; simpl; [reflexivity|].
      simpl in Hx. rewrite Hx, IH. reflexivity.
  - simpl. induction H as [|x l Hx Hl IH]; simpl; [reflexivity|].
    rewrite Hx, IH. reflexivity.
  - simpl. rewrite !str_contains_existsb, !existsb_sort_entries. f_equal.
    + induction entries as [|[k x] d IH]; simpl; [reflexivity|].
      inversion H; subst. rewrite IH by assumption. reflexivity.
    + induction H as [|[k x] d Hx Hd IH]; simpl; [reflexivity|].
      simpl in Hx. rewrite Hx, IH. reflexivity.
Qed.

Lemma has_result_hash_proper :
  forall a b, config_eqb a b = true -> has_result_hash a = has_result_hash b.
Proof.
  intros a b H. apply config_eqb_canon in H.
  rewrite <- (has_result_hash_canon a), <- (has_result_hash_canon b), H.
  reflexivity.
Qed.

Lemma existsb_str_set :
  forall (f : Value -> bool) k v (d : list (string * Value)),
    f v = true ->
    existsb (fun kv => let '(_, x) := kv in f x) (str_set k v d) = true.
Proof.
  intros f k v d Hv. unfold str_set.
  induction d as [|[k' v'] d IH]; cbn [dict_set existsb].
  - rewrite Hv. reflexivity.
  - destruct (String.eqb k' k); cbn [existsb].
    + rewrite Hv. reflexivity.
    + rewrite IH. apply orb_true_r.
Qed.

Lemma existsb_list_set :
  forall (f : Value -> bool) i v l l',
    f v = true -> list_set i v l = Some l' -> existsb f l' = true.
Proof.
  intros f i v l. revert i.
  induction l as [|x l IH]; intros [|i] l' Hv H; simpl in H; try discriminate.
  - injection H as <-. simpl. rewrite Hv. reflexivity.
  - destruct (list_set i v l) as [r|] eqn:R; [|discriminate].
    injection H as <-. simpl. rewrite (IH i r Hv R). apply orb_true_r.
Qed.

Lemma config_setitem_hashed :
  forall c k v c',
    has_result_hash v = true -> config_setitem c k v = Ok c' ->
    has_result_hash c' = true.
Proof.
  intros c k v c' Hv H. unfold config_setitem in H.
  destruct c, k; try discriminate.
  - destruct (list_set i v items) as [l'|] eqn:L; [|discriminate].
    injection H as <-. simpl. eapply existsb_list_set; eassumption.
  - injection H as <-. simpl. rewrite existsb_str_set by assumption.
    apply orb_true_r.
  - destruct (list_set i v items) as [l'|] eqn:L; [|discriminate].
    injection H as <-. simpl. eapply existsb_list_set; eassumption.
  - injection H as <-. simpl. rewrite existsb_str_set by assumption.
    apply orb_true_r.
Qed.

Lemma combine_substitute_hashed :
  forall parent infos acc d,
    Forall (fun ki => substitute_hashed (snd ki)) infos ->
    (forall a, acc = Some a -> has_result_hash a = true) ->
    combine_substitute parent infos acc = Ok (Some d) ->
    has_result_hash d = true.
Proof.
  intros parent infos acc d H. revert acc.
  induction H as [|[k i] infos Hi Hinfos IH]; intros acc Hacc Hc; simpl in Hc.
  - injection Hc as ->. apply Hacc. reflexivity.
  - simpl in Hi. destruct (deterministic_config i) as [child|] eqn:Hd.
    + destruct (config_setitem _ k child) as [d'|e] eqn:S; [|discriminate].
      apply (IH (Some d')); [|exact Hc].
      intros a [= <-]. eapply config_setitem_hashed; [|exact S].
      apply Hi. exact Hd.
    + apply (IH acc); assumption.
Qed.

Lemma combine_hashed :
  forall infos node target_info i,
    Forall (fun ki => substitute_hashed (snd ki)) infos ->
    combine infos (Some node) target_info None = Ok i ->
    substitute_hashed i.
Proof.
  intros infos node target_info i Hinfos H d Hd. unfold combine in H.
  destruct (combine_substitute node infos None) as [acc|e] eqn:C;
    [|discriminate].
  injection H as <-. simpl in Hd. subst acc.
  eapply combine_substitute_hashed; [exact Hinfos | | exact C].
  intros a. discriminate.
Qed.

Section Substitute.
Variable World : Type.
Variable resolve : Value -> option (Target World).
Variable joblib_hash : Value -> string.
Implicit Types s : State World.

(** Every substitute that the engine returns or stores contains a
    result hash. *)
Lemma substitute_hashed_rule :
  forall node args convert recursive cache s,
    Forall (fun kv => substitute_hashed (info (snd kv))) (st_store s) ->
    hoare (instantiate_node resolve joblib_hash node args convert recursive
             cache) s
      (fun n s' =>
         Forall (fun kv => substitute_hashed (info (snd kv))) (st_store s')
         /\ substitute_hashed (info n))
      (fun _ _ => True).
Proof.
  intros node args convert recursive cache s Hs.
  apply (@engine_rule World resolve joblib_hash
           (fun s =>
              Forall (fun kv => substitute_hashed (info (snd kv)))
                     (st_store s))
           (fun _ => True) substitute_hashed (fun _ _ => True)); auto.
  - intros l _. apply Forall_forall. auto.
  - intros d _. apply Forall_forall. auto.
  - intros d. discriminate.
  - intros nd infos i _ Hinfos Hc. eapply combine_hashed; eassumption.
  - intros d tv target infos i t _ _ _ _ Hinfos Hc x Hx. simpl in Hx.
    eapply combine_hashed; eassumption.
  - intros d tv target infos i t h _ _ _ _ _ Hc x Hx. simpl in Hx.
    unfold combine in Hc. injection Hc as <-. simpl in Hx.
    injection Hx as <-. reflexivity.
  - intros s0 key r Hs0 Hget. apply getitem_In in Hget.
    destruct Hget as [k' Hin]. rewrite Forall_forall in Hs0.
    apply (Hs0 (k', r) Hin).
  - intros s0 key r Hs0 Hr. simpl.
    apply (Forall_setitem (fun n => substitute_hashed (info n)));
      assumption.
Qed.

(** Take a node that does not use the reserved key [_result_hash_]
    and a cache in which every substitute contains a result hash (a
    fresh cache, or one filled by the engine).  When the evaluation of
    the node returns an info with a deterministic substitute, the
    substitute contains a placeholder with a result hash, so that it is
    different from the node and never compares equal to it as a key;
    the cache that the evaluation leaves has the same property. *)
Theorem substitute_differs :
  forall node args convert recursive cache s n s' d,
    has_result_hash node = false ->
    Forall (fun kv => substitute_hashed (info (snd kv))) (st_store s) ->
    instantiate_node resolve joblib_hash node args convert recursive cache s
    = (Ok n, s') ->
    deterministic_config (info n) = Some d ->
    has_result_hash d = true /\
    config_eqb d node = false /\
    InMemoryCache.key_matches d node = false /\
    Forall (fun kv => substitute_hashed (info (snd kv))) (st_store s').
Proof.
  intros node args convert recursive cache s n s' d Hnode Hs Hev Hd.
  pose proof (substitute_hashed_rule node args convert recursive cache s Hs)
    as H.
  unfold hoare in H. rewrite Hev in H. destruct H as [Hs' Hn].
  assert (Hh : has_result_hash d = true) by (apply Hn; exact Hd).
  assert (Hne : config_eqb d node = false).
  { destruct (config_eqb d node) eqn:Eq; [|reflexivity].
    apply has_result_hash_proper in Eq. congruence. }
  repeat split; try assumption.
  apply key_matches_different. exact Hne.
Qed.
End Substitute.

(** A list with a consumer of a random source. *)
Example substitute_differs_example :
  let node := VListConfig [VInt 1; Examples.consumer_of_random] in
  let d :=
    VListConfig
      [VInt 1;
       VDictConfig
         [("_target_", VStr "consumer");
          ("x", result_hash_config (Bench.joblib_hash (VInt 7)))]] in
  let r := Bench.run node (Bench.fresh [7%Z]) in
  has_result_hash d = true /\
  config_eqb d node = false /\
  InMemoryCache.key_matches d node = false /\
  Forall (fun kv => substitute_hashed (info (snd kv))) (st_store (snd r)).
Proof.
  intros node d r.
  apply (substitute_differs Bench.World Bench.resolve Bench.joblib_hash
           node [] (VStr "none") (VBool true) true (Bench.fresh [7%Z])
           (Bench.returned r) (snd r) d).
  - reflexivity.
  - constructor.
  - vm_compute. reflexivity.
  - vm_compute. reflexivity.
Qed.

(** C6, failing input.  The node [D] is
    [{_target_: consumer, x: {_result_hash_: h}}], the substitute under
    which the evaluation of the consumer of a random source stored its
    result.  In the cache that this evaluation left, [D] is a key;
    the evaluation of [D] against that cache returns the entry, whose
    info carries a deterministic substitute, and this substitute is [D]
    itself: it is equal to the configuration of the node, it has its
    hash, and it is the same key of the cache. *)
Theorem C6_failing_input :
  let D := ReservedKeyExample.D in
  let s := ReservedKeyExample.shared in
  InMemoryCache.contains (st_store s) D = true /\
  exists n d,
    Bench.run D s = (Ok n, s) /\
    deterministic_config (info n) = Some d /\
    config_eqb d D = true /\
    config_hash d = config_hash D /\
    InMemoryCache.key_matches d D = true.
Proof.
  intros D s. split; [vm_compute; reflexivity|].
  do 2 eexists. split; [vm_compute; reflexivity|].
  split; [reflexivity|].
  split; [vm_compute; reflexivity|].
  split; vm_compute; reflexivity.
Qed.

(* ================================================================= *)
(** ** A target that raises *)




Section Failure.
Variable World : Type.
Variable resolve : Value -> option (Target World).
Variable joblib_hash : Value -> string.
Implicit Types s : State World.

End Failure.




(* ================================================================= *)
(** ** Stability of the deterministic substitute *)

Lemma combine_substitute_skip :
  forall parent pre rest acc,
    Forall (fun ki => deterministic_config (snd ki) = None) pre ->
    combine_substitute parent (pre ++ rest) acc
    = combine_substitute parent rest acc.
Proof.
  intros parent pre rest acc H.
  induction H as [|[k i] pre Hi Hpre IH]; simpl; [reflexivity|].
  simpl in Hi. rewrite Hi. exact IH.
Qed.

Lemma combine_substitute_single :
  forall entries pre x child_info post child,
    Forall (fun ki => deterministic_config (snd ki) = None) pre ->
    Forall (fun ki => deterministic_config (snd ki) = None) post ->
    deterministic_config child_info = Some child ->
    combine_substitute (VDictConfig entries)
      (pre ++ (KStr x, child_info) :: post) None
    = Ok (Some (VDictConfig (str_set x child entries))).
Proof.
  intros entries pre x child_info post child Hpre Hpost Hchild.
  rewrite combine_substitute_skip by exact Hpre.
  simpl. rewrite Hchild. apply combine_substitute_absent. exact Hpost.
Qed.

Lemma str_get_insert_entry :
  forall k kv l,
    str_get k (insert_entry kv l)
    = if String.eqb (fst kv) k then Some (snd kv) else str_get k l.
Proof.
  intros k [k0 v0] l. unfold str_get.
  induction l as [|[k1 v1] l IH]; cbn [insert_entry fst snd dict_get].
  - reflexivity.
  - destruct (String.leb k0 k1) eqn:L; cbn [dict_get]; [reflexivity|].
    cbn [fst snd] in IH. rewrite IH.
    destruct (String.eqb k1 k) eqn:E1; [|reflexivity].
    destruct (String.eqb k0 k) eqn:E0; [|reflexivity].
    apply String.eqb_eq in E1, E0. subst k1 k0.
    unfold String.leb in L. rewrite String.compare_antisym in L.
    destruct (String.compare k k) eqn:C; simpl in L; try discriminate.
    + pose proof (String.compare_antisym k k) as A. rewrite C in A.
      discriminate.
Qed.

Lemma str_get_sort_entries :
  forall k l, str_get k (sort_entries l) = str_get k l.
Proof.
  intros k l. induction l as [|[k0 v0] l IH]; simpl; [reflexivity|].
  rewrite str_get_insert_entry, IH. reflexivity.
Qed.

Lemma str_get_map_canon :
  forall k d,
    str_get k (map (fun kv => let '(k0, x) := kv in (k0, canon x)) d)
    = option_map canon (str_get k d).
Proof.
  intros k d. unfold str_get.
  induction d as [|[k0 v0] d IH]; simpl; [reflexivity|].
  destruct (String.eqb k0 k); [reflexivity | exact IH].
Qed.

Lemma str_get_str_set :
  forall (V : Type) k (v : V) d, str_get k (str_set k v d) = Some v.
Proof.
  intros V k v d. unfold str_get, str_set.
  induction d as [|[k0 v0] d IH]; simpl.
  - rewrite String.eqb_refl. reflexivity.
  - destruct (String.eqb k0 k) eqn:E; simpl; rewrite E; [reflexivity | exact IH].
Qed.

(** Two mappings that are equal have equal values under every key. *)
Lemma config_eqb_entries :
  forall d1 d2 k,
    config_eqb (VDictConfig d1) (VDictConfig d2) = true ->
    option_map canon (str_get k d1) = option_map canon (str_get k d2).
Proof.
  intros d1 d2 k H. apply config_eqb_canon in H. simpl in H.
  injection H as H.
  rewrite <- !str_get_map_canon, <- (str_get_sort_entries k (map _ d1)), H.
  apply str_get_sort_entries.
Qed.

Lemma substitute_keys_differ :
  forall entries x h1 h2,
    h1 <> h2 ->
    config_eqb
      (VDictConfig (str_set x (result_hash_config h1) entries))
      (VDictConfig (str_set x (result_hash_config h2) entries)) = false.
Proof.
  intros entries x h1 h2 Hne.
  destruct (config_eqb _ _) eqn:E; [|reflexivity]. exfalso.
  apply (config_eqb_entries _ _ x) in E.
  rewrite !str_get_str_set in E. simpl in E. injection E as E.
  apply Hne. exact E.
Qed.

Lemma Key_eqb_eq : forall a b, Key_eqb a b = true <-> a = b.
Proof.
  intros [i|s] [j|t]; simpl; split; intros H; try discriminate.
  - apply Nat.eqb_eq in H. congruence.
  - injection H as ->. apply Nat.eqb_refl.
  - apply String.eqb_eq in H. congruence.
  - injection H as ->. apply String.eqb_refl.
Qed.

Lemma dict_get_absent :
  forall (V : Type) (k : Key) (d : list (Key * V)),
    ~ In k (map fst d) -> dict_get Key_eqb k d = None.
Proof.
  intros V k d. induction d as [|[k' v] d IH]; simpl; [reflexivity|].
  intros H. destruct (Key_eqb k' k) eqn:E.
  - apply Key_eqb_eq in E. exfalso. apply H. left. exact E.
  - apply IH. intros Hin. apply H. right. exact Hin.
Qed.

Lemma str_set_keys_present :
  forall (V : Type) k (v : V) d,
    In k (map fst d) -> map fst (str_set k v d) = map fst d.
Proof.
  intros V k v d. unfold str_set.
  induction d as [|[k0 v0] d IH]; simpl; [intros []|].
  intros H. destruct (String.eqb k0 k) eqn:E; simpl; [reflexivity|].
  f_equal. apply IH. destruct H as [H|H]; [|exact H].
  subst k0. rewrite String.eqb_refl in E. discriminate.
Qed.

Lemma str_get_str_set_other :
  forall (V : Type) k k' (v : V) d,
    k' <> k -> str_get k (str_set k' v d) = str_get k d.
Proof.
  intros V k k' v d Hne. unfold str_get, str_set.
  induction d as [|[k0 v0] d IH]; simpl.
  - destruct (String.eqb k' k) eqn:E; [|reflexivity].
    apply String.eqb_eq in E. contradiction.
  - destruct (String.eqb k0 k') eqn:E0; simpl.
    + destruct (String.eqb k0 k) eqn:E1; [|reflexivity].
      apply String.eqb_eq in E0, E1. congruence.
    + rewrite IH. reflexivity.
Qed.

(** The loop of [combine] on a mapping, from any value of the variable
    [deterministic_config]. *)
Lemma combine_substitute_mapping :
  forall entries infos (acc : option (list (string * Value))),
    Forall (fun ki => exists k, fst ki = KStr k) infos ->
    NoDup (map fst infos) ->
    exists r,
      combine_substitute (VDictConfig entries) infos
        (option_map VDictConfig acc)
      = Ok (option_map VDictConfig r) /\
      (r = None <->
       acc = None /\
       Forall (fun ki => deterministic_config (snd ki) = None) infos) /\
      forall d', r = Some d' ->
        let base := match acc with Some b => b | None => entries end in
        (forall k,
            str_get k d'
            = match dict_get Key_eqb (KStr k) infos with
              | Some ci =>
                  match deterministic_config ci with
                  | Some c => Some c
                  | None => str_get k base
                  end
              | None => str_get k base
              end) /\
        (Forall (fun ki => forall k, fst ki = KStr k -> In k (map fst base))
                infos ->
         map fst d' = map fst base).
Proof.
  intros entries infos. induction infos as [|[key i] infos IH];
    intros acc Hkeys Hnd.
  - exists acc. simpl. split; [reflexivity|]. split.
    + split; [intros ->; split; [reflexivity | constructor]
             | intros [-> _]; reflexivity].
    + intros d' ->. simpl. split; [intros k; reflexivity | reflexivity].
  - inversion Hkeys as [|? ? [x Hx] Hkeys']; subst. simpl in Hx. subst key.
    inversion Hnd as [|? ? Hnotin Hnd']; subst.
    cbn [combine_substitute snd].
    destruct (deterministic_config i) as [c|] eqn:Hc.
    + set (base := match acc with Some b => b | None => entries end).
      assert (Hset :
        config_setitem
          match option_map VDictConfig acc with
          | Some d => d
          | None => VDictConfig entries
          end (KStr x) c
        = Ok (VDictConfig (str_set x c base)))
        by (destruct acc; reflexivity).
      rewrite Hset.
      destruct (IH (Some (str_set x c base)) Hkeys' Hnd')
        as (r & Hr & Hnone & Hsome).
      exists r. split; [exact Hr|]. split.
      * split.
        -- intros E. apply Hnone in E. destruct E as [E _]. discriminate.
        -- intros [_ Hall]. inversion Hall; subst. simpl in *. congruence.
      * intros d' Hd'. destruct (Hsome d' Hd') as [Hget Hfst].
        cbv zeta in *. split.
        -- intros k. rewrite Hget. cbn [dict_get Key_eqb].
           destruct (String.eqb x k) eqn:E.
           ++ apply String.eqb_eq in E. subst k.
              rewrite dict_get_absent by exact Hnotin.
              rewrite Hc. apply str_get_str_set.
           ++ assert (Hne : x <> k)
                by (intros ->; rewrite String.eqb_refl in E; discriminate).
              rewrite (str_get_str_set_other Value k x c base Hne).
              reflexivity.
        -- intros Hin. inversion Hin as [|? ? Hx Hin']; subst.
           rewrite Hfst.
           ++ apply str_set_keys_present. apply Hx. reflexivity.
           ++ eapply Forall_impl; [|exact Hin'].
              intros ki Hki k Hk. rewrite str_set_keys_present.
              ** apply Hki. exact Hk.
              ** apply Hx. reflexivity.
    + destruct (IH acc Hkeys' Hnd') as (r & Hr & Hnone & Hsome).
      exists r. split; [exact Hr|]. split.
      * rewrite Hnone. split.
        -- intros [-> Hall]. split; [reflexivity|].
           constructor; [exact Hc | exact Hall].
        -- intros [-> Hall]. split; [reflexivity|].
           inversion Hall; assumption.
      * intros d' Hd'. destruct (Hsome d' Hd') as [Hget Hfst].
        cbv zeta in *. split.
        -- intros k. rewrite Hget. cbn [dict_get Key_eqb].
           destruct (String.eqb x k) eqn:E; [|reflexivity].
           apply String.eqb_eq in E. subst k.
           rewrite dict_get_absent by exact Hnotin.
           rewrite Hc. reflexivity.
        -- intros Hin. inversion Hin; subst. apply Hfst. assumption.
Qed.





Section SubstituteStability.
Variable World : Type.
Variable resolve : Value -> option (Target World).
Variable joblib_hash : Value -> string.
Implicit Types s : State World.

End SubstituteStability.


(** The two runs of the claim on that node: its key holds the
    placeholder of the source two levels below; with the same value the
    node and the consumer are served from the restored cache, with
    another value the key is another one and both are called again. *)
Example substitute_hit_and_miss :
  let P := VDictConfig SubstituteExample.entries in
  let run z := Bench.run P (SubstituteExample.second z) in
  deterministic_config (info (Bench.returned (run 7%Z)))
  = Some (SubstituteExample.key 7) /\
  at_path [KStr "y"; KStr "x"] (SubstituteExample.key 7)
  = Some (result_hash_config (Bench.joblib_hash (VInt 7))) /\
  count_calls P (st_log (snd (run 7%Z))) = 0 /\
  count_calls Examples.consumer_of_random (st_log (snd (run 7%Z))) = 0 /\
  deterministic_config (info (Bench.returned (run 8%Z)))
  = Some (SubstituteExample.key 8) /\
  config_eqb (SubstituteExample.key 8) (SubstituteExample.key 7) = false /\
  count_calls P (st_log (snd (run 8%Z))) = 1 /\
  count_calls Examples.consumer_of_random (st_log (snd (run 8%Z))) = 1.
Proof. repeat split; vm_compute; reflexivity. Qed.

(* ================================================================= *)
(** ** Structural equality of configuration nodes *)












Lemma Forall_forallb_entries :
  forall (f : Value -> bool) (d : list (string * Value)),
    forallb (fun kv => let '(_, x) := kv in f x) d = true ->
    Forall (fun kv => f (snd kv) = true) d.
Proof.
  intros f d H. apply Forall_forall. intros [k x] Hin.
  rewrite forallb_forall in H. exact (H (k, x) Hin).
Qed.

Lemma sort_entries_sorted :
  forall d, keys_sorted d = true -> sort_entries d = d.
Proof.
  induction d as [|[k1 x1] d IH]; intros H; [reflexivity|].
  simpl in H. apply andb_prop in H. destruct H as [Hhead Hrest].
  unfold sort_entries in *. cbn [fold_right]. rewrite (IH Hrest).
  destruct d as [|[k2 x2] d]; [reflexivity|].
  simpl. rewrite Hhead. reflexivity.
Qed.

Lemma canonical_canon : forall v, canonical v = true -> canon v = v.
Proof.
  assert (Hlist : forall l,
             Forall (fun v => canonical v = true -> canon v = v) l ->
             forallb canonical l = true -> map canon l = l).
  { intros l H Hc. rewrite forallb_forall in Hc.
    induction H as [|x l Hx Hl IH]; [reflexivity|]. simpl.
    rewrite Hx by (apply Hc; left; reflexivity).
    rewrite IH by (intros y Hy; apply Hc; right; exact Hy). reflexivity. }
  assert (Hentries : forall d : list (string * Value),
             Forall (fun kv => canonical (snd kv) = true ->
                               canon (snd kv) = snd kv) d ->
             forallb (fun kv => let '(_, x) := kv in canonical x) d = true ->
             map (fun kv => let '(k, x) := kv in (k, canon x)) d = d).
  { intros d H Hc. apply Forall_forallb_entries in Hc.
    induction H as [|[k x] d Hx Hl IH]; [reflexivity|]. simpl.
    inversion Hc as [|? ? Hcx Hcl]; subst. simpl in Hx, Hcx.
    rewrite Hx by exact Hcx. rewrite IH by exact Hcl. reflexivity. }
  induction v using Value_nested_ind; simpl; intros Hv; try reflexivity.
  - rewrite Hlist; auto.
  - apply andb_prop in Hv. destruct Hv as [Hs Hc].
    rewrite Hentries, sort_entries_sorted; auto.
  - rewrite Hlist; auto.
  - apply andb_prop in Hv. destruct Hv as [Hs Hc].
    rewrite Hentries, sort_entries_sorted; auto.
Qed.

Lemma canonical_config_eqb :
  forall a b,
    canonical a = true -> canonical b = true ->
    config_eqb a b = true -> a = b.
Proof.
  intros a b Ha Hb H. apply config_eqb_canon in H.
  rewrite (canonical_canon a Ha), (canonical_canon b Hb) in H. exact H.
Qed.

Lemma setitem_length_absent :
  forall (TV : Type) (c : InMemoryCache.store TV) key v,
    InMemoryCache.getitem c key = None ->
    List.length (InMemoryCache.setitem c key v) = S (List.length c).
Proof.
  unfold InMemoryCache.getitem, InMemoryCache.setitem.
  intros TV c key v. induction c as [|[k' v'] c IH]; simpl.
  - reflexivity.
  - destruct (InMemoryCache.key_matches k' key); simpl; [discriminate|].
    intros H. rewrite IH by exact H. reflexivity.
Qed.





(* ================================================================= *)
(** ** Dumping the cache *)

Lemma string_app_inv_head :
  forall s a b : string, (s ++ a)%string = (s ++ b)%string -> a = b.
Proof.
  induction s as [|c s IH]; simpl; intros a b H; [exact H|].
  injection H as H. apply IH. exact H.
Qed.


Section DumpFacts.
Import DumpableInMemoryCache.

Variable to_yaml : Value -> string.
Variable joblib_hash : Value -> string.
Variable pickle : InstantiatedNode -> string.
Variable verbose : bool.

Lemma check_constraints_skip :
  forall cs k v skip log,
    fst (check_constraints verbose cs k v skip log)
    = skip || existsb
                (fun c => match c k v with Some _ => true | None => false end)
                cs.
Proof.
  induction cs as [|c cs IH]; intros k v skip log; simpl.
  - rewrite orb_false_r. reflexivity.
  - destruct (c k v); rewrite IH; simpl.
    + rewrite orb_true_r. reflexivity.
    + reflexivity.
Qed.


(** What one turn of the loop does to the files and to the counter. *)
Lemma dump_entry_eq :
  forall directory constraints overwrite st k v,
    let h := joblib_hash (VStr (to_yaml k)) in
    let fn_config := path_join directory (h ++ ".yaml") in
    let fn_data := path_join directory (h ++ ".pkl") in
    let st' :=
      dump_entry to_yaml joblib_hash pickle verbose directory constraints
        overwrite st (k, v) in
    (d_fs st', n_dumped st')
    = if rejected constraints k v then (d_fs st, n_dumped st)
      else if path_exists (d_fs st) fn_config && negb overwrite
           then (d_fs st, n_dumped st)
           else (write_file (write_file (d_fs st) fn_config (to_yaml k))
                            fn_data (pickle v),
                 n_dumped st + 1).
Proof.
  intros directory constraints overwrite st k v. cbv zeta.
  unfold dump_entry, rejected.
  destruct constraints as [cs|].
  - pose proof (check_constraints_skip cs k v false (d_log st)) as Hskip.
    destruct (check_constraints verbose cs k v false (d_log st))
      as [skip log].
    simpl in Hskip. rewrite <- Hskip.
    destruct skip; [reflexivity|].
    destruct (path_exists (d_fs st) _ && negb overwrite); reflexivity.
  - destruct (path_exists (d_fs st) _ && negb overwrite); reflexivity.
Qed.


End DumpFacts.




(* ================================================================= *)
(** * Further properties of the code *)

(* ================================================================= *)
(** ** The store of [InMemoryCache] *)


(** X1.  Nothing is found in an empty [InMemoryCache].  A
    [__setitem__] under a key touches that key only: every key that is
    not equal to it is found, or not found, as before, with the same
    value; and when the key was not in the cache, exactly one entry is
    added. *)
Theorem X1_setitem_other_keys :
  forall (TV : Type) (c : InMemoryCache.store TV) k (v : TV),
    (forall k', InMemoryCache.contains (InMemoryCache.empty TV) k' = false /\
                InMemoryCache.getitem (InMemoryCache.empty TV) k' = None) /\
    (forall k', config_eqb k k' = false ->
                InMemoryCache.getitem (InMemoryCache.setitem c k v) k'
                = InMemoryCache.getitem c k' /\
                InMemoryCache.contains (InMemoryCache.setitem c k v) k'
                = InMemoryCache.contains c k') /\
    (InMemoryCache.contains c k = false ->
     List.length (InMemoryCache.setitem c k v) = S (List.length c)).
Proof.
  intros TV c k v. split; [|split].
  - intros k'. split; reflexivity.
  - intros k' Hne.
    assert (H : InMemoryCache.getitem (InMemoryCache.setitem c k v) k'
                = InMemoryCache.getitem c k')
      by (apply getitem_setitem_other; exact Hne).
    split; [exact H|]. rewrite !contains_getitem, H. reflexivity.
  - intros Hc. apply setitem_length_absent.
    rewrite contains_getitem in Hc.
    destruct (InMemoryCache.getitem c k); [discriminate | reflexivity].
Qed.

(** X1, witness: a second key in a cache with one entry. *)
Lemma X1_witness :
  let c := InMemoryCache.setitem [] (VDictConfig [("a", VInt 1)]) 10%Z in
  let k := VDictConfig [("a", VInt 2)] in
  InMemoryCache.getitem (InMemoryCache.setitem c k 20%Z)
    (VDictConfig [("a", VInt 1)]) = Some 10%Z /\
  List.length (InMemoryCache.setitem c k 20%Z) = 2.
Proof.
  intros c k.
  destruct (X1_setitem_other_keys Z c k 20%Z) as (_ & Hother & Hlen).
  split.
  - rewrite (proj1 (Hother (VDictConfig [("a", VInt 1)]) eq_refl)).
    reflexivity.
  - apply Hlen. reflexivity.
Defined.

(* ================================================================= *)
(** ** The deterministic substitute that [combine] builds *)




Lemma list_set_in_range :
  forall (V : Type) (l : list V) i v,
    i < List.length l ->
    exists l', list_set i v l = Some l' /\
               List.length l' = List.length l /\
               forall j, nth_error l' j
                         = if Nat.eqb i j then Some v else nth_error l j.
Proof.
  intros V l. induction l as [|x l IH]; intros i v Hi; simpl in Hi; [lia|].
  destruct i as [|i]; simpl.
  - eexists. split; [reflexivity|]. split; [reflexivity|].
    intros [|j]; reflexivity.
  - destruct (IH i v) as (l' & -> & Hlen & Hnth); [lia|].
    eexists. split; [reflexivity|]. split; [simpl; lia|].
    intros [|j]; simpl; [reflexivity | apply Hnth].
Qed.

Lemma list_set_out_of_range :
  forall (V : Type) (l : list V) i v,
    List.length l <= i -> list_set i v l = None.
Proof.
  intros V l. induction l as [|x l IH]; intros i v Hi.
  - destruct i; reflexivity.
  - simpl in Hi. destruct i as [|i]; [lia|]. simpl.
    rewrite IH by lia. reflexivity.
Qed.


(** The same loop on a sequence whose positions are in range. *)
Lemma combine_substitute_sequence :
  forall items infos (acc : option (list Value)),
    Forall (fun ki => exists j, fst ki = KIdx j /\ j < List.length items)
           infos ->
    NoDup (map fst infos) ->
    (forall b, acc = Some b -> List.length b = List.length items) ->
    exists r,
      combine_substitute (VListConfig items) infos
        (option_map VListConfig acc)
      = Ok (option_map VListConfig r) /\
      (r = None <->
       acc = None /\
       Forall (fun ki => deterministic_config (snd ki) = None) infos) /\
      forall l', r = Some l' ->
        let base := match acc with Some b => b | None => items end in
        List.length l' = List.length items /\
        forall j,
          nth_error l' j
          = match dict_get Key_eqb (KIdx j) infos with
            | Some ci =>
                match deterministic_config ci with
                | Some c => Some c
                | None => nth_error base j
                end
            | None => nth_error base j
            end.
Proof.
  intros items infos. induction infos as [|[key i] infos IH];
    intros acc Hkeys Hnd Hacc.
  - exists acc. simpl. split; [reflexivity|]. split.
    + split; [intros ->; split; [reflexivity | constructor]
             | intros [-> _]; reflexivity].
    + intros l' ->. simpl. split; [|intros j; reflexivity].
      apply Hacc. reflexivity.
  - inversion Hkeys as [|? ? [x [Hx Hrange]] Hkeys']; subst.
    simpl in Hx. subst key.
    inversion Hnd as [|? ? Hnotin Hnd']; subst.
    cbn [combine_substitute snd].
    set (base := match acc with Some b => b | None => items end).
    assert (Hbase : List.length base = List.length items)
      by (unfold base; destruct acc as [b|];
          [apply Hacc; reflexivity | reflexivity]).
    destruct (deterministic_config i) as [c|] eqn:Hc.
    + destruct (list_set_in_range Value base x c) as (b' & Hb' & Hlen & Hnth);
        [lia|].
      assert (Hset :
        config_setitem
          match option_map VListConfig acc with
          | Some d => d
          | None => VListConfig items
          end (KIdx x) c
        = Ok (VListConfig b'))
        by (destruct acc; simpl; fold base; rewrite Hb'; reflexivity).
      rewrite Hset.
      destruct (IH (Some b') Hkeys' Hnd') as (r & Hr & Hnone & Hsome).
      { intros b [= <-]. lia. }
      exists r. split; [exact Hr|]. split.
      * split.
        -- intros E. apply Hnone in E. destruct E as [E _]. discriminate.
        -- intros [_ Hall]. inversion Hall; subst. simpl in *. congruence.
      * intros l' Hl'. destruct (Hsome l' Hl') as [Hlen' Hget].
        cbv zeta in *. split; [exact Hlen'|].
        intros j. rewrite Hget. cbn [dict_get Key_eqb].
        rewrite Hnth.
        destruct (Nat.eqb x j) eqn:E.
        -- apply Nat.eqb_eq in E. subst j.
           rewrite dict_get_absent by exact Hnotin.
           rewrite Hc. reflexivity.
        -- reflexivity.
    + destruct (IH acc Hkeys' Hnd' Hacc) as (r & Hr & Hnone & Hsome).
      exists r. split; [exact Hr|]. split.
      * rewrite Hnone. split.
        -- intros [-> Hall]. split; [reflexivity|].
           constructor; [exact Hc | exact Hall].
        -- intros [-> Hall]. split; [reflexivity|].
           inversion Hall; assumption.
      * intros l' Hl'. destruct (Hsome l' Hl') as [Hlen' Hget].
        cbv zeta in *. split; [exact Hlen'|].
        intros j. rewrite Hget. cbn [dict_get Key_eqb].
        destruct (Nat.eqb x j) eqn:E; [|reflexivity].
        apply Nat.eqb_eq in E. subst j.
        rewrite dict_get_absent by exact Hnotin.
        rewrite Hc. reflexivity.
Qed.

(** A substitute for a position that the sequence does not have. *)
Lemma combine_substitute_index_error :
  forall items pre j ci post c (acc : option (list Value)),
    Forall (fun ki => exists j, fst ki = KIdx j /\ j < List.length items)
           pre ->
    (forall b, acc = Some b -> List.length b = List.length items) ->
    deterministic_config ci = Some c ->
    List.length items <= j ->
    combine_substitute (VListConfig items) (pre ++ (KIdx j, ci) :: post)
      (option_map VListConfig acc)
    = Err IndexError.
Proof.
  intros items pre j ci post c.
  induction pre as [|[key i] pre IH]; intros acc Hpre Hacc Hc Hj.
  - cbn [app combine_substitute snd]. rewrite Hc.
    assert (Hbase :
      List.length match acc with Some b => b | None => items end
      = List.length items)
      by (destruct acc as [b|]; [apply Hacc; reflexivity | reflexivity]).
    destruct acc as [b|]; simpl;
      rewrite list_set_out_of_range by (simpl in Hbase; lia); reflexivity.
  - inversion Hpre as [|? ? [x [Hx Hrange]] Hpre']; subst.
    simpl in Hx. subst key.
    cbn [app combine_substitute snd].
    destruct (deterministic_config i) as [c0|] eqn:Hc0;
      [|apply IH; assumption].
    set (base := match acc with Some b => b | None => items end).
    assert (Hbase : List.length base = List.length items)
      by (unfold base; destruct acc as [b|];
          [apply Hacc; reflexivity | reflexivity]).
    destruct (list_set_in_range Value base x c0) as (b' & Hb' & Hlen & _);
      [lia|].
    assert (Hset :
      config_setitem
        match option_map VListConfig acc with
        | Some d => d
        | None => VListConfig items
        end (KIdx x) c0
      = Ok (VListConfig b'))
      by (destruct acc; simpl; fold base; rewrite Hb'; reflexivity).
    rewrite Hset. apply (IH (Some b')); try assumption.
    intros b [= <-]. lia.
Qed.

(** X2.  [combine] on a mapping, without a given substitute, returns,
    whatever the children's infos under the keys of [infos] are.  The
    combined info has a substitute if and only if a child has one; the
    substitute is then a mapping in which every key whose child has a
    substitute holds that substitute, and every other key holds what the
    parent holds; when the keys of [infos] are keys of the parent, the
    substitute has the keys of the parent, in the same order. *)
Theorem X2_combine_mapping_substitute :
  forall entries infos target_info,
    Forall (fun ki => exists k, fst ki = KStr k) infos ->
    NoDup (map fst infos) ->
    exists i,
      combine infos (Some (VDictConfig entries)) target_info None = Ok i /\
      (deterministic_config i = None <->
       Forall (fun ki => deterministic_config (snd ki) = None) infos) /\
      forall d, deterministic_config i = Some d ->
        exists d',
          d = VDictConfig d' /\
          (forall k,
              str_get k d'
              = match dict_get Key_eqb (KStr k) infos with
                | Some ci =>
                    match deterministic_config ci with
                    | Some c => Some c
                    | None => str_get k entries
                    end
                | None => str_get k entries
                end) /\
          (Forall (fun ki => forall k, fst ki = KStr k ->
                                       In k (map fst entries)) infos ->
           map fst d' = map fst entries).
Proof.
  intros entries infos target_info Hkeys Hnd.
  destruct (combine_substitute_mapping entries infos None Hkeys Hnd)
    as (r & Hr & Hnone & Hsome).
  unfold combine. simpl in Hr. rewrite Hr.
  eexists. split; [reflexivity|]. cbn [deterministic_config].
  split.
  - rewrite <- (and_comm (Forall _ infos)) in Hnone.
    destruct r; simpl.
    + split; [discriminate|]. intros H.
      assert (E : Some l = None) by (apply Hnone; split; [exact H | reflexivity]).
      discriminate.
    + split; [|reflexivity]. intros _.
      apply (proj1 Hnone). reflexivity.
  - intros d Hd. destruct r as [d'|]; [|discriminate].
    injection Hd as <-. exists d'. split; [reflexivity|].
    exact (Hsome d' eq_refl).
Qed.

(** X2, witness: of three children the second one has a substitute. *)
Lemma X2_witness :
  let entries := [("_target_", VStr "f"); ("a", VInt 1);
                  ("b", VDictConfig [("_target_", VStr "g")])] in
  let child :=
    {| not_deterministic := true; cache_result := true;
       deterministic_config := Some (result_hash_config "h");
       time_target := Some 3%Z |} in
  let infos := [(KStr "a", default_info); (KStr "b", child)] in
  exists i,
    combine infos (Some (VDictConfig entries)) None None = Ok i /\
    exists d',
      deterministic_config i = Some (VDictConfig d') /\
      str_get "b" d' = Some (result_hash_config "h") /\
      str_get "a" d' = Some (VInt 1) /\
      map fst d' = ["_target_"; "a"; "b"].
Proof.
  intros entries child infos.
  destruct (X2_combine_mapping_substitute entries infos None)
    as (i & Hi & Hnone & Hsome).
  - repeat constructor; eexists; reflexivity.
  - repeat constructor; simpl; intuition discriminate.
  - exists i. split; [exact Hi|].
    destruct (deterministic_config i) as [d|] eqn:Hd.
    + destruct (Hsome d eq_refl) as (d' & -> & Hget & Hfst).
      exists d'. split; [reflexivity|].
      split; [rewrite Hget; reflexivity|].
      split; [rewrite Hget; reflexivity|].
      apply Hfst. apply Forall_forall.
      intros ki [<-|[<-|[]]] k [= <-]; simpl; tauto.
    + exfalso. pose proof (proj1 Hnone eq_refl) as Hall.
      inversion Hall as [|? ? _ Hall']; subst.
      inversion Hall' as [|? ? Hb _]; subst. discriminate Hb.
Defined.

(** X3.  [combine] on a sequence whose [infos] are keyed by positions
    of the sequence returns; the substitute, which exists if and only if
    a child has one, is a sequence of the same length in which every
    position whose child has a substitute holds that substitute and
    every other position holds the element of the parent.  A substitute
    for a position that the sequence does not have raises [IndexError].
    Without a parent and without a given substitute [combine] raises
    [AssertionError], even when there is nothing to combine; a given
    substitute is taken as it is, whatever the children carry. *)
Theorem X3_combine_sequence_and_edges :
  (forall items infos target_info,
      Forall (fun ki => exists j, fst ki = KIdx j /\ j < List.length items)
             infos ->
      NoDup (map fst infos) ->
      exists i,
        combine infos (Some (VListConfig items)) target_info None = Ok i /\
        (deterministic_config i = None <->
         Forall (fun ki => deterministic_config (snd ki) = None) infos) /\
        forall d, deterministic_config i = Some d ->
          exists l',
            d = VListConfig l' /\
            List.length l' = List.length items /\
            forall j,
              nth_error l' j
              = match dict_get Key_eqb (KIdx j) infos with
                | Some ci =>
                    match deterministic_config ci with
                    | Some c => Some c
                    | None => nth_error items j
                    end
                | None => nth_error items j
                end) /\
  (forall items pre j ci post c target_info,
      Forall (fun ki => exists j, fst ki = KIdx j /\ j < List.length items)
             pre ->
      deterministic_config ci = Some c ->
      List.length items <= j ->
      combine (pre ++ (KIdx j, ci) :: post) (Some (VListConfig items))
        target_info None
      = Err IndexError) /\
  (forall infos target_info,
      combine infos None target_info None
      = Err (AssertionError "parent_config is required")) /\
  (forall infos parent_config target_info d,
      exists i,
        combine infos parent_config target_info (Some d) = Ok i /\
        deterministic_config i = Some d).
Proof.
  split; [|split; [|split]].
  - intros items infos target_info Hkeys Hnd.
    destruct (combine_substitute_sequence items infos None Hkeys Hnd)
      as (r & Hr & Hnone & Hsome); [discriminate|].
    unfold combine. simpl in Hr. rewrite Hr.
    eexists. split; [reflexivity|]. cbn [deterministic_config].
    split.
    + destruct r; simpl.
      * split; [discriminate|]. intros H.
        assert (E : Some l = None)
          by (apply Hnone; split; [reflexivity | exact H]).
        discriminate.
      * split; [|reflexivity]. intros _.
        apply (proj1 Hnone). reflexivity.
    + intros d Hd. destruct r as [l'|]; [|discriminate].
      injection Hd as <-. exists l'. split; [reflexivity|].
      exact (Hsome l' eq_refl).
  - intros items pre j ci post c target_info Hpre Hc Hj.
    pose proof (combine_substitute_index_error items pre j ci post c None
                  Hpre) as H.
    simpl in H. unfold combine. rewrite H; try assumption;
      [reflexivity | discriminate].
  - intros infos target_info. reflexivity.
  - intros infos parent_config target_info d. unfold combine.
    eexists. split; reflexivity.
Qed.

(** X3, witness: the second of two elements has a substitute; a
    substitute for a third position raises. *)
Lemma X3_witness :
  let items := [VInt 1; VDictConfig [("_target_", VStr "g")]] in
  let child :=
    {| not_deterministic := true; cache_result := true;
       deterministic_config := Some (result_hash_config "h");
       time_target := Some 3%Z |} in
  (exists i l',
      combine [(KIdx 0, default_info); (KIdx 1, child)]
        (Some (VListConfig items)) None None = Ok i /\
      deterministic_config i = Some (VListConfig l') /\
      List.length l' = 2 /\
      nth_error l' 0 = Some (VInt 1) /\
      nth_error l' 1 = Some (result_hash_config "h")) /\
  combine [(KIdx 0, default_info); (KIdx 2, child)]
    (Some (VListConfig items)) None None = Err IndexError.
Proof.
  intros items child.
  destruct X3_combine_sequence_and_edges as (Hseq & Herr & _ & _).
  split.
  - destruct (Hseq items [(KIdx 0, default_info); (KIdx 1, child)] None)
      as (i & Hi & Hnone & Hsome).
    + repeat constructor; eexists; split; try reflexivity; simpl; lia.
    + repeat constructor; simpl; intuition discriminate.
    + destruct (deterministic_config i) as [d|] eqn:Hd.
      * destruct (Hsome d eq_refl) as (l' & -> & Hlen & Hnth).
        exists i, l'. split; [exact Hi|]. split; [exact Hd|].
        split; [exact Hlen|].
        split; rewrite Hnth; reflexivity.
      * exfalso. pose proof (proj1 Hnone eq_refl) as Hall.
        inversion Hall as [|? ? _ Hall']; subst.
        inversion Hall' as [|? ? Hb _]; subst. discriminate Hb.
  - apply (Herr items [(KIdx 0, default_info)] 2 child [] 
             (result_hash_config "h") None).
    + repeat constructor. eexists. split; [reflexivity | simpl; lia].
    + reflexivity.
    + simpl. lia.
Defined.

(* ================================================================= *)
(** ** What the engine stores and what it passes to the targets *)

(** A second rule of the engine, for invariants of the state that
    depend on whether a cache is used, on what is stored and on the
    keyword arguments of the calls. *)
Section CallRule.
Variable World : Type.
Variable resolve : Value -> option (Target World).
Variable joblib_hash : Value -> string.
Variable cache : bool.

Variable Inv : State World -> Prop.
Variable Good : Value -> Prop.
Variable Conv : Value -> Prop.
Variable E : Exception -> State World -> Prop.

Hypothesis Good_items : forall l, Good (VListConfig l) -> Forall Good l.
Hypothesis Good_entries :
  forall d, Good (VDictConfig d) -> Forall (fun kv => Good (snd kv)) d.
Hypothesis Conv_override :
  forall d c, Good (VDictConfig d) -> Conv c -> Conv (effective_convert d c).
Hypothesis Inv_store :
  forall s key r,
    cache = true -> cache_result (info r) = true ->
    time_target (info r) <> None ->
    Inv s -> Inv (after_store s key r).
Hypothesis Inv_call :
  forall s node args kwargs v t w c,
    Good node -> Conv c ->
    Forall (fun kv => exists x, snd kv = _convert_node x c) kwargs ->
    Inv s -> Inv (after_call s node args kwargs (Returned v t) w).
Hypothesis E_call :
  forall s node args kwargs w p c name,
    Good node -> Conv c ->
    Forall (fun kv => exists x, snd kv = _convert_node x c) kwargs ->
    Inv s ->
    E (TargetRaised (error_instantiating name p))
      (after_call s node args kwargs (Raised p) w).
Hypothesis E_other :
  forall s e, Inv s -> (forall p, e <> TargetRaised p) -> E e s.

Local Abbreviation keeps rec_call :=
  (fun v : Value =>
     forall s, Inv s ->
       hoare (rec_call v) s
         (fun (_ : InstantiatedNode) (s' : State World) => Inv s') E).

Lemma instantiate_items_keeps :
  forall rec_call items,
    Forall (keeps rec_call) items ->
    forall s, Inv s ->
      hoare (instantiate_items rec_call items) s (fun _ s' => Inv s') E.
Proof.
  intros rec_call items H. induction H as [|item items Hx Hl IH]; intros s Hs.
  - simpl. apply hoare_ret. exact Hs.
  - simpl. apply hoare_bind.
    eapply hoare_weaken; [apply Hx; exact Hs | | auto].
    intros n s1 Hs1. apply hoare_bind.
    eapply hoare_weaken; [apply IH; exact Hs1 | | auto].
    intros ns s2 Hs2. apply hoare_ret. exact Hs2.
Qed.

Lemma instantiate_entries_keeps :
  forall rec_call entries,
    Forall (fun kv => keeps rec_call (snd kv)) entries ->
    forall acc s, Inv s ->
      hoare (instantiate_entries rec_call entries acc) s
        (fun _ s' => Inv s') E.
Proof.
  intros rec_call entries H.
  induction H as [|[key value] entries Hx Hl IH]; intros acc s Hs.
  - simpl. apply hoare_ret. exact Hs.
  - simpl. apply hoare_bind.
    eapply hoare_weaken; [apply Hx; exact Hs | | auto].
    intros n s1 Hs1. apply IH. exact Hs1.
Qed.

Lemma instantiate_kwargs_keeps :
  forall rec_call recursive convert entries,
    Forall (fun kv => keeps rec_call (snd kv)) entries ->
    forall acc s, Inv s ->
      Forall (fun kv => exists x, snd kv = _convert_node x convert)
             (fst acc) ->
      hoare (instantiate_kwargs rec_call recursive convert entries acc) s
        (fun r s' =>
           Inv s' /\
           Forall (fun kv => exists x, snd kv = _convert_node x convert)
                  (fst r)) E.
Proof.
  intros rec_call recursive convert entries H.
  induction H as [|[key value] entries Hx Hl IH]; intros acc s Hs Hacc.
  - simpl. apply hoare_ret. split; assumption.
  - simpl. destruct (excluded key); [apply IH; assumption|].
    destruct recursive.
    + apply hoare_bind.
      eapply hoare_weaken; [apply Hx; exact Hs | | auto].
      intros n s1 Hs1. apply IH; [exact Hs1|]. simpl.
      apply (@Forall_dict_set string Value String.eqb
               (fun v => exists x, v = _convert_node x convert));
        [exact Hacc | eexists; reflexivity].
    + apply IH; [exact Hs|]. simpl.
      apply (@Forall_dict_set string Value String.eqb
               (fun v => exists x, v = _convert_node x convert));
        [exact Hacc | eexists; reflexivity].
Qed.

Lemma store_result_keeps :
  forall node cache_key result s,
    time_target (info result) <> None ->
    Inv s ->
    hoare (store_result cache node cache_key result) s
          (fun _ s' => Inv s') E.
Proof.
  intros node cache_key result s Ht Hs. unfold store_result.
  destruct (cache && cache_result (info result)) eqn:G;
    [|apply hoare_ret; exact Hs].
  apply andb_prop in G. destruct G as [Hc Hr].
  apply hoare_bind. unfold hoare at 1, cache_setitem.
  destruct (config_eqb cache_key node) eqn:K; simpl.
  - apply hoare_ret. apply Inv_store; assumption.
  - unfold hoare, cache_setitem. apply Inv_store; try assumption.
    apply Inv_store; assumption.
Qed.

Lemma call_and_store_keeps :
  forall entries target ti args kwargs infos cache_key result_info convert s,
    Good (VDictConfig entries) -> Conv convert ->
    Forall (fun kv => exists x, snd kv = _convert_node x convert) kwargs ->
    Inv s ->
    hoare (call_and_store joblib_hash (VDictConfig entries) target ti args
             kwargs infos cache cache_key result_info) s
          (fun _ s' => Inv s') E.
Proof.
  intros entries target ti args kwargs infos cache_key result_info convert s
         HG Hconv Hkw Hs.
  unfold call_and_store. apply hoare_bind. unfold hoare at 1, _call_target.
  destruct (call_body target args kwargs (st_world s)) as [[v t|p] w];
    [|eapply E_call; eassumption].
  apply hoare_bind. apply hoare_lift.
  destruct (complete_info joblib_hash ti infos result_info v t)
    as [i|e] eqn:C.
  - apply hoare_bind.
    eapply hoare_weaken;
      [apply store_result_keeps; [|eapply Inv_call; eassumption] | | auto].
    + simpl. unfold complete_info in C.
      destruct (match result_info with
                | Some i0 => Ok i0
                | None => _
                end) as [i0|]; [|discriminate].
      injection C as <-. discriminate.
    + intros u s2 Hs2. apply hoare_ret. exact Hs2.
  - apply E_other; [eapply Inv_call; eassumption|].
    intros p. unfold complete_info in C.
    destruct result_info as [i0|]; [discriminate|].
    destruct (combine _ _ _ _) eqn:C0; [discriminate|].
    injection C as <-. eapply combine_not_raised. exact C0.
Qed.

Lemma instantiate_target_keeps :
  forall rec_call entries args convert recursive s,
    Good (VDictConfig entries) -> Conv convert ->
    Forall (fun kv => keeps rec_call (snd kv)) entries ->
    Inv s ->
    hoare (instantiate_target resolve joblib_hash rec_call
             (VDictConfig entries) entries args convert recursive cache) s
          (fun _ s' => Inv s') E.
Proof.
  intros rec_call entries args convert recursive s HG Hconv Hch Hs.
  unfold instantiate_target.
  apply hoare_bind. unfold hoare at 1. rewrite cache_lookup_eq.
  destruct (if cache
            then InMemoryCache.getitem (st_store s) (VDictConfig entries)
            else None) as [n|];
    [apply hoare_ret; exact Hs|].
  apply hoare_bind. unfold _resolve_target.
  destruct (str_get "_target_" entries) as [tv|];
    [|apply hoare_raise; apply E_other; [exact Hs | discriminate]].
  destruct (resolve tv) as [target|];
    [|destruct tv; apply hoare_raise; apply E_other;
      solve [exact Hs | discriminate]].
  apply hoare_ret. apply hoare_bind.
  eapply hoare_weaken;
    [apply instantiate_kwargs_keeps; [exact Hch | exact Hs | constructor]
    | | auto].
  intros [kwargs infos] s1 [Hs1 Hkw]. simpl in Hkw.
  apply hoare_bind. unfold substitute_lookup.
  destruct (negb _).
  - apply hoare_bind. apply hoare_lift.
    destruct (combine _ _ _ _) as [i|e] eqn:C;
      [|apply E_other; [exact Hs1|];
        intros p; eapply combine_not_raised; exact C].
    destruct (deterministic_config i) as [d|].
    + apply hoare_bind. unfold hoare at 1. rewrite cache_lookup_eq.
      destruct (if cache then InMemoryCache.getitem (st_store s1) d else None)
        as [n|]; cbv beta iota delta [ret].
      * apply hoare_ret. exact Hs1.
      * eapply call_and_store_keeps; eassumption.
    + apply hoare_ret. eapply call_and_store_keeps; eassumption.
  - apply hoare_ret. eapply call_and_store_keeps; eassumption.
Qed.

(** Every evaluation keeps such an invariant. *)
Lemma engine_keeps :
  forall node,
    Good node ->
    forall args convert recursive s,
      Conv convert -> Inv s ->
      hoare (instantiate_node resolve joblib_hash node args convert
               recursive cache) s (fun _ s' => Inv s') E.
Proof.
  intros node. induction node using Value_nested_ind;
    intros HG args convert recursive st Hconv Hs;
    try (apply hoare_ret; exact Hs).
  - (* ListConfig *)
    simpl. destruct recursive;
      try (apply hoare_raise; apply E_other; [exact Hs | discriminate]).
    unfold instantiate_list. apply hoare_bind.
    eapply hoare_weaken;
      [apply instantiate_items_keeps; [|exact Hs] | | auto].
    + apply Good_items in HG. rewrite Forall_forall in *.
      intros item Hin s' Hs'. apply H; auto.
    + intros ns s1 Hs1. apply hoare_bind. apply hoare_lift.
      destruct (combine _ _ _ _) as [i|e] eqn:C.
      * destruct (is_ALL convert || is_PARTIAL convert);
          apply hoare_ret; exact Hs1.
      * apply E_other; [exact Hs1|].
        intros p. eapply combine_not_raised. exact C.
  - (* DictConfig *)
    simpl. destruct (effective_recursive entries recursive);
      try (apply hoare_raise; apply E_other; [exact Hs | discriminate]).
    assert (Hconv' : Conv (effective_convert entries convert))
      by (apply Conv_override; assumption).
    assert (Hch : forall r,
               Forall (fun kv => keeps
                         (fun value => instantiate_node resolve joblib_hash
                                         value []
                                         (effective_convert entries convert)
                                         r cache) (snd kv))
                      entries).
    { intros r. apply Good_entries in HG. rewrite Forall_forall in *.
      intros kv Hin s' Hs'. apply H; auto. }
    destruct (_is_target entries).
    + apply instantiate_target_keeps; auto.
    + unfold instantiate_dict. apply hoare_bind.
      eapply hoare_weaken;
        [apply instantiate_entries_keeps; [apply Hch | exact Hs] | | auto].
      intros [dict_items infos] s1 Hs1.
      apply hoare_bind. apply hoare_lift.
      destruct (combine _ _ _ _) as [i|e] eqn:C.
      * destruct (is_ALL _ || is_PARTIAL _); apply hoare_ret; exact Hs1.
      * apply E_other; [exact Hs1|].
        intros p. eapply combine_not_raised. exact C.
Qed.
End CallRule.


Section Disabled.
Variable World : Type.
Variable resolve : Value -> option (Target World).
Variable joblib_hash : Value -> string.

(** The store of [s0] is untouched and only calls were logged. *)
Local Abbreviation only_calls s0 :=
  (fun s' : State World =>
     st_store s' = st_store s0 /\
     exists evs, st_log s' = st_log s0 ++ evs /\ Forall event_is_call evs).

Lemma only_calls_call :
  forall (s0 s : State World) node args kwargs outcome w,
    only_calls s0 s ->
    only_calls s0 (after_call s node args kwargs outcome w).
Proof.
  intros s0 s node args kwargs outcome w [Hst (evs & Hl & Hev)]. simpl.
  split; [exact Hst|].
  exists (evs ++ [ECall node args kwargs outcome]).
  rewrite Hl, app_assoc. split; [reflexivity|].
  apply Forall_app. split; [exact Hev | repeat constructor].
Qed.

Lemma disabled_only_calls :
  forall node args convert recursive (s : State World),
    only_calls s (snd (instantiate_node resolve joblib_hash node args
                         convert recursive false s)).
Proof.
  intros node args convert recursive s.
  assert (H :
    hoare (instantiate_node resolve joblib_hash node args convert recursive
             false) s
          (fun _ s' => only_calls s s') (fun _ s' => only_calls s s')).
  { apply (@engine_keeps World resolve joblib_hash false (only_calls s)
             (fun _ => True) (fun _ => True) (fun _ s' => only_calls s s'));
      auto.
    - intros l _. apply Forall_forall. intros; exact I.
    - intros d _. apply Forall_forall. intros; exact I.
    - intros; discriminate.
    - intros. apply only_calls_call. assumption.
    - intros. apply only_calls_call. assumption.
    - split; [reflexivity|]. exists []. rewrite app_nil_r.
      split; [reflexivity | constructor]. }
  unfold hoare in H.
  destruct (instantiate_node resolve joblib_hash node args convert recursive
              false s) as [[n|e] s']; exact H.
Qed.

(** X4.  Without a cache ([cache=None] in [instantiate_node], the
    string ["DISABLED"] in [instantiate]) an evaluation writes nothing:
    whatever the outcome, the store is the one it started with and the
    events it logged are calls of targets. *)
Theorem X4_disabled_cache_writes_nothing :
  (forall node args convert recursive (s : State World),
      let s' := snd (instantiate_node resolve joblib_hash node args
                       convert recursive false s) in
      st_store s' = st_store s /\
      Forall event_is_call (new_events s s')) /\
  (forall config args (s : State World),
      let s' := snd (instantiate resolve joblib_hash config args
                       CacheDisabled s) in
      st_store s' = st_store s /\
      Forall event_is_call (new_events s s')).
Proof.
  assert (Hnode :
    forall node args convert recursive (s : State World),
      let s' := snd (instantiate_node resolve joblib_hash node args
                       convert recursive false s) in
      st_store s' = st_store s /\
      Forall event_is_call (new_events s s')).
  { intros node args convert recursive s. cbv zeta.
    destruct (disabled_only_calls node args convert recursive s)
      as [Hst (evs & Hl & Hev)].
    split; [exact Hst|].
    rewrite (new_events_app World s _ evs Hl). exact Hev. }
  split; [exact Hnode|].
  intros config args s. cbv zeta.
  assert (Hsame :
    st_store s = st_store s /\ Forall event_is_call (new_events s s))
    by (split; [reflexivity | rewrite new_events_refl; constructor]).
  destruct config; try exact Hsame; unfold instantiate, bind;
    match goal with
    | |- context [instantiate_node ?r ?j ?n ?a ?c ?rc false s] =>
        pose proof (Hnode n a c rc s) as H; cbv zeta in H;
        destruct (instantiate_node r j n a c rc false s) as [[n0|e] s']
    end; exact H.
Qed.
End Disabled.

Section Stored.
Variable World : Type.
Variable resolve : Value -> option (Target World).
Variable joblib_hash : Value -> string.

(** Every entry of the store is timed, and so is every entry that was
    written since [s0]. *)
Local Abbreviation timed_since s0 :=
  (fun s' : State World =>
     Forall timed_entry (st_store s') /\
     exists evs,
       st_log s' = st_log s0 ++ evs /\
       Forall (fun ev => match ev with
                         | EStore key r => timed_entry (key, r)
                         | ECall _ _ _ _ => True
                         end) evs).

Lemma stored_entries_timed :
  forall node args convert recursive cache (s : State World),
    Forall timed_entry (st_store s) ->
    timed_since s (snd (instantiate_node resolve joblib_hash node args
                          convert recursive cache s)).
Proof.
  intros node args convert recursive cache s Hs.
  assert (H :
    hoare (instantiate_node resolve joblib_hash node args convert recursive
             cache) s
          (fun _ s' => timed_since s s') (fun _ s' => timed_since s s')).
  { apply (@engine_keeps World resolve joblib_hash cache (timed_since s)
             (fun _ => True) (fun _ => True) (fun _ s' => timed_since s s'));
      auto.
    - intros l _. apply Forall_forall. intros; exact I.
    - intros d _. apply Forall_forall. intros; exact I.
    - intros s1 key r _ Hc Ht [Hst (evs & Hl & Hev)]. simpl. split.
      + apply (@Forall_setitem InstantiatedNode
                 (fun n => cache_result (info n) = true /\
                           time_target (info n) <> None));
          [exact Hst | split; assumption].
      + exists (evs ++ [EStore key r]). rewrite Hl, app_assoc.
        split; [reflexivity|]. apply Forall_app. split; [exact Hev|].
        constructor; [split; assumption | constructor].
    - intros s1 nd a k v t w c _ _ _ [Hst (evs & Hl & Hev)]. simpl.
      split; [exact Hst|].
      exists (evs ++ [ECall nd a k (Returned v t)]). rewrite Hl, app_assoc.
      split; [reflexivity|]. apply Forall_app.
      split; [exact Hev | repeat constructor].
    - intros s1 nd a k w p c name _ _ _ [Hst (evs & Hl & Hev)]. simpl.
      split; [exact Hst|].
      exists (evs ++ [ECall nd a k (Raised p)]). rewrite Hl, app_assoc.
      split; [reflexivity|]. apply Forall_app.
      split; [exact Hev | repeat constructor].
    - split; [exact Hs|]. exists []. rewrite app_nil_r.
      split; [reflexivity | constructor]. }
  unfold hoare in H.
  destruct (instantiate_node resolve joblib_hash node args convert recursive
              cache s) as [[n|e] s']; exact H.
Qed.

(** X5.  Whatever the engine writes into the cache is the result of a
    call that was timed and was to be cached: an entry written by an
    evaluation has [cache_result] true and a [time_target], and a cache
    all of whose entries are such is still such a cache after any
    evaluation, whatever its outcome. *)
Theorem X5_stored_entries_are_timed :
  forall node args convert recursive cache (s : State World),
    Forall timed_entry (st_store s) ->
    let s' := snd (instantiate_node resolve joblib_hash node args convert
                     recursive cache s) in
    Forall timed_entry (st_store s') /\
    forall key r,
      In (EStore key r) (new_events s s') ->
      cache_result (info r) = true /\ time_target (info r) <> None.
Proof.
  intros node args convert recursive cache s Hs. cbv zeta.
  destruct (stored_entries_timed node args convert recursive cache s Hs)
    as [Hst (evs & Hl & Hev)].
  split; [exact Hst|].
  intros key r Hin. rewrite (new_events_app World s _ evs Hl) in Hin.
  rewrite Forall_forall in Hev. exact (Hev _ Hin).
Qed.
End Stored.

(** X5, witness: the entries that the consumer of a random source
    leaves in a fresh cache. *)
Lemma X5_witness :
  let s' := snd (Bench.run Examples.consumer_of_random (Bench.fresh [7%Z])) in
  List.length (st_store s') = 3 /\
  Forall timed_entry (st_store s').
Proof.
  intros s'. split; [vm_compute; reflexivity|].
  apply (X5_stored_entries_are_timed Bench.World Bench.resolve
           Bench.joblib_hash Examples.consumer_of_random [] (VStr "none")
           (VBool true) true (Bench.fresh [7%Z])).
  constructor.
Defined.

Section Converted.
Variable World : Type.
Variable resolve : Value -> option (Target World).
Variable joblib_hash : Value -> string.

Lemma _convert_node_plain :
  forall x c, is_ALL c = true -> is_config (_convert_node x c) = false.
Proof.
  intros x c Hc. unfold _convert_node. rewrite Hc.
  destruct (is_config x) eqn:Hx; [|exact Hx].
  destruct x; try discriminate; reflexivity.
Qed.

Local Abbreviation plain_since s0 :=
  (fun s' : State World =>
     exists evs, st_log s' = st_log s0 ++ evs /\ Forall plain_kwargs evs).

Lemma plain_since_call :
  forall (s0 s : State World) node args kwargs outcome w c,
    is_ALL c = true ->
    Forall (fun kv => exists x, snd kv = _convert_node x c) kwargs ->
    plain_since s0 s ->
    plain_since s0 (after_call s node args kwargs outcome w).
Proof.
  intros s0 s node args kwargs outcome w c Hc Hkw (evs & Hl & Hev).
  exists (evs ++ [ECall node args kwargs outcome]). simpl.
  rewrite Hl, app_assoc. split; [reflexivity|].
  apply Forall_app. split; [exact Hev|].
  constructor; [|constructor]. simpl.
  eapply Forall_impl; [|exact Hkw].
  intros kv [x ->]. apply _convert_node_plain. exact Hc.
Qed.

(** X6.  When the conversion mode is [all], at the top and wherever a
    node of the tree sets [_convert_], no target is ever handed an
    OmegaConf container as a keyword argument: in every call that an
    evaluation logs, whatever its outcome, each keyword argument is
    something else than a [DictConfig] or [ListConfig]. *)
Theorem X6_converted_keyword_arguments :
  forall node args convert recursive cache (s : State World),
    converting_all node = true ->
    is_ALL convert = true ->
    let s' := snd (instantiate_node resolve joblib_hash node args convert
                     recursive cache s) in
    forall n a kwargs outcome,
      In (ECall n a kwargs outcome) (new_events s s') ->
      Forall (fun kv => is_config (snd kv) = false) kwargs.
Proof.
  intros node args convert recursive cache s Hnode Hconv. cbv zeta.
  assert (H :
    hoare (instantiate_node resolve joblib_hash node args convert recursive
             cache) s
          (fun _ s' => plain_since s s') (fun _ s' => plain_since s s')).
  { apply (@engine_keeps World resolve joblib_hash cache (plain_since s)
             (fun v => converting_all v = true) (fun c => is_ALL c = true)
             (fun _ s' => plain_since s s')); auto.
    - intros l Hl. simpl in Hl. apply Forall_forall.
      rewrite forallb_forall in Hl. exact Hl.
    - intros d Hd. simpl in Hd. apply andb_prop in Hd.
      apply Forall_forallb_entries. exact (proj2 Hd).
    - intros d c Hd Hc. simpl in Hd. apply andb_prop in Hd.
      destruct Hd as [Hd _]. unfold effective_convert.
      destruct (str_get "_convert_" d); assumption.
    - intros s1 key r _ _ _ (evs & Hl & Hev).
      exists (evs ++ [EStore key r]). simpl. rewrite Hl, app_assoc.
      split; [reflexivity|]. apply Forall_app.
      split; [exact Hev | repeat constructor].
    - intros. eapply plain_since_call; eassumption.
    - intros. eapply plain_since_call; eassumption.
    - exists []. rewrite app_nil_r. split; [reflexivity | constructor]. }
  unfold hoare in H.
  intros n a kwargs outcome Hin.
  destruct (instantiate_node resolve joblib_hash node args convert recursive
              cache s) as [[n0|e] s']; simpl in Hin;
    destruct H as (evs & Hl & Hev);
    rewrite (new_events_app World s _ evs Hl) in Hin;
    rewrite Forall_forall in Hev; exact (Hev _ Hin).
Qed.
End Converted.

(** X6, witness: a target whose argument is a mapping, in mode [all]. *)
Lemma X6_witness :
  let node :=
    Bench.call "wrap" [("y", VDictConfig [("p", VListConfig [VInt 1])])] in
  let s' := snd (instantiate_node Bench.resolve Bench.joblib_hash node []
                   (VStr "all") (VBool true) true (Bench.fresh [])) in
  new_events (Bench.fresh []) s' <> [] /\
  forall n a kwargs outcome,
    In (ECall n a kwargs outcome) (new_events (Bench.fresh []) s') ->
    Forall (fun kv => is_config (snd kv) = false) kwargs.
Proof.
  intros node s'. split; [vm_compute; discriminate|].
  apply (X6_converted_keyword_arguments Bench.World Bench.resolve
           Bench.joblib_hash node [] (VStr "all") (VBool true) true
           (Bench.fresh [])); reflexivity.
Defined.

(* ================================================================= *)
(** ** Configurations without targets *)

Lemma str_contains_get :
  forall (V : Type) k (d : list (string * V)),
    str_contains k d = false -> str_get k d = None.
Proof.
  intros V k d H. unfold str_contains, str_get in *.
  rewrite dict_contains_get in H.
  destruct (dict_get String.eqb k d); [discriminate | reflexivity].
Qed.

Lemma str_set_absent :
  forall (V : Type) k (v : V) d,
    str_contains k d = false -> str_set k v d = d ++ [(k, v)].
Proof.
  intros V k v d. unfold str_contains, str_set.
  induction d as [|[k0 v0] d IH]; simpl; [reflexivity|].
  destruct (String.eqb k0 k); [discriminate|].
  intros H. rewrite IH by exact H. reflexivity.
Qed.

Lemma str_contains_app :
  forall (V : Type) k (d1 d2 : list (string * V)),
    str_contains k (d1 ++ d2) = str_contains k d1 || str_contains k d2.
Proof.
  intros V k d1 d2. unfold str_contains.
  induction d1 as [|[k0 v0] d1 IH]; simpl; [reflexivity|].
  destruct (String.eqb k0 k); [reflexivity | exact IH].
Qed.

Lemma str_contains_map :
  forall k (f : Value -> Value) (d : list (string * Value)),
    str_contains k (map (fun kv => let '(k0, x) := kv in (k0, f x)) d)
    = str_contains k d.
Proof.
  intros k f d. unfold str_contains.
  induction d as [|[k0 v0] d IH]; simpl; [reflexivity|].
  destruct (String.eqb k0 k); [reflexivity | exact IH].
Qed.

Lemma OmegaConf_create_data_only :
  forall v, data_only v = true -> OmegaConf_create v = v.
Proof.
  induction v using Value_nested_ind; simpl; intros Hv;
    try reflexivity; try discriminate.
  - f_equal. rewrite forallb_forall in Hv.
    induction H as [|x l Hx Hl IH]; [reflexivity|]. simpl.
    rewrite Hx by (apply Hv; left; reflexivity).
    rewrite IH by (intros y Hy; apply Hv; right; exact Hy). reflexivity.
  - f_equal. apply andb_prop in Hv. destruct Hv as [_ Hv].
    apply Forall_forallb_entries in Hv.
    induction H as [|[k x] l Hx Hl IH]; [reflexivity|]. simpl.
    inversion Hv as [|? ? Hvx Hvl]; subst. simpl in Hx, Hvx.
    rewrite Hx by exact Hvx. rewrite IH by exact Hvl. reflexivity.
Qed.

Lemma combine_all_default :
  forall infos parent,
    Forall (fun ki => snd ki = default_info) infos ->
    combine infos (Some parent) None None = Ok default_info.
Proof.
  intros infos parent H. unfold combine.
  rewrite combine_substitute_absent
    by (eapply Forall_impl; [|exact H]; intros ki ->; reflexivity).
  rewrite app_nil_r.
  replace (forallb cache_result (map snd infos)) with true; [reflexivity|].
  symmetry. apply forallb_forall. intros i Hi.
  apply in_map_iff in Hi. destruct Hi as (ki & <- & Hin).
  rewrite Forall_forall in H. rewrite (H ki Hin). reflexivity.
Qed.

Section DataOnly.
Variable World : Type.
Variable resolve : Value -> option (Target World).
Variable joblib_hash : Value -> string.

(** [rec_call] returns [f v] with the default info and leaves the
    state as it is. *)
Local Abbreviation returns_as rec_call f :=
  (fun v : Value =>
     forall s : State World, rec_call v s = (Ok (mkNode (f v) default_info), s)).

Lemma instantiate_items_data :
  forall rec_call (f : Value -> Value) items,
    Forall (returns_as rec_call f) items ->
    forall s : State World,
      instantiate_items rec_call items s
      = (Ok (map (fun v => mkNode (f v) default_info) items), s).
Proof.
  intros rec_call f items H. induction H as [|x l Hx Hl IH]; intros s.
  - reflexivity.
  - simpl. unfold bind. rewrite Hx, IH. reflexivity.
Qed.

Lemma instantiate_entries_data :
  forall rec_call (f : Value -> Value) entries,
    Forall (fun kv => returns_as rec_call f (snd kv)) entries ->
    distinct_keys entries = true ->
    forall acc (s : State World),
      Forall (fun kv => str_contains (fst kv) (fst acc) = false) entries ->
      Forall (fun ki => snd ki = default_info) (snd acc) ->
      exists infos,
        instantiate_entries rec_call entries acc s
        = (Ok (fst acc
               ++ map (fun kv => let '(k, x) := kv in (k, f x)) entries,
               infos), s) /\
        Forall (fun ki => snd ki = default_info) infos.
Proof.
  intros rec_call f entries H.
  induction H as [|[k x] l Hx Hl IH]; intros Hd acc s Hfresh Hacc.
  - exists (snd acc). simpl. rewrite app_nil_r. destruct acc.
    split; [reflexivity | exact Hacc].
  - simpl in Hd. apply andb_prop in Hd. destruct Hd as [Hk Hd].
    apply negb_true_iff in Hk.
    inversion Hfresh as [|? ? Hkacc Hfresh']; subst. simpl in Hkacc, Hx.
    simpl. unfold bind. rewrite Hx. cbn [instance info].
    destruct (IH Hd
                (str_set k (f x) (fst acc),
                 dict_set Key_eqb (KStr k) default_info (snd acc)) s)
      as (infos & Hrun & Hinfos).
    + cbn [fst]. rewrite (str_set_absent _ k (f x) (fst acc) Hkacc).
      apply Forall_forall. intros [k' x'] Hin. cbn [fst].
      rewrite str_contains_app. rewrite Forall_forall in Hfresh'.
      pose proof (Hfresh' (k', x') Hin) as Hf. cbn [fst] in Hf.
      rewrite Hf. simpl.
      destruct (String.eqb k k') eqn:E; [|reflexivity].
      apply String.eqb_eq in E. subst k'. exfalso.
      assert (Hc : str_contains k l = true).
      { clear - Hin. unfold str_contains.
        induction l as [|[k0 v0] l IHl]; [destruct Hin|]. simpl.
        destruct Hin as [Hin|Hin].
        - injection Hin as -> _. rewrite String.eqb_refl. reflexivity.
        - destruct (String.eqb k0 k); [reflexivity | apply IHl; exact Hin]. }
      congruence.
    + cbn [snd].
      apply (@Forall_dict_set Key InstantiatedNodeInfo Key_eqb
               (fun i => i = default_info)); [exact Hacc | reflexivity].
    + exists infos. split; [|exact Hinfos].
      rewrite Hrun. cbn [fst].
      rewrite (str_set_absent _ k (f x) (fst acc) Hkacc), <- app_assoc.
      reflexivity.
Qed.

(** X7.  In every conversion mode but [partial], a configuration that
    holds data only is returned as it is, or as plain lists and dicts
    in the mode [all], with the default info: no target is resolved or
    called, the cache is neither read nor written, the state does not
    change, whatever the positional arguments and the cache. *)
Theorem X7_data_only_configuration :
  forall node args convert r cache (s : State World),
    data_only node = true ->
    is_PARTIAL convert = false ->
    instantiate_node resolve joblib_hash node args convert (VBool r) cache s
    = (Ok (mkNode (if is_ALL convert then to_container node else node)
                  default_info), s).
Proof.
  intros node. induction node using Value_nested_ind;
    intros args convert r cache st Hd Hp;
    try (simpl; destruct (is_ALL convert); reflexivity);
    try discriminate.
  - (* ListConfig *)
    simpl in Hd. rewrite forallb_forall in Hd.
    cbn [instantiate_node]. unfold instantiate_list, bind.
    rewrite (instantiate_items_data _
               (fun v => if is_ALL convert then to_container v else v)).
    2:{ rewrite Forall_forall in *. intros item Hin s0.
        apply H; [exact Hin | apply Hd; exact Hin | exact Hp]. }
    rewrite !map_map. cbn [instance info].
    rewrite combine_all_default.
    2:{ apply (@Forall_combine_snd Key InstantiatedNodeInfo
                 (fun i => i = default_info)).
        apply Forall_forall.
        intros i Hi. apply in_map_iff in Hi.
        destruct Hi as (x & <- & _). reflexivity. }
    unfold lift. rewrite Hp, orb_false_r.
    destruct (is_ALL convert); cbn [ret to_container]; [reflexivity|].
    simpl. rewrite map_map. unfold ret. do 4 f_equal.
    rewrite <- (map_id items) at 2. apply map_ext_in.
    intros x Hx. apply OmegaConf_create_data_only. apply Hd. exact Hx.
  - (* DictConfig *)
    simpl in Hd.
    apply andb_prop in Hd. destruct Hd as [Hd Hch].
    apply andb_prop in Hd. destruct Hd as [Hd Hdist].
    apply andb_prop in Hd. destruct Hd as [Hd Hrec].
    apply andb_prop in Hd. destruct Hd as [Htarget Hconvert].
    apply negb_true_iff in Htarget, Hconvert.
    cbn [instantiate_node]. unfold effective_convert, effective_recursive.
    rewrite (str_contains_get _ _ _ Hconvert).
    assert (Hr : exists r', match str_get "_recursive_" entries with
                            | Some r0 => r0
                            | None => VBool r
                            end = VBool r').
    { destruct (str_get "_recursive_" entries) as [[]|];
        try discriminate; eexists; reflexivity. }
    destruct Hr as [r' ->]. unfold _is_target. rewrite Htarget.
    unfold instantiate_dict, bind.
    apply Forall_forallb_entries in Hch.
    destruct (instantiate_entries_data
                (fun value => instantiate_node resolve joblib_hash value []
                                convert (VBool r') cache)
                (fun v => if is_ALL convert then to_container v else v)
                entries) with (acc := (@nil (string * Value),
                                       @nil (Key * InstantiatedNodeInfo)))
                              (s := st)
      as (infos & Hrun & Hinfos).
    + rewrite Forall_forall in *. intros kv Hin s0.
      apply H; [exact Hin | apply Hch; exact Hin | exact Hp].
    + exact Hdist.
    + apply Forall_forall. intros; reflexivity.
    + constructor.
    + rewrite Hrun. cbn [fst app].
      rewrite (combine_all_default infos _ Hinfos).
      unfold lift. rewrite Hp, orb_false_r.
      destruct (is_ALL convert); cbn [ret to_container]; [reflexivity|].
      simpl. rewrite map_map. unfold ret. do 4 f_equal.
      rewrite <- (map_id entries) at 2. apply map_ext_in.
      intros [k x] Hx. f_equal. apply OmegaConf_create_data_only.
      rewrite Forall_forall in Hch. exact (Hch (k, x) Hx).
Qed.
End DataOnly.

(** X7, witness: a mapping of parameters in a fresh cache. *)
Lemma X7_witness :
  let node :=
    VDictConfig [("lr", VInt 3); ("layers", VListConfig [VInt 1; VInt 2]);
                 ("_recursive_", VBool false)] in
  Bench.run node (Bench.fresh [7%Z])
  = (Ok (mkNode node default_info), Bench.fresh [7%Z]).
Proof.
  intros node.
  apply (X7_data_only_configuration Bench.World Bench.resolve
           Bench.joblib_hash node [] (VStr "none") true true
           (Bench.fresh [7%Z])); reflexivity.
Defined.

(* ================================================================= *)
(** ** Errors that precede every evaluation *)

(** X8.  The checks of [instantiate_node] come in this order.  An
    object that is not an OmegaConf container is returned as it is,
    whatever [recursive] is.  For a container, a [_recursive_] flag that
    is not a bool raises [TypeError] before the cache is looked at: a
    node that is in the cache raises as well, and nothing changes.  A
    node whose target cannot be resolved, not found in the cache,
    raises before any of its arguments is evaluated, [ImportError] when
    the target is a string that cannot be located and
    [InstantiationException] when it is no string and no callable:
    nothing is called, nothing is stored. *)
Theorem X8_early_errors :
  forall (World : Type) (resolve : Value -> option (Target World))
         (joblib_hash : Value -> string) node args convert recursive cache
         (s : State World),
    (is_config node = false ->
     instantiate_node resolve joblib_hash node args convert recursive cache s
     = (Ok (mkNode node default_info), s)) /\
    (is_config node = true ->
     (forall b,
         match node with
         | VDictConfig entries => effective_recursive entries recursive
         | _ => recursive
         end <> VBool b) ->
     instantiate_node resolve joblib_hash node args convert recursive cache s
     = (Err (TypeError "_recursive_ flag must be a bool"), s)) /\
    (forall entries b tv,
        node = VDictConfig entries ->
        effective_recursive entries recursive = VBool b ->
        str_get "_target_" entries = Some tv ->
        resolve tv = None ->
        (if cache then InMemoryCache.getitem (st_store s) node else None)
        = None ->
        instantiate_node resolve joblib_hash node args convert recursive
          cache s
        = (Err match tv with
               | VStr _ => ImportError "Error loading module"
               | _ => InstantiationException "Unsupported target type"
               end, s)).
Proof.
  intros World resolve joblib_hash node args convert recursive cache s.
  split; [|split].
  - destruct node; try discriminate; intros _; reflexivity.
  - destruct node; try discriminate; intros _ Hr; simpl.
    + destruct recursive; try reflexivity. exfalso. eapply Hr. reflexivity.
    + destruct (effective_recursive entries recursive); try reflexivity.
      exfalso. eapply Hr. reflexivity.
  - intros entries b tv -> Hr Htv Hres Hmiss. simpl. rewrite Hr.
    unfold _is_target, str_contains. rewrite dict_contains_get.
    unfold str_get in Htv. rewrite Htv.
    unfold instantiate_target, bind. rewrite cache_lookup_eq, Hmiss.
    unfold _resolve_target, str_get. rewrite Htv, Hres.
    destruct tv; reflexivity.
Qed.

(** X8, witness: a cached node with a flag that is not a bool, a
    target that does not exist above an argument that would be called,
    and a target that is a number. *)
Lemma X8_witness :
  let s := snd (Bench.run (Bench.call "add" [("a", VInt 1)]) (Bench.fresh [])) in
  InMemoryCache.contains (st_store s) (Bench.call "add" [("a", VInt 1)])
  = true /\
  instantiate_node Bench.resolve Bench.joblib_hash
    (Bench.call "add" [("a", VInt 1)]) [] (VStr "none") (VStr "yes") true s
  = (Err (TypeError "_recursive_ flag must be a bool"), s) /\
  Bench.run (Bench.call "missing" [("x", Bench.call "add" [])]) s
  = (Err (ImportError "Error loading module"), s) /\
  Bench.run (VDictConfig [("_target_", VInt 5); ("x", Bench.call "add" [])]) s
  = (Err (InstantiationException "Unsupported target type"), s).
Proof.
  intros s. split; [vm_compute; reflexivity|]. split; [|split].
  - apply (X8_early_errors Bench.World Bench.resolve Bench.joblib_hash
             (Bench.call "add" [("a", VInt 1)]) [] (VStr "none") (VStr "yes")
             true s); [reflexivity | discriminate].
  - apply (proj2 (proj2
             (X8_early_errors Bench.World Bench.resolve Bench.joblib_hash
                (Bench.call "missing" [("x", Bench.call "add" [])]) []
                (VStr "none") (VBool true) true s))
             [("_target_", VStr "missing"); ("x", Bench.call "add" [])]
             true (VStr "missing")); reflexivity.
  - apply (proj2 (proj2
             (X8_early_errors Bench.World Bench.resolve Bench.joblib_hash
                (VDictConfig [("_target_", VInt 5);
                              ("x", Bench.call "add" [])]) []
                (VStr "none") (VBool true) true s))
             [("_target_", VInt 5); ("x", Bench.call "add" [])]
             true (VInt 5)); reflexivity.
Defined.

(* ================================================================= *)
(** ** More on dumping the cache *)

(** A name that ends in [.pkl] is not a name that ends in [.yaml]. *)
Lemma pkl_name_not_yaml :
  forall h1 h2 : string, (h1 ++ ".pkl")%string <> (h2 ++ ".yaml")%string.
Proof.
  intros h1 h2. revert h1.
  induction h2 as [|c2 h2 IH]; intros h1 H.
  - do 5 (destruct h1 as [|? h1]; [discriminate|];
          simpl in H; injection H as _ H).
    destruct h1; discriminate.
  - destruct h1 as [|c1 h1]; simpl in H.
    + injection H as _ H.
      do 3 (destruct h2 as [|? h2]; [discriminate|];
            simpl in H; injection H as _ H).
      destruct h2; discriminate.
    + injection H as _ H. exact (IH h1 H).
Qed.

Section DumpMore.
Import DumpableInMemoryCache.

Variable to_yaml : Value -> string.
Variable joblib_hash : Value -> string.
Variable pickle : InstantiatedNode -> string.
Variable verbose : bool.

(** The key file and the data file of a key. *)
Local Abbreviation key_file directory k :=
  (path_join directory (joblib_hash (VStr (to_yaml k)) ++ ".yaml")).
Local Abbreviation data_file directory k :=
  (path_join directory (joblib_hash (VStr (to_yaml k)) ++ ".pkl")).

Lemma path_join_inj :
  forall directory a b, path_join directory a = path_join directory b -> a = b.
Proof.
  intros directory a b H. unfold path_join in H.
  apply string_app_inv_head in H. simpl in H. injection H as H. exact H.
Qed.

Lemma str_contains_str_set :
  forall (V : Type) p q (c : V) d,
    str_contains p (str_set q c d) = String.eqb q p || str_contains p d.
Proof.
  intros V p q c d. unfold str_contains, str_set.
  induction d as [|[k0 v0] d IH]; simpl.
  - destruct (String.eqb q p); reflexivity.
  - destruct (String.eqb k0 q) eqn:E; simpl.
    + apply String.eqb_eq in E. subst k0.
      destruct (String.eqb q p); reflexivity.
    + destruct (String.eqb k0 p) eqn:E1; simpl.
      * rewrite orb_true_r. reflexivity.
      * exact IH.
Qed.

Lemma path_exists_write_file :
  forall fs p q c,
    path_exists (write_file fs q c) p = String.eqb q p || path_exists fs p.
Proof.
  intros fs p q c. unfold path_exists, write_file. cbn [fs_dirs fs_files].
  rewrite str_contains_str_set.
  destruct (existsb (String.eqb p) (fs_dirs fs)); simpl;
    [rewrite orb_true_r; reflexivity | reflexivity].
Qed.

(** What the loop of [dump] keeps: the directories, the paths that
    exist, and the files that no accepted entry names; without
    [overwrite], the key files that exist. *)
Lemma dump_loop_keeps :
  forall directory constraints overwrite store st,
    let st' :=
      fold_left
        (dump_entry to_yaml joblib_hash pickle verbose directory constraints
           overwrite) store st in
    fs_dirs (d_fs st') = fs_dirs (d_fs st) /\
    (forall p, path_exists (d_fs st) p = true ->
               path_exists (d_fs st') p = true) /\
    (forall p,
        str_get p (fs_files (d_fs st')) <> str_get p (fs_files (d_fs st)) ->
        exists k v,
          In (k, v) store /\ rejected constraints k v = false /\
          (p = key_file directory k \/ p = data_file directory k)) /\
    (overwrite = false ->
     forall h c,
       str_get (path_join directory (h ++ ".yaml")) (fs_files (d_fs st))
       = Some c ->
       str_get (path_join directory (h ++ ".yaml")) (fs_files (d_fs st'))
       = Some c) /\
    (forall k v,
        In (k, v) store -> rejected constraints k v = false ->
        path_exists (d_fs st') (key_file directory k) = true).
Proof.
  intros directory constraints overwrite store. cbv zeta.
  induction store as [|[k v] store IH]; intros st; cbn [fold_left].
  - split; [reflexivity|]. split; [auto|].
    split; [intros p H; exfalso; apply H; reflexivity|].
    split; [auto|]. intros k v [].
  - destruct (IH (dump_entry to_yaml joblib_hash pickle verbose directory
                    constraints overwrite st (k, v)))
      as (Hdirs & Hmono & Hchanged & Hkeep & Hexists).
    pose proof (dump_entry_eq to_yaml joblib_hash pickle verbose directory
                  constraints overwrite st k v) as Hstep.
    cbv zeta in Hstep.
    set (st1 := dump_entry to_yaml joblib_hash pickle verbose directory
                  constraints overwrite st (k, v)) in *.
    assert (Hfs :
      d_fs st1
      = if rejected constraints k v then d_fs st
        else if path_exists (d_fs st) (key_file directory k)
                && negb overwrite
             then d_fs st
             else write_file
                    (write_file (d_fs st) (key_file directory k) (to_yaml k))
                    (data_file directory k) (pickle v)).
    { destruct (rejected constraints k v);
        [|destruct (path_exists (d_fs st) _ && negb overwrite)];
        apply pair_equal_spec in Hstep; exact (proj1 Hstep). }
    clear Hstep.
    split; [|split; [|split; [|split]]].
    + rewrite Hdirs, Hfs.
      destruct (rejected constraints k v); [reflexivity|].
      destruct (path_exists (d_fs st) _ && negb overwrite); reflexivity.
    + intros p Hp. apply Hmono. rewrite Hfs.
      destruct (rejected constraints k v); [exact Hp|].
      destruct (path_exists (d_fs st) _ && negb overwrite); [exact Hp|].
      rewrite !path_exists_write_file, Hp, !orb_true_r. reflexivity.
    + intros p Hp.
      assert (Hdec : forall a b : option string, {a = b} + {a <> b})
        by (decide equality; apply string_dec).
      destruct (Hdec (str_get p (fs_files (d_fs st1)))
                     (str_get p (fs_files (d_fs st)))) as [Hsame|Hdiff].
      * destruct (Hchanged p) as (k' & v' & Hin & Hrej & Hp');
          [rewrite Hsame; exact Hp|].
        exists k', v'. split; [right; exact Hin | split; assumption].
      * exists k, v. split; [left; reflexivity|].
        rewrite Hfs in Hdiff.
        destruct (rejected constraints k v);
          [exfalso; apply Hdiff; reflexivity|].
        split; [reflexivity|].
        destruct (path_exists (d_fs st) _ && negb overwrite);
          [exfalso; apply Hdiff; reflexivity|].
        cbn [write_file fs_files] in Hdiff.
        destruct (string_dec p (data_file directory k)) as [E|E];
          [right; exact E|].
        destruct (string_dec p (key_file directory k)) as [E'|E'];
          [left; exact E'|].
        exfalso. apply Hdiff.
        rewrite !str_get_str_set_other by (intros X; congruence).
        reflexivity.
    + intros Hov h c Hc. apply (Hkeep Hov). rewrite Hfs.
      destruct (rejected constraints k v); [exact Hc|].
      destruct (path_exists (d_fs st) (key_file directory k)
                && negb overwrite) eqn:G; [exact Hc|].
      subst overwrite. rewrite andb_true_r in G.
      cbn [write_file fs_files].
      rewrite str_get_str_set_other.
      2:{ intros X. apply path_join_inj in X.
          exact (pkl_name_not_yaml _ _ X). }
      rewrite str_get_str_set_other; [exact Hc|].
      intros X. rewrite X in G.
      unfold path_exists in G. apply orb_false_elim in G.
      destruct G as [_ G]. unfold str_contains in G.
      rewrite dict_contains_get in G. unfold str_get in Hc.
      rewrite Hc in G. discriminate.
    + intros k' v' [Hin|Hin] Hrej.
      * injection Hin as <- <-. apply Hmono. rewrite Hfs, Hrej.
        destruct (path_exists (d_fs st) (key_file directory k)
                  && negb overwrite) eqn:G.
        -- apply andb_prop in G. exact (proj1 G).
        -- rewrite !path_exists_write_file, String.eqb_refl, orb_true_r.
           reflexivity.
      * apply (Hexists k' v' Hin Hrej).
Qed.
End DumpMore.

Section DumpTwice.
Import DumpableInMemoryCache.

Variable to_yaml : Value -> string.
Variable joblib_hash : Value -> string.
Variable pickle : InstantiatedNode -> string.
Variable verbose : bool.

Lemma makedirs_exists :
  forall fs directory,
    existsb (String.eqb directory) (fs_dirs (makedirs fs directory)) = true.
Proof.
  intros fs directory. unfold makedirs.
  destruct (existsb (String.eqb directory) (fs_dirs fs)) eqn:E; [exact E|].
  cbn [fs_dirs]. rewrite existsb_app. simpl.
  rewrite String.eqb_refl, orb_true_r. reflexivity.
Qed.

(** A loop over entries that are left out or whose key file exists
    writes nothing. *)
Lemma dump_loop_idle :
  forall directory constraints store st,
    (forall k v,
        In (k, v) store ->
        rejected constraints k v = true \/
        path_exists (d_fs st)
          (path_join directory (joblib_hash (VStr (to_yaml k)) ++ ".yaml"))
        = true) ->
    let st' :=
      fold_left
        (dump_entry to_yaml joblib_hash pickle verbose directory constraints
           false) store st in
    d_fs st' = d_fs st /\ n_dumped st' = n_dumped st.
Proof.
  intros directory constraints store. cbv zeta.
  induction store as [|[k v] store IH]; intros st H; cbn [fold_left].
  - split; reflexivity.
  - pose proof (dump_entry_eq to_yaml joblib_hash pickle verbose directory
                  constraints false st k v) as Hstep.
    cbv zeta in Hstep.
    assert (Hidle :
      (d_fs (dump_entry to_yaml joblib_hash pickle verbose directory
               constraints false st (k, v)),
       n_dumped (dump_entry to_yaml joblib_hash pickle verbose directory
                   constraints false st (k, v)))
      = (d_fs st, n_dumped st)).
    { rewrite Hstep. destruct (H k v (or_introl eq_refl)) as [-> | ->];
        [reflexivity|].
      destruct (rejected constraints k v); reflexivity. }
    apply pair_equal_spec in Hidle. destruct Hidle as [Hfs Hn].
    destruct (IH (dump_entry to_yaml joblib_hash pickle verbose directory
                    constraints false st (k, v))) as [Hfs' Hn'].
    + intros k' v' Hin. rewrite Hfs. apply H. right. exact Hin.
    + rewrite Hfs', Hn'. split; assumption.
Qed.

(** X9.  A dump without [overwrite] that follows a dump of the same
    store, into the same directory and under the same constraints, finds
    every entry left out or already there: it writes no file and reports
    that it dumped 0 entries. *)
Theorem X9_second_dump_writes_nothing :
  forall store directory constraints fs r fs1 log1,
    dump to_yaml joblib_hash pickle verbose store directory constraints
      false fs = (r, fs1, log1) ->
    exists log2,
      dump to_yaml joblib_hash pickle verbose store directory constraints
        false fs1
      = (VNone, fs1, log2 ++ [LogDumped 0 (List.length store) directory]).
Proof.
  intros store directory constraints fs r fs1 log1 H.
  unfold dump in H. apply pair_equal_spec in H. destruct H as [H _].
  apply pair_equal_spec in H. destruct H as [_ H].
  match type of H with
  | d_fs (fold_left _ _ ?st0) = _ =>
      destruct (dump_loop_keeps to_yaml joblib_hash pickle verbose directory
                  constraints false store st0)
        as (Hdirs & _ & _ & _ & Hexists)
  end.
  rewrite H in Hdirs, Hexists. cbn [d_fs] in Hdirs.
  assert (Hmk : makedirs fs1 directory = fs1).
  { unfold makedirs. rewrite Hdirs, makedirs_exists. reflexivity. }
  unfold dump. rewrite Hmk.
  match goal with
  | |- context [fold_left ?f store ?st0] =>
      destruct (dump_loop_idle directory constraints store st0) as [Hfs Hn];
      [intros k v Hin;
       destruct (rejected constraints k v) eqn:Hrej;
       [left; reflexivity | right; exact (Hexists k v Hin Hrej)]|];
      rewrite Hfs, Hn
  end.
  eexists. reflexivity.
Qed.

(** X10.  A dump changes no file other than the key file and the data
    file of the entries of the store that no constraint leaves out; and
    without [overwrite] a key file that exists keeps its content,
    whatever the store holds. *)
Theorem X10_dump_touches_its_files_only :
  forall store directory constraints overwrite fs r fs1 log,
    dump to_yaml joblib_hash pickle verbose store directory constraints
      overwrite fs = (r, fs1, log) ->
    (forall p,
        str_get p (fs_files fs1) <> str_get p (fs_files fs) ->
        exists k v,
          In (k, v) store /\ rejected constraints k v = false /\
          (p = path_join directory (joblib_hash (VStr (to_yaml k)) ++ ".yaml")
           \/
           p = path_join directory (joblib_hash (VStr (to_yaml k)) ++ ".pkl")))
    /\
    (overwrite = false ->
     forall h c,
       str_get (path_join directory (h ++ ".yaml")) (fs_files fs) = Some c ->
       str_get (path_join directory (h ++ ".yaml")) (fs_files fs1) = Some c).
Proof.
  intros store directory constraints overwrite fs r fs1 log H.
  unfold dump in H. apply pair_equal_spec in H. destruct H as [H _].
  apply pair_equal_spec in H. destruct H as [_ H].
  match type of H with
  | d_fs (fold_left _ _ ?st0) = _ =>
      destruct (dump_loop_keeps to_yaml joblib_hash pickle verbose directory
                  constraints overwrite store st0)
        as (_ & _ & Hchanged & Hkeep & _)
  end.
  rewrite H in Hchanged, Hkeep. cbn [d_fs] in Hchanged, Hkeep.
  assert (Hfiles : fs_files (makedirs fs directory) = fs_files fs)
    by (unfold makedirs; destruct (existsb _ _); reflexivity).
  rewrite Hfiles in Hchanged, Hkeep. split; assumption.
Qed.
End DumpTwice.

(** X9, witness: the same cache of one entry dumped twice. *)
Lemma X9_witness :
  let store := [(DumpExample.key, DumpExample.value)] in
  let first :=
    DumpableInMemoryCache.dump DumpExample.to_yaml DumpExample.joblib_hash
      DumpExample.pickle false store "cache" None false DumpExample.empty_fs in
  exists log2,
    DumpableInMemoryCache.dump DumpExample.to_yaml DumpExample.joblib_hash
      DumpExample.pickle false store "cache" None false (snd (fst first))
    = (VNone, snd (fst first),
       log2 ++ [DumpableInMemoryCache.LogDumped 0 1 "cache"]).
Proof.
  intros store first.
  apply (X9_second_dump_writes_nothing DumpExample.to_yaml
           DumpExample.joblib_hash DumpExample.pickle false store "cache"
           None DumpExample.empty_fs (fst (fst first)) (snd (fst first))
           (snd first)).
  reflexivity.
Defined.

(** X10, witness: a key file that is there keeps its content, and the
    entry is not written. *)
Lemma X10_witness :
  let fs :=
    DumpableInMemoryCache.mkFS ["cache"] [("cache/add.yaml", "earlier")] in
  let out :=
    DumpableInMemoryCache.dump DumpExample.to_yaml DumpExample.joblib_hash
      DumpExample.pickle false [(DumpExample.key, DumpExample.value)]
      "cache" None false fs in
  str_get "cache/add.yaml"
    (DumpableInMemoryCache.fs_files (snd (fst out))) = Some "earlier".
Proof.
  intros fs out.
  apply (proj2 (X10_dump_touches_its_files_only DumpExample.to_yaml
                  DumpExample.joblib_hash DumpExample.pickle false
                  [(DumpExample.key, DumpExample.value)] "cache" None false
                  fs (fst (fst out)) (snd (fst out)) (snd out) eq_refl)
           eq_refl "add" "earlier").
  reflexivity.
Defined.

(* ================================================================= *)
(** ** The constraints *)

Lemma existsb_Value_eqb_strings :
  forall t (l : list string),
    existsb (Value_eqb t) (map VStr l) = true <->
    exists s, t = VStr s /\ In s l.
Proof.
  intros t l. rewrite existsb_exists. split.
  - intros (x & Hin & Heq). apply in_map_iff in Hin.
    destruct Hin as (s & <- & Hin). apply Value_eqb_eq in Heq.
    exists s. split; assumption.
  - intros (s & -> & Hin). exists (VStr s).
    split; [apply in_map; exact Hin | apply Value_eqb_refl].
Qed.

(** X11.  The three constraints that [main] hands to [dump] let an
    entry through exactly when the target of its key is none of the
    excluded strings, its info is not marked as not deterministic, and
    its target was timed and ran for more than a second: an entry
    without [time_target] is left out, and so is one that took a second
    exactly.  [exclude_types_constraint] lets an entry through exactly
    when the type of its value is none of the excluded types. *)
Theorem X11_constraints_of_main :
  forall exclude entries v,
    (DumpableInMemoryCache.rejected (Some (main_constraints exclude))
       (VDictConfig entries) v = false <->
     (forall t, str_get "_target_" entries = Some (VStr t) ->
                ~ In t exclude) /\
     not_deterministic (info v) = false /\
     exists t, time_target (info v) = Some t /\ (1000000 < t)%Z) /\
    (forall exclude_types k,
        exclude_types_constraint exclude_types k v = None <->
        ~ In (type_of (instance v)) exclude_types).
Proof.
  intros exclude entries v. split.
  - unfold DumpableInMemoryCache.rejected, main_constraints.
    cbn [existsb]. rewrite orb_false_r, !orb_false_iff.
    unfold DumpableInMemoryCache.exclude_targets_constraint,
      DumpableInMemoryCache.not_deterministic_constraint,
      DumpableInMemoryCache.exclude_target_time_none_or_lesser_then.
    split.
    + intros (Ht & Hnd & Htime). split; [|split].
      * intros t Hget Hin. rewrite Hget in Ht.
        destruct (existsb (Value_eqb (VStr t)) (map VStr exclude)) eqn:E;
          [discriminate|].
        assert (X : existsb (Value_eqb (VStr t)) (map VStr exclude) = true)
          by (apply existsb_Value_eqb_strings; exists t;
              split; [reflexivity | exact Hin]).
        congruence.
      * destruct (not_deterministic (info v)); [discriminate | reflexivity].
      * destruct (time_target (info v)) as [t|]; [|discriminate].
        exists t. split; [reflexivity|].
        destruct (Z.leb t 1000000) eqn:E; [discriminate|].
        apply Z.leb_gt in E. exact E.
    + intros (Ht & Hnd & t & Htime & Hlt). split; [|split].
      * destruct (str_get "_target_" entries) as [tv|] eqn:Hget.
        -- destruct (existsb (Value_eqb tv) (map VStr exclude)) eqn:E;
             [|reflexivity].
           apply existsb_Value_eqb_strings in E.
           destruct E as (s & -> & Hin). exfalso.
           exact (Ht s eq_refl Hin).
        -- destruct (existsb (Value_eqb VNone) (map VStr exclude)) eqn:E;
             [|reflexivity].
           apply existsb_Value_eqb_strings in E.
           destruct E as (s & Hs & _). discriminate.
      * rewrite Hnd. reflexivity.
      * rewrite Htime. apply Z.leb_gt in Hlt. rewrite Hlt. reflexivity.
  - intros exclude_types k. unfold exclude_types_constraint.
    destruct (existsb (PyType_eqb (type_of (instance v))) exclude_types)
      eqn:E.
    + split; [discriminate|]. intros H. exfalso. apply H.
      apply existsb_exists in E. destruct E as (ty & Hin & Heq).
      destruct (type_of (instance v)), ty; try discriminate; exact Hin.
    + split; [|reflexivity]. intros _ Hin.
      assert (X : existsb (PyType_eqb (type_of (instance v))) exclude_types
                  = true).
      { apply existsb_exists. exists (type_of (instance v)).
        split; [exact Hin|]. destruct (type_of (instance v)); reflexivity. }
      congruence.
Qed.

(** X11, witness: a deterministic result that took two seconds. *)
Lemma X11_witness :
  let v :=
    mkNode (VInt 3)
      {| not_deterministic := false; cache_result := true;
         deterministic_config := None; time_target := Some 2000000%Z |} in
  DumpableInMemoryCache.rejected (Some (main_constraints ["random_source"]))
    (Bench.call "add" [("a", VInt 1)]) v = false.
Proof.
  intros v.
  apply (proj1 (X11_constraints_of_main ["random_source"]
                  [("_target_", VStr "add"); ("a", VInt 1)] v)).
  split; [|split].
  - intros t [= <-] [H|[]]. discriminate.
  - reflexivity.
  - exists 2000000%Z. split; [reflexivity | lia].
Defined.

(* ================================================================= *)
(** ** Loading what was dumped *)

Lemma string_app_assoc :
  forall a b c : string, ((a ++ b) ++ c)%string = (a ++ (b ++ c))%string.
Proof.
  induction a as [|x a IH]; intros b c; simpl; [reflexivity|].
  rewrite IH. reflexivity.
Qed.

Lemma string_length_app :
  forall a b : string,
    String.length (a ++ b) = String.length a + String.length b.
Proof.
  induction a as [|x a IH]; intros b; simpl; [reflexivity|].
  rewrite IH. reflexivity.
Qed.

Lemma string_app_inv_tail :
  forall a b s : string, (a ++ s)%string = (b ++ s)%string -> a = b.
Proof.
  induction a as [|x a IH]; intros b s H.
  - destruct b as [|y b]; [reflexivity|]. exfalso.
    apply (f_equal String.length) in H. simpl in H.
    rewrite string_length_app in H. lia.
  - destruct b as [|y b].
    + exfalso. apply (f_equal String.length) in H. simpl in H.
      rewrite string_length_app in H. lia.
    + simpl in H. injection H as -> H. f_equal. exact (IH b s H).
Qed.

Section GlobFacts.
Import DumpableInMemoryCache DumpableLoad.

Lemma strip_prefix_app :
  forall p s, strip_prefix p (p ++ s) = Some s.
Proof.
  induction p as [|a p IH]; intros s; simpl; [reflexivity|].
  rewrite Ascii.eqb_refl. apply IH.
Qed.

Lemma strip_prefix_sound :
  forall p s name, strip_prefix p s = Some name -> s = (p ++ name)%string.
Proof.
  induction p as [|a p IH]; intros s name H; simpl in H.
  - injection H as ->. reflexivity.
  - destruct s as [|b s]; [discriminate|].
    destruct (Ascii.eqb a b) eqn:E; [|discriminate].
    apply Ascii.eqb_eq in E. subst b. simpl. f_equal. apply IH. exact H.
Qed.

Lemma strip_prefix_path_join :
  forall directory name,
    strip_prefix (directory ++ "/") (path_join directory name) = Some name.
Proof.
  intros directory name. unfold path_join.
  rewrite <- string_app_assoc. apply strip_prefix_app.
Qed.

Lemma outside_not_path_join :
  forall directory p name,
    outside directory p = true -> p <> path_join directory name.
Proof.
  intros directory p name H ->. unfold outside in H.
  rewrite strip_prefix_path_join in H. discriminate.
Qed.

Lemma outside_directory : forall directory, outside directory directory = true.
Proof.
  intros directory. unfold outside.
  destruct (strip_prefix (directory ++ "/") directory) as [name|] eqn:E;
    [|reflexivity].
  apply strip_prefix_sound in E. apply (f_equal String.length) in E.
  rewrite !string_length_app in E. simpl in E. lia.
Qed.

Lemma no_slash_app :
  forall a b, no_slash (a ++ b) = no_slash a && no_slash b.
Proof.
  induction a as [|x a IH]; intros b; simpl; [reflexivity|].
  rewrite IH, andb_assoc. reflexivity.
Qed.

Lemma stem_of_cons :
  forall c name,
    stem_of (String c name)
    = if String.eqb (String c name) ".pkl" then Some EmptyString
      else match stem_of name with
           | Some stem => Some (String c stem)
           | None => None
           end.
Proof. reflexivity. Qed.

Lemma stem_of_pkl : forall h, stem_of (h ++ ".pkl") = Some h.
Proof.
  induction h as [|c h IH]; [reflexivity|].
  change (String c h ++ ".pkl")%string with (String c (h ++ ".pkl")).
  rewrite stem_of_cons, IH.
  destruct (String.eqb (String c (h ++ ".pkl")) ".pkl") eqn:E;
    [|reflexivity].
  apply String.eqb_eq in E. apply (f_equal String.length) in E.
  simpl in E. rewrite string_length_app in E. simpl in E. lia.
Qed.

Lemma stem_of_sound :
  forall name stem, stem_of name = Some stem -> name = (stem ++ ".pkl")%string.
Proof.
  induction name as [|c name IH]; intros stem H.
  - discriminate.
  - rewrite stem_of_cons in H.
    destruct (String.eqb (String c name) ".pkl") eqn:E.
    + injection H as <-. apply String.eqb_eq in E. exact E.
    + destruct (stem_of name) as [stem'|]; [|discriminate].
      injection H as <-. simpl. f_equal. apply IH. reflexivity.
Qed.

Lemma matches_pkl_data :
  forall directory h,
    plain_name h = true ->
    matches_pkl directory (path_join directory (h ++ ".pkl")) = true.
Proof.
  intros directory h H. unfold matches_pkl.
  rewrite strip_prefix_path_join, stem_of_pkl, no_slash_app.
  unfold plain_name in H. apply andb_prop in H. destruct H as [-> ->].
  reflexivity.
Qed.

Lemma matches_pkl_key :
  forall directory h,
    matches_pkl directory (path_join directory (h ++ ".yaml")) = false.
Proof.
  intros directory h. unfold matches_pkl.
  rewrite strip_prefix_path_join.
  destruct (stem_of (h ++ ".yaml")) as [stem|] eqn:E;
    [|apply andb_false_r].
  apply stem_of_sound in E. exfalso.
  exact (pkl_name_not_yaml stem h (eq_sym E)).
Qed.

Lemma matches_pkl_outside :
  forall directory p, outside directory p = true -> matches_pkl directory p = false.
Proof.
  intros directory p H. unfold outside in H. unfold matches_pkl.
  destruct (strip_prefix (directory ++ "/") p); [discriminate | reflexivity].
Qed.

Lemma filter_matches_outside :
  forall directory paths,
    Forall (fun p => outside directory p = true) paths ->
    filter (matches_pkl directory) paths = [].
Proof.
  intros directory paths H. induction H as [|p paths Hp Hl IH];
    [reflexivity|].
  simpl. rewrite (matches_pkl_outside _ _ Hp). exact IH.
Qed.
End GlobFacts.

Lemma str_get_app :
  forall (V : Type) p (a b : list (string * V)),
    str_get p (a ++ b)
    = match str_get p a with
      | Some x => Some x
      | None => str_get p b
      end.
Proof.
  intros V p a b. unfold str_get.
  induction a as [|[k v] a IH]; simpl; [reflexivity|].
  destruct (String.eqb k p); [reflexivity | exact IH].
Qed.

Lemma str_contains_In :
  forall (V : Type) p (d : list (string * V)),
    str_contains p d = true -> In p (map fst d).
Proof.
  intros V p d. unfold str_contains.
  induction d as [|[k v] d IH]; simpl; [discriminate|].
  destruct (String.eqb k p) eqn:E.
  - intros _. left. apply String.eqb_eq. exact E.
  - intros H. right. apply IH. exact H.
Qed.

Lemma setitem_absent :
  forall (TV : Type) (c : InMemoryCache.store TV) k v,
    InMemoryCache.getitem c k = None ->
    InMemoryCache.setitem c k v = c ++ [(k, v)].
Proof.
  unfold InMemoryCache.getitem, InMemoryCache.setitem.
  intros TV c k v. induction c as [|[k' v'] c IH]; simpl; [reflexivity|].
  destruct (InMemoryCache.key_matches k' k); [discriminate|].
  intros H. rewrite IH by exact H. reflexivity.
Qed.

(** In a store whose keys are different configurations, every entry is
    found under its key. *)
Lemma getitem_distinct :
  forall (TV : Type) (c : InMemoryCache.store TV) k v,
    NoDup (map (fun kv => canon (fst kv)) c) ->
    In (k, v) c -> InMemoryCache.getitem c k = Some v.
Proof.
  unfold InMemoryCache.getitem.
  intros TV c k v. induction c as [|[k0 v0] c IH]; intros Hnd Hin;
    [destruct Hin|].
  inversion Hnd as [|? ? Hnotin Hnd']; subst. simpl.
  destruct Hin as [Hin|Hin].
  - injection Hin as -> ->. rewrite key_matches_refl. reflexivity.
  - destruct (InMemoryCache.key_matches k0 k) eqn:E; [|apply IH; assumption].
    exfalso. apply Hnotin. apply key_matches_equal in E.
    apply config_eqb_canon in E.
    simpl. rewrite E.
    apply (in_map (fun kv => canon (fst kv)) c (k, v)). exact Hin.
Qed.

Section LoadFacts.
Import DumpableInMemoryCache DumpableLoad.

Variable to_yaml : Value -> string.
Variable joblib_hash : Value -> string.
Variable pickle : InstantiatedNode -> string.
Variable unpickle : string -> option InstantiatedNode.
Variable from_yaml : string -> option Value.
Variable splitext : string -> string.

Local Abbreviation name_of := (dump_name to_yaml joblib_hash).
Local Abbreviation key_of := (key_path to_yaml joblib_hash).
Local Abbreviation data_of := (data_path to_yaml joblib_hash).
Local Abbreviation files_of := (dumped_files to_yaml joblib_hash pickle).

Lemma key_path_inj :
  forall directory k k',
    key_of directory k = key_of directory k' -> name_of k = name_of k'.
Proof.
  intros directory k k' H. unfold key_path in H.
  apply path_join_inj in H. exact (string_app_inv_tail _ _ _ H).
Qed.

Lemma data_path_inj :
  forall directory k k',
    data_of directory k = data_of directory k' -> name_of k = name_of k'.
Proof.
  intros directory k k' H. unfold data_path in H.
  apply path_join_inj in H. exact (string_app_inv_tail _ _ _ H).
Qed.

Lemma data_path_not_key_path :
  forall directory k k', data_of directory k <> key_of directory k'.
Proof.
  intros directory k k' H. unfold data_path, key_path in H.
  apply path_join_inj in H. exact (pkl_name_not_yaml _ _ H).
Qed.

(** The files of a list of entries with different names hold, for each
    entry, the serialized key and the serialized value. *)
Lemma dumped_files_get :
  forall directory entries k v,
    NoDup (map (fun kv => name_of (fst kv)) entries) ->
    In (k, v) entries ->
    str_get (key_of directory k) (files_of directory entries)
    = Some (to_yaml k) /\
    str_get (data_of directory k) (files_of directory entries)
    = Some (pickle v).
Proof.
  intros directory entries k v.
  induction entries as [|[k0 v0] entries IH]; intros Hnd Hin;
    [destruct Hin|].
  inversion Hnd as [|? ? Hnotin Hnd']; subst.
  unfold dumped_files. cbn [flat_map fst snd app].
  fold (dumped_files to_yaml joblib_hash pickle directory entries).
  unfold str_get. cbn [dict_get].
  fold (str_get (key_of directory k) (files_of directory entries)).
  fold (str_get (data_of directory k) (files_of directory entries)).
  destruct Hin as [Hin|Hin].
  - injection Hin as -> ->. rewrite !String.eqb_refl.
    split; [reflexivity|].
    destruct (String.eqb (key_of directory k) (data_of directory k)) eqn:E;
      [|reflexivity].
    apply String.eqb_eq in E. exfalso.
    exact (data_path_not_key_path directory k k (eq_sym E)).
  - assert (Hname : name_of k0 <> name_of k).
    { intros E. apply Hnotin. simpl in E. rewrite E.
      apply (in_map (fun kv => name_of (fst kv)) entries (k, v)).
      exact Hin. }
    assert (E1 : String.eqb (key_of directory k0) (key_of directory k)
                 = false).
    { apply String.eqb_neq. intros E. apply Hname.
      exact (key_path_inj directory k0 k E). }
    assert (E2 : String.eqb (data_of directory k0) (key_of directory k)
                 = false).
    { apply String.eqb_neq. apply data_path_not_key_path. }
    assert (E3 : String.eqb (key_of directory k0) (data_of directory k)
                 = false).
    { apply String.eqb_neq. intros E.
      exact (data_path_not_key_path directory k k0 (eq_sym E)). }
    assert (E4 : String.eqb (data_of directory k0) (data_of directory k)
                 = false).
    { apply String.eqb_neq. intros E. apply Hname.
      exact (data_path_inj directory k0 k E). }
    rewrite E1, E2, E3, E4. apply IH; assumption.
Qed.

Lemma dumped_files_paths :
  forall directory entries p,
    In p (map fst (files_of directory entries)) ->
    exists k v, In (k, v) entries /\
                (p = key_of directory k \/ p = data_of directory k).
Proof.
  intros directory entries p.
  induction entries as [|[k0 v0] entries IH]; [intros []|].
  unfold dumped_files. cbn [flat_map fst snd app map].
  intros [H|[H|H]].
  - exists k0, v0. split; [left; reflexivity | left; symmetry; exact H].
  - exists k0, v0. split; [left; reflexivity | right; symmetry; exact H].
  - destruct (IH H) as (k & v & Hin & Hp).
    exists k, v. split; [right; exact Hin | exact Hp].
Qed.

(** A dump into a directory in which none of its files exists appends
    the files of the accepted entries. *)
Lemma dump_loop_fresh :
  forall verbose directory constraints overwrite store st,
    NoDup (map (fun kv => name_of (fst kv)) (accepted constraints store)) ->
    (forall k v,
        In (k, v) (accepted constraints store) ->
        path_exists (d_fs st) (key_of directory k) = false /\
        path_exists (d_fs st) (data_of directory k) = false) ->
    d_fs (fold_left
            (dump_entry to_yaml joblib_hash pickle verbose directory
               constraints overwrite) store st)
    = {| fs_dirs := fs_dirs (d_fs st);
         fs_files := fs_files (d_fs st)
                     ++ files_of directory (accepted constraints store) |}.
Proof.
  intros verbose directory constraints overwrite store.
  induction store as [|[k v] store IH]; intros st Hnd Hfree;
    cbn [fold_left].
  - simpl. rewrite app_nil_r. destruct (d_fs st); reflexivity.
  - pose proof (dump_entry_eq to_yaml joblib_hash pickle verbose directory
                  constraints overwrite st k v) as Hstep.
    cbv zeta in Hstep.
    set (st1 := dump_entry to_yaml joblib_hash pickle verbose directory
                  constraints overwrite st (k, v)) in *.
    unfold accepted in *. cbn [filter fst snd] in *.
    destruct (rejected constraints k v) eqn:Hrej; cbn [negb] in *.
    + apply pair_equal_spec in Hstep. destruct Hstep as [Hfs _].
      rewrite IH; [rewrite Hfs; reflexivity | exact Hnd |].
      intros k' v' Hin. rewrite Hfs. apply (Hfree k' v'). exact Hin.
    + inversion Hnd as [|? ? Hnotin Hnd']; subst.
      destruct (Hfree k v (or_introl eq_refl)) as [Hk Hd].
      assert (Hfs :
        d_fs st1
        = write_file (write_file (d_fs st) (key_of directory k) (to_yaml k))
            (data_of directory k) (pickle v)).
      { change (path_join directory
                  (joblib_hash (VStr (to_yaml k)) ++ ".yaml"))
          with (key_of directory k) in Hstep.
        rewrite Hk in Hstep. cbn [andb] in Hstep.
        apply pair_equal_spec in Hstep. exact (proj1 Hstep). }
      clear Hstep.
      assert (Hkc : str_contains (key_of directory k) (fs_files (d_fs st))
                    = false)
        by (unfold path_exists in Hk; apply orb_false_elim in Hk;
            exact (proj2 Hk)).
      assert (Hdc : str_contains (data_of directory k) (fs_files (d_fs st))
                    = false)
        by (unfold path_exists in Hd; apply orb_false_elim in Hd;
            exact (proj2 Hd)).
      assert (Hfs1 :
        d_fs st1
        = {| fs_dirs := fs_dirs (d_fs st);
             fs_files := fs_files (d_fs st)
                         ++ [(key_of directory k, to_yaml k);
                             (data_of directory k, pickle v)] |}).
      { rewrite Hfs. unfold write_file. cbn [fs_dirs fs_files]. f_equal.
        rewrite (str_set_absent _ _ _ _ Hkc).
        rewrite str_set_absent.
        - rewrite <- app_assoc. reflexivity.
        - rewrite str_contains_app, Hdc. simpl.
          destruct (String.eqb (key_of directory k) (data_of directory k))
            eqn:E; [|reflexivity].
          apply String.eqb_eq in E. exfalso.
          exact (data_path_not_key_path directory k k (eq_sym E)). }
      rewrite IH; [| exact Hnd' |].
      * rewrite Hfs1. cbn [fs_dirs fs_files]. f_equal.
        unfold dumped_files. cbn [flat_map fst snd].
        rewrite <- app_assoc. reflexivity.
      * intros k' v' Hin.
        assert (Hname : name_of k <> name_of k').
        { intros E. apply Hnotin. cbn [fst]. rewrite E.
          apply (in_map (fun kv => name_of (fst kv)) _ (k', v')).
          exact Hin. }
        destruct (Hfree k' v' (or_intror Hin)) as [Hk' Hd'].
        rewrite Hfs, !path_exists_write_file, Hk', Hd', !orb_false_r.
        split; apply orb_false_intro; apply String.eqb_neq.
        -- apply data_path_not_key_path.
        -- intros E. apply Hname. exact (key_path_inj directory k k' E).
        -- intros E. apply Hname. exact (data_path_inj directory k k' E).
        -- intros E. exact (data_path_not_key_path directory k' k (eq_sym E)).
Qed.

(** What [glob] finds after such a dump: the data files, in order. *)
Lemma glob_dumped_files :
  forall directory entries,
    Forall (fun kv => plain_name (name_of (fst kv)) = true) entries ->
    filter (matches_pkl directory) (map fst (files_of directory entries))
    = map (fun kv => data_of directory (fst kv)) entries.
Proof.
  intros directory entries H. induction H as [|[k v] entries Hk Hl IH];
    [reflexivity|].
  cbn [fst] in Hk.
  unfold dumped_files. cbn [flat_map fst snd app map filter].
  unfold key_path at 1. rewrite matches_pkl_key.
  unfold data_path at 1. rewrite (matches_pkl_data directory _ Hk).
  f_equal. exact IH.
Qed.

(** The loop of [load] over the data files of entries that can be read
    back. *)
Lemma load_files_entries :
  forall verbose directory fs entries st,
    (forall k v,
        In (k, v) entries ->
        str_get (data_of directory k) (fs_files fs) = Some (pickle v) /\
        str_get (key_of directory k) (fs_files fs) = Some (to_yaml k) /\
        unpickle (pickle v) = Some v /\
        from_yaml (to_yaml k) = Some k /\
        splitext (data_of directory k) = path_join directory (name_of k)) ->
    NoDup (map (fun kv => canon (fst kv)) entries) ->
    (forall k v, In (k, v) entries ->
                 InMemoryCache.getitem (l_store st) k = None) ->
    exists log,
      load_files unpickle from_yaml splitext verbose None fs
        (map (fun kv => data_of directory (fst kv)) entries) st
      = Loaded {| l_store := l_store st ++ entries; l_log := log |}.
Proof.
  intros verbose directory fs entries.
  induction entries as [|[k v] entries IH]; intros st Hread Hnd Hnew.
  - exists (l_log st). simpl. rewrite app_nil_r. destruct st; reflexivity.
  - inversion Hnd as [|? ? Hnotin Hnd']; subst.
    destruct (Hread k v (or_introl eq_refl))
      as (Hdata & Hkey & Hun & Hyaml & Hsplit).
    cbn [map fst load_files]. unfold load_file, read_file.
    rewrite Hdata, Hun, Hsplit.
    assert (Hpath : (path_join directory (name_of k) ++ ".yaml")%string
                    = key_of directory k).
    { unfold key_path, path_join. rewrite !string_app_assoc. reflexivity. }
    rewrite Hpath, Hkey, Hyaml.
    rewrite (setitem_absent _ _ _ _ (Hnew k v (or_introl eq_refl))).
    match goal with
    | |- context [load_files _ _ _ _ _ _ _ ?st1] =>
        destruct (IH st1) as (log & Hlog)
    end.
    + intros k' v' Hin. apply Hread. right. exact Hin.
    + exact Hnd'.
    + intros k' v' Hin. cbn [l_store].
      rewrite <- (setitem_absent _ _ _ _ (Hnew k v (or_introl eq_refl))).
      destruct (config_eqb k k') eqn:E.
      * exfalso. apply Hnotin. apply config_eqb_canon in E.
        cbn [fst]. rewrite E.
        apply (in_map (fun kv => canon (fst kv)) entries (k', v')).
        exact Hin.
      * rewrite getitem_setitem_other by exact E.
        apply (Hnew k' v'). right. exact Hin.
    + exists log. rewrite Hlog. cbn [l_store].
      rewrite <- app_assoc. reflexivity.
Qed.
End LoadFacts.

Section LoadTheorems.
Import DumpableInMemoryCache DumpableLoad.

Variable to_yaml : Value -> string.
Variable joblib_hash : Value -> string.
Variable pickle : InstantiatedNode -> string.
Variable unpickle : string -> option InstantiatedNode.
Variable from_yaml : string -> option Value.
Variable splitext : string -> string.

Lemma check_load_constraints_skip :
  forall verbose cs k v skip log,
    fst (check_load_constraints verbose cs k v skip log)
    = skip || existsb
                (fun c => match c k v with Some _ => true | None => false end)
                cs.
Proof.
  intros verbose cs. induction cs as [|c cs IH]; intros k v skip log; simpl.
  - rewrite orb_false_r. reflexivity.
  - destruct (c k v); rewrite IH; simpl.
    + rewrite orb_true_r. reflexivity.
    + reflexivity.
Qed.

(** What one turn of the loop of [load] does to the cache. *)
Lemma load_file_store :
  forall verbose constraints fs st fn st',
    load_file unpickle from_yaml splitext verbose constraints fs st fn
    = inr st' ->
    l_store st' = l_store st \/
    exists k v,
      rejected constraints k v = false /\
      l_store st' = InMemoryCache.setitem (l_store st) k v.
Proof.
  intros verbose constraints fs st fn st' H. unfold load_file in H.
  destruct (read_file fs fn) as [e|data]; [discriminate|].
  destruct (unpickle data) as [v|]; [|discriminate].
  destruct (read_file fs (splitext fn ++ ".yaml")) as [e|text];
    [discriminate|].
  destruct (from_yaml text) as [k|]; [|discriminate].
  assert (Hskip :
    fst (match constraints with
         | Some cs => check_load_constraints verbose cs k v false (l_log st)
         | None => (false, l_log st)
         end) = rejected constraints k v).
  { destruct constraints as [cs|]; [|reflexivity].
    rewrite check_load_constraints_skip. reflexivity. }
  destruct (match constraints with
            | Some cs => check_load_constraints verbose cs k v false (l_log st)
            | None => (false, l_log st)
            end) as [skip log].
  simpl in Hskip. subst skip.
  destruct (rejected constraints k v) eqn:Hrej; injection H as <-.
  - left. reflexivity.
  - right. exists k, v. split; [exact Hrej | reflexivity].
Qed.

(** X12.  [load] adds to the cache and takes nothing away.  Whether it
    returns or stops at a file that cannot be read, every key that was in
    the cache is still in it, and every value that is found afterwards
    was found before under the same key or passes every constraint.
    When no path matches [*.pkl] in the directory (it is empty, or does
    not exist), [load] is no error: the cache is as before. *)
Theorem X12_load_adds_to_the_cache :
  forall verbose constraints,
    (forall fs names st0,
        let st :=
          match load_files unpickle from_yaml splitext verbose constraints
                  fs names st0 with
          | Loaded st | LoadFailed _ st => st
          end in
        (forall k, InMemoryCache.contains (l_store st0) k = true ->
                   InMemoryCache.contains (l_store st) k = true) /\
        (forall k v,
            InMemoryCache.getitem (l_store st) k = Some v ->
            InMemoryCache.getitem (l_store st0) k = Some v \/
            exists k', config_eqb k' k = true /\
                       rejected constraints k' v = false)) /\
    (forall store directory fs,
        Forall (fun p => outside directory p = true)
               (fs_dirs fs ++ map fst (fs_files fs)) ->
        load unpickle from_yaml splitext verbose store directory constraints
          fs
        = Loaded
            {| l_store := store;
               l_log := (if verbose then [LogLoad 0 directory] else [])
                        ++ [LogLoaded (List.length store)] |}).
Proof.
  intros verbose constraints. split.
  - intros fs names. induction names as [|fn names IH]; intros st0;
      cbn [load_files].
    + split; [auto|]. intros k v H. left. exact H.
    + destruct (load_file unpickle from_yaml splitext verbose constraints fs
                  st0 fn) as [e|st1] eqn:Hstep.
      * split; [auto|]. intros k v H. left. exact H.
      * specialize (IH st1). cbv zeta in IH. destruct IH as [Hkeep Hnew].
        apply load_file_store in Hstep.
        split.
        -- intros k Hk. apply Hkeep.
           destruct Hstep as [-> | (k1 & v1 & _ & ->)]; [exact Hk|].
           rewrite contains_getitem, getitem_setitem.
           destruct (InMemoryCache.key_matches k1 k); [reflexivity|].
           rewrite <- contains_getitem. exact Hk.
        -- intros k v Hget. destruct (Hnew k v Hget) as [Hold|Hloaded];
             [|right; exact Hloaded].
           destruct Hstep as [Hs | (k1 & v1 & Hrej & Hs)];
             rewrite Hs in Hold; [left; exact Hold|].
           rewrite getitem_setitem in Hold.
           destruct (InMemoryCache.key_matches k1 k) eqn:E;
             [|left; exact Hold].
           injection Hold as <-. right. exists k1.
           split; [exact (key_matches_equal _ _ E) | exact Hrej].
  - intros store directory fs Hout. unfold load, glob_pkl.
    rewrite (filter_matches_outside directory _ Hout). reflexivity.
Qed.
End LoadTheorems.

(** X12, witness: a cache of one entry loads from a directory that does
    not exist. *)
Lemma X12_witness :
  DumpableLoad.load LoadExample.unpickle LoadExample.from_yaml
    LoadExample.splitext false [(DumpExample.key, DumpExample.value)]
    "cache" None DumpExample.empty_fs
  = DumpableLoad.Loaded
      {| DumpableLoad.l_store := [(DumpExample.key, DumpExample.value)];
         DumpableLoad.l_log := [DumpableLoad.LogLoaded 1] |}.
Proof.
  apply (proj2 (X12_load_adds_to_the_cache LoadExample.unpickle
                  LoadExample.from_yaml LoadExample.splitext false None)
           [(DumpExample.key, DumpExample.value)] "cache"
           DumpExample.empty_fs).
  constructor.
Defined.

Section RoundTrip.
Import DumpableInMemoryCache DumpableLoad.

Variable to_yaml : Value -> string.
Variable joblib_hash : Value -> string.
Variable pickle : InstantiatedNode -> string.
Variable unpickle : string -> option InstantiatedNode.
Variable from_yaml : string -> option Value.
Variable splitext : string -> string.

Lemma str_get_outside :
  forall directory name (files : list (string * string)),
    Forall (fun p => outside directory p = true) (map fst files) ->
    str_get (path_join directory name) files = None.
Proof.
  intros directory name files. unfold str_get.
  induction files as [|[p c] files IH]; intros H; [reflexivity|].
  inversion H as [|? ? Hp Hl]; subst. simpl in Hp. simpl.
  destruct (String.eqb p (path_join directory name)) eqn:E.
  - apply String.eqb_eq in E. exfalso.
    exact (outside_not_path_join directory p name Hp E).
  - apply IH. exact Hl.
Qed.

Lemma path_exists_fresh :
  forall directory name fs,
    Forall (fun p => outside directory p = true)
           (fs_dirs fs ++ map fst (fs_files fs)) ->
    path_exists (makedirs fs directory) (path_join directory name) = false.
Proof.
  intros directory name fs H. apply Forall_app in H. destruct H as [Hd Hf].
  unfold path_exists. apply orb_false_intro.
  - assert (Hdirs : Forall (fun p => outside directory p = true)
                           (fs_dirs (makedirs fs directory))).
    { unfold makedirs. destruct (existsb _ _); [exact Hd|]. cbn [fs_dirs].
      apply Forall_app. split; [exact Hd|].
      constructor; [apply outside_directory | constructor]. }
    destruct (existsb (String.eqb (path_join directory name))
                (fs_dirs (makedirs fs directory))) eqn:E; [|reflexivity].
    apply existsb_exists in E. destruct E as (p & Hin & Heq).
    apply String.eqb_eq in Heq. rewrite Forall_forall in Hdirs.
    exfalso.
    exact (outside_not_path_join directory p name (Hdirs p Hin)
             (eq_sym Heq)).
  - replace (fs_files (makedirs fs directory)) with (fs_files fs)
      by (unfold makedirs; destruct (existsb _ _); reflexivity).
    unfold str_contains. rewrite dict_contains_get.
    fold (str_get (path_join directory name) (fs_files fs)).
    rewrite (str_get_outside directory name _ Hf). reflexivity.
Qed.

(** X13.  What [dump] writes, [load] reads back.  Take a directory in
    which nothing lies yet (or that does not exist), and a store whose
    accepted entries have different keys and different file names,
    names that [*.pkl] can match, and keys and values that the readers
    restore from what the writers wrote.  After the dump, loading the
    data files found in the directory, in whatever order, into an empty
    cache succeeds: the cache then holds the accepted entries and no
    other, and each of them is found under its key.  So it is for [load]
    itself and for a new cache created on the directory. *)
Theorem X13_dump_then_load :
  forall verbose verbose' store directory constraints overwrite fs r fs1 log,
    Forall (fun p => outside directory p = true)
           (fs_dirs fs ++ map fst (fs_files fs)) ->
    NoDup (map (fun kv => dump_name to_yaml joblib_hash (fst kv))
               (accepted constraints store)) ->
    NoDup (map (fun kv => canon (fst kv)) (accepted constraints store)) ->
    Forall
      (fun kv =>
         plain_name (dump_name to_yaml joblib_hash (fst kv)) = true /\
         splitext (data_path to_yaml joblib_hash directory (fst kv))
         = path_join directory (dump_name to_yaml joblib_hash (fst kv)) /\
         from_yaml (to_yaml (fst kv)) = Some (fst kv) /\
         unpickle (pickle (snd kv)) = Some (snd kv))
      (accepted constraints store) ->
    dump to_yaml joblib_hash pickle verbose store directory constraints
      overwrite fs = (r, fs1, log) ->
    (forall names st0,
        Permutation names (glob_pkl fs1 directory) ->
        l_store st0 = [] ->
        exists st,
          load_files unpickle from_yaml splitext verbose' None fs1 names st0
          = Loaded st /\
          Permutation (l_store st) (accepted constraints store) /\
          forall k v, In (k, v) (accepted constraints store) ->
                      InMemoryCache.getitem (l_store st) k = Some v) /\
    (forall res,
        res = load unpickle from_yaml splitext verbose' [] directory None fs1
        \/ res = __init__ unpickle from_yaml splitext verbose'
                   (Some directory) fs1 ->
        exists st,
          res = Loaded st /\
          Permutation (l_store st) (accepted constraints store) /\
          forall k v, In (k, v) (accepted constraints store) ->
                      InMemoryCache.getitem (l_store st) k = Some v).
Proof.
  intros verbose verbose' store directory constraints overwrite fs r fs1 log
         Hout Hnames Hkeys Hok Hdump.
  set (kept := accepted constraints store) in *.
  (* the file system after the dump *)
  unfold dump in Hdump. apply pair_equal_spec in Hdump.
  destruct Hdump as [Hdump _]. apply pair_equal_spec in Hdump.
  destruct Hdump as [_ Hfs1].
  rewrite (dump_loop_fresh to_yaml joblib_hash pickle verbose directory
             constraints overwrite store) in Hfs1; [|exact Hnames|].
  2:{ intros k v _. cbn [d_fs]. unfold key_path, data_path.
      split; apply path_exists_fresh; exact Hout. }
  cbn [d_fs] in Hfs1. fold kept in Hfs1.
  assert (Hfiles : fs_files fs1
                   = fs_files fs
                     ++ dumped_files to_yaml joblib_hash pickle directory kept)
    by (rewrite <- Hfs1; cbn [fs_files]; unfold makedirs;
        destruct (existsb _ _); reflexivity).
  assert (Hdirs : Forall (fun p => outside directory p = true) (fs_dirs fs1)).
  { rewrite <- Hfs1. cbn [fs_dirs]. apply Forall_app in Hout.
    destruct Hout as [Hd _]. unfold makedirs.
    destruct (existsb _ _); [exact Hd|]. cbn [fs_dirs].
    apply Forall_app. split; [exact Hd|].
    constructor; [apply outside_directory | constructor]. }
  (* what glob finds *)
  assert (Hglob : glob_pkl fs1 directory
                  = map (fun kv => data_path to_yaml joblib_hash directory
                                     (fst kv)) kept).
  { unfold glob_pkl. rewrite filter_app, Hfiles, map_app, filter_app.
    rewrite (filter_matches_outside directory _ Hdirs).
    apply Forall_app in Hout. destruct Hout as [_ Hf].
    rewrite (filter_matches_outside directory _ Hf).
    cbn [app]. apply glob_dumped_files.
    eapply Forall_impl; [|exact Hok]. intros kv H. exact (proj1 H). }
  (* the loop over any order of the data files *)
  assert (Hloop :
    forall names st0,
      Permutation names (glob_pkl fs1 directory) ->
      l_store st0 = [] ->
      exists st,
        load_files unpickle from_yaml splitext verbose' None fs1 names st0
        = Loaded st /\
        Permutation (l_store st) kept /\
        forall k v, In (k, v) kept ->
                    InMemoryCache.getitem (l_store st) k = Some v).
  { intros names st0 Hperm Hempty. rewrite Hglob in Hperm.
    apply Permutation_map_inv in Hperm.
    destruct Hperm as (order & -> & Hperm).
    assert (Hkeys' : NoDup (map (fun kv => canon (fst kv)) order))
      by (eapply Permutation_NoDup; [|exact Hkeys];
          apply Permutation_map; exact Hperm).
    destruct (load_files_entries to_yaml joblib_hash pickle unpickle
                from_yaml splitext verbose' directory fs1 order st0)
      as (lg & Hload).
    - intros k v Hin.
      assert (Hin' : In (k, v) kept)
        by (eapply Permutation_in; [apply Permutation_sym; exact Hperm
                                   | exact Hin]).
      destruct (dumped_files_get to_yaml joblib_hash pickle directory kept
                  k v Hnames Hin') as [Hk Hd].
      rewrite Forall_forall in Hok.
      destruct (Hok (k, v) Hin') as (_ & Hsplit & Hyaml & Hun).
      cbn [fst snd] in *. apply Forall_app in Hout.
      destruct Hout as [_ Hf].
      rewrite Hfiles, !str_get_app. unfold data_path, key_path at 1.
      rewrite !(str_get_outside directory _ _ Hf).
      fold (data_path to_yaml joblib_hash directory k).
      fold (key_path to_yaml joblib_hash directory k).
      repeat split; assumption.
    - exact Hkeys'.
    - intros k v _. rewrite Hempty. reflexivity.
    - eexists. split; [exact Hload|]. cbn [l_store]. rewrite Hempty.
      cbn [app]. split; [apply Permutation_sym; exact Hperm|].
      intros k v Hin. apply getitem_distinct; [exact Hkeys'|].
      eapply Permutation_in; [exact Hperm | exact Hin]. }
  split; [exact Hloop|].
  intros res Hres.
  assert (Hload :
    res = load unpickle from_yaml splitext verbose' [] directory None fs1)
    by (destruct Hres as [-> | ->]; reflexivity).
  rewrite Hload. unfold load.
  match goal with
  | |- context [load_files _ _ _ _ _ _ ?names ?st0] =>
      destruct (Hloop names st0 (Permutation_refl _) eq_refl)
        as (st & -> & Hperm & Hget)
  end.
  eexists. split; [reflexivity|]. cbn [l_store]. split; assumption.
Qed.
End RoundTrip.

(** X13, witness: a cache of one entry, dumped and created again. *)
Lemma X13_witness :
  let store := [(DumpExample.key, DumpExample.value)] in
  let out :=
    DumpableInMemoryCache.dump DumpExample.to_yaml DumpExample.joblib_hash
      DumpExample.pickle false store "cache" None false DumpExample.empty_fs in
  exists st,
    DumpableLoad.__init__ LoadExample.unpickle LoadExample.from_yaml
      LoadExample.splitext false (Some "cache") (snd (fst out))
    = DumpableLoad.Loaded st /\
    InMemoryCache.getitem (DumpableLoad.l_store st) DumpExample.key
    = Some DumpExample.value.
Proof.
  intros store out.
  destruct (X13_dump_then_load DumpExample.to_yaml DumpExample.joblib_hash
              DumpExample.pickle LoadExample.unpickle LoadExample.from_yaml
              LoadExample.splitext false false store "cache" None false
              DumpExample.empty_fs (fst (fst out)) (snd (fst out)) (snd out))
    as [_ H].
  - constructor.
  - repeat constructor. intros [].
  - repeat constructor. intros [].
  - repeat constructor.
  - reflexivity.
  - destruct (H _ (or_intror eq_refl)) as (st & Hst & _ & Hget).
    exists st. split; [exact Hst|].
    apply Hget. left. reflexivity.
Defined.

(* ================================================================= *)
(** ** The run of main.py *)

Section MainFacts.
Import DumpableInMemoryCache DumpableLoad.

Variable World : Type.
Variable resolve : Value -> option (Target World).
Variable joblib_hash : Value -> string.
Variable to_yaml : Value -> string.
Variable pickle : InstantiatedNode -> string.
Variable unpickle : string -> option InstantiatedNode.
Variable from_yaml : string -> option Value.
Variable splitext : string -> string.


End MainFacts.


(* ================================================================= *)
(** ** The cache does not change what is computed *)




Lemma getitem_In_key :
  forall (TV : Type) (c : InMemoryCache.store TV) k v,
    InMemoryCache.getitem c k = Some v ->
    exists k', In (k', v) c /\ config_eqb k' k = true.
Proof.
  unfold InMemoryCache.getitem. intros TV c k v.
  induction c as [|[k0 v0] c IH]; simpl; [discriminate|].
  destruct (InMemoryCache.key_matches k0 k) eqn:E.
  - intros [= ->]. exists k0.
    split; [left; reflexivity | apply key_matches_equal; exact E].
  - intros H. destruct (IH H) as (k' & Hin & Hk).
    exists k'. split; [right; exact Hin | exact Hk].
Qed.

Lemma Forall_setitem_keyed :
  forall (TV : Type) (P : Value * TV -> Prop) (c : InMemoryCache.store TV)
         k v,
    Forall P c ->
    (forall k', config_eqb k' k = true -> P (k', v)) ->
    Forall P (InMemoryCache.setitem c k v).
Proof.
  unfold InMemoryCache.setitem. intros TV P c k v H Hv.
  induction H as [|[k0 v0] c Hx Hl IH]; simpl.
  - constructor; [apply Hv; apply config_eqb_refl | constructor].
  - destruct (InMemoryCache.key_matches k0 k) eqn:E; constructor; auto.
    apply Hv. apply key_matches_equal. exact E.
Qed.

Lemma combine_deterministic_ok :
  forall infos node target_info,
    Forall (fun ki => deterministic_info (snd ki)) infos ->
    exists i, combine infos (Some node) target_info None = Ok i.
Proof.
  intros infos node target_info H. unfold combine.
  rewrite combine_substitute_absent.
  - eexists. reflexivity.
  - eapply Forall_impl; [|exact H]. intros ki [_ Hd]. exact Hd.
Qed.

(** What [_call_target] does with a pure target depends on the
    arguments only. *)
Lemma pure_call_body :
  forall (World : Type) (target : Target World),
    pure_target target ->
    forall args kwargs w w',
      call_body target args kwargs w
      = (fst (call_body target args kwargs w'), w).
Proof.
  intros World target H args kwargs w w'. unfold call_body.
  destruct (_extract_pos_args args kwargs) as [e|[pos kw]];
    [reflexivity | apply H].
Qed.

Section Transparency.
Variable World : Type.
Variable resolve : Value -> option (Target World).
Variable joblib_hash : Value -> string.
Variable convert : Value.
Variable r : bool.

Hypothesis targets_pure :
  forall tv target, resolve tv = Some target -> pure_target target.

Local Abbreviation Inv := (sound_cache resolve joblib_hash convert r).
Local Abbreviation det_infos :=
  (Forall (fun ki : Key * InstantiatedNodeInfo => deterministic_info (snd ki))).

(** [rec_run], with the cache, and [rec_ref], without it, agree on [v]. *)
Local Abbreviation agree rec_run rec_ref :=
  (fun v : Value =>
     forall (s : State World) n s',
       Inv s -> rec_run v s = (Ok n, s') ->
       Inv s' /\ deterministic_info (info n) /\
       forall s0 : State World,
         exists i s0',
           rec_ref v s0 = (Ok (mkNode (instance n) i), s0') /\
           deterministic_info i).

Lemma instantiate_items_agree :
  forall rec_run rec_ref items,
    Forall (agree rec_run rec_ref) items ->
    forall (s : State World) ns s',
      Inv s -> instantiate_items rec_run items s = (Ok ns, s') ->
      Inv s' /\ Forall (fun n => deterministic_info (info n)) ns /\
      forall s0 : State World,
        exists ns' s0',
          instantiate_items rec_ref items s0 = (Ok ns', s0') /\
          map instance ns' = map instance ns /\
          Forall (fun n => deterministic_info (info n)) ns'.
Proof.
  intros rec_run rec_ref items H.
  induction H as [|x l Hx Hl IH]; intros s ns s' Hs Hrun.
  - simpl in Hrun. injection Hrun as <- <-.
    split; [exact Hs|]. split; [constructor|].
    intros s0. exists [], s0. repeat split; constructor.
  - simpl in Hrun. unfold bind in Hrun.
    destruct (rec_run x s) as [[n|e] s1] eqn:Hn; [|discriminate].
    destruct (instantiate_items rec_run l s1) as [[ns1|e] s2] eqn:Hns;
      [|discriminate].
    injection Hrun as <- <-.
    destruct (Hx s n s1 Hs Hn) as (Hs1 & Hdn & Href).
    destruct (IH s1 ns1 s2 Hs1 Hns) as (Hs2 & Hdns & Hrefs).
    split; [exact Hs2|]. split; [constructor; assumption|].
    intros s0. destruct (Href s0) as (i & s0' & Hr0 & Hdi).
    destruct (Hrefs s0') as (ns' & s0'' & Hr1 & Hmap & Hdns').
    exists (mkNode (instance n) i :: ns'), s0''.
    simpl. unfold bind. rewrite Hr0, Hr1.
    split; [reflexivity|]. split; [simpl; rewrite Hmap; reflexivity|].
    constructor; assumption.
Qed.

Lemma instantiate_entries_agree :
  forall rec_run rec_ref entries,
    Forall (fun kv => agree rec_run rec_ref (snd kv)) entries ->
    forall acc acc0 (s : State World) res s',
      Inv s -> fst acc0 = fst acc ->
      det_infos (snd acc) -> det_infos (snd acc0) ->
      instantiate_entries rec_run entries acc s = (Ok res, s') ->
      Inv s' /\ det_infos (snd res) /\
      forall s0 : State World,
        exists res0 s0',
          instantiate_entries rec_ref entries acc0 s0 = (Ok res0, s0') /\
          fst res0 = fst res /\ det_infos (snd res0).
Proof.
  intros rec_run rec_ref entries H.
  induction H as [|[k x] l Hx Hl IH];
    intros acc acc0 s res s' Hs Hacc Hd Hd0 Hrun.
  - simpl in Hrun. injection Hrun as <- <-.
    split; [exact Hs|]. split; [exact Hd|].
    intros s0. exists acc0, s0. repeat split; assumption.
  - simpl in Hrun. unfold bind in Hrun. simpl in Hx.
    destruct (rec_run x s) as [[n|e] s1] eqn:Hn; [|discriminate].
    destruct (Hx s n s1 Hs Hn) as (Hs1 & Hdn & Href).
    assert (Hstep : forall i, deterministic_info i ->
              det_infos (dict_set Key_eqb (KStr k) i (snd acc0)))
      by (intros i Hi;
          apply (@Forall_dict_set Key InstantiatedNodeInfo Key_eqb
                   deterministic_info); assumption).
    destruct (IH (str_set k (instance n) (fst acc),
                  dict_set Key_eqb (KStr k) (info n) (snd acc))
                 (str_set k (instance n) (fst acc0),
                  dict_set Key_eqb (KStr k) (info n) (snd acc0))
                 s1 res s' Hs1) as (Hs' & Hdres & _); try assumption.
    + cbn [fst]. rewrite Hacc. reflexivity.
    + apply (@Forall_dict_set Key InstantiatedNodeInfo Key_eqb
               deterministic_info); assumption.
    + apply Hstep. exact Hdn.
    + split; [exact Hs'|]. split; [exact Hdres|].
      intros s0. destruct (Href s0) as (i & s0' & Hr0 & Hdi).
      destruct (IH (str_set k (instance n) (fst acc),
                    dict_set Key_eqb (KStr k) (info n) (snd acc))
                   (str_set k (instance n) (fst acc0),
                    dict_set Key_eqb (KStr k) i (snd acc0))
                   s1 res s' Hs1) as (_ & _ & Hrefs); try assumption.
      * cbn [fst]. rewrite Hacc. reflexivity.
      * apply (@Forall_dict_set Key InstantiatedNodeInfo Key_eqb
                 deterministic_info); assumption.
      * apply Hstep. exact Hdi.
      * destruct (Hrefs s0') as (res0 & s0'' & Hr1 & Hfst & Hd1).
        exists res0, s0''. simpl. unfold bind. rewrite Hr0.
        cbn [instance info]. rewrite Hr1. repeat split; assumption.
Qed.

Lemma instantiate_kwargs_agree :
  forall rec_run rec_ref rec conv entries,
    Forall (fun kv => agree rec_run rec_ref (snd kv)) entries ->
    forall acc acc0 (s : State World) res s',
      Inv s -> fst acc0 = fst acc ->
      det_infos (snd acc) -> det_infos (snd acc0) ->
      instantiate_kwargs rec_run rec conv entries acc s = (Ok res, s') ->
      Inv s' /\ det_infos (snd res) /\
      forall s0 : State World,
        exists res0 s0',
          instantiate_kwargs rec_ref rec conv entries acc0 s0
          = (Ok res0, s0') /\
          fst res0 = fst res /\ det_infos (snd res0).
Proof.
  intros rec_run rec_ref rec conv entries H.
  induction H as [|[k x] l Hx Hl IH];
    intros acc acc0 s res s' Hs Hacc Hd Hd0 Hrun.
  - simpl in Hrun. injection Hrun as <- <-.
    split; [exact Hs|]. split; [exact Hd|].
    intros s0. exists acc0, s0. repeat split; assumption.
  - simpl in Hrun. simpl in Hx. cbn [instantiate_kwargs].
    destruct (excluded k); [eapply IH; eassumption|].
    destruct rec.
    + unfold bind in Hrun.
      destruct (rec_run x s) as [[n|e] s1] eqn:Hn; [|discriminate].
      destruct (Hx s n s1 Hs Hn) as (Hs1 & Hdn & Href).
      assert (Hstep : forall i, deterministic_info i ->
                det_infos (dict_set Key_eqb (KStr k) i (snd acc0)))
        by (intros i Hi;
            apply (@Forall_dict_set Key InstantiatedNodeInfo Key_eqb
                     deterministic_info); assumption).
      destruct (IH (str_set k (_convert_node (instance n) conv) (fst acc),
                    dict_set Key_eqb (KStr k) (info n) (snd acc))
                   (str_set k (_convert_node (instance n) conv) (fst acc0),
                    dict_set Key_eqb (KStr k) (info n) (snd acc0))
                   s1 res s' Hs1) as (Hs' & Hdres & _); try assumption.
      * cbn [fst]. rewrite Hacc. reflexivity.
      * apply (@Forall_dict_set Key InstantiatedNodeInfo Key_eqb
                 deterministic_info); assumption.
      * apply Hstep. exact Hdn.
      * split; [exact Hs'|]. split; [exact Hdres|].
        intros s0. destruct (Href s0) as (i & s0' & Hr0 & Hdi).
        destruct (IH (str_set k (_convert_node (instance n) conv) (fst acc),
                      dict_set Key_eqb (KStr k) (info n) (snd acc))
                     (str_set k (_convert_node (instance n) conv) (fst acc0),
                      dict_set Key_eqb (KStr k) i (snd acc0))
                     s1 res s' Hs1) as (_ & _ & Hrefs); try assumption.
        -- cbn [fst]. rewrite Hacc. reflexivity.
        -- apply (@Forall_dict_set Key InstantiatedNodeInfo Key_eqb
                    deterministic_info); assumption.
        -- apply Hstep. exact Hdi.
        -- destruct (Hrefs s0') as (res0 & s0'' & Hr1 & Hfst & Hd1).
           exists res0, s0''. unfold bind. rewrite Hr0.
           cbn [instance info]. rewrite Hr1. repeat split; assumption.
    + apply (IH (str_set k (_convert_node x conv) (fst acc), snd acc)
                (str_set k (_convert_node x conv) (fst acc0), snd acc0)
                s res s'); try assumption.
      cbn [fst]. rewrite Hacc. reflexivity.
Qed.

Local Abbreviation with_cache :=
  (fun v : Value =>
     instantiate_node resolve joblib_hash v [] convert (VBool r) true).
Local Abbreviation without_cache :=
  (fun v : Value =>
     instantiate_node resolve joblib_hash v [] convert (VBool r) false).

Lemma sound_cache_store :
  forall (s1 s2 : State World),
    st_store s2 = st_store s1 -> Inv s1 -> Inv s2.
Proof. intros s1 s2 H. unfold sound_cache. rewrite H. auto. Qed.

Lemma sound_cache_setitem :
  forall (s : State World) node result,
    Inv s -> canonical node = true ->
    sound_entry resolve joblib_hash convert r (node, result) ->
    Inv (after_store s node result).
Proof.
  intros s node result Hs Hc Hr. unfold sound_cache. cbn [after_store st_store].
  unfold sound_cache in Hs.
  assert (H : forall c,
             Forall (sound_entry resolve joblib_hash convert r) c ->
             Forall (sound_entry resolve joblib_hash convert r)
                    (InMemoryCache.setitem c node result)).
  { unfold InMemoryCache.setitem. intros c Hcs.
    induction Hcs as [|[k0 v0] c Hx Hl IH]; simpl.
    - constructor; [exact Hr | constructor].
    - destruct (InMemoryCache.key_matches k0 node) eqn:E; constructor; auto.
      apply key_matches_equal in E.
      destruct Hx as (Hk0 & _ & _). cbn [fst] in Hk0.
      rewrite (canonical_config_eqb k0 node Hk0 Hc E). exact Hr. }
  apply H. exact Hs.
Qed.

Lemma str_contains_some :
  forall k (d : list (string * Value)),
    str_contains k d = true -> exists v, str_get k d = Some v.
Proof.
  intros k d H. unfold str_contains, str_get in *.
  rewrite dict_contains_get in H.
  destruct (dict_get String.eqb k d) as [v|]; [|discriminate].
  exists v. reflexivity.
Qed.

(** The two evaluations of a deterministic tree agree. *)
Lemma cached_agrees :
  forall node,
    deterministic_tree resolve node = true ->
    uniform node = true ->
    canonical node = true ->
    agree with_cache without_cache node.
Proof.
  intros node. induction node using Value_nested_ind;
    intros Hdet Huni Hcan st n st' Hs Hrun;
    try (injection Hrun as <- <-;
         split; [exact Hs|]; split; [split; reflexivity|];
         intros s0; exists default_info, s0;
         split; [reflexivity | split; reflexivity]).
  - (* ListConfig *)
    simpl in Hdet, Huni, Hcan.
    rewrite forallb_forall in Hdet, Huni, Hcan.
    cbn [instantiate_node] in Hrun. unfold instantiate_list, bind in Hrun.
    destruct (instantiate_items _ items st) as [[ns|e] s1] eqn:Hitems;
      [|discriminate].
    assert (Hchildren : Forall (agree with_cache without_cache) items)
      by (rewrite Forall_forall in *; intros x Hx; apply H; auto).
    destruct (instantiate_items_agree with_cache without_cache items
                Hchildren st ns s1 Hs Hitems) as (Hs1 & Hdns & Href).
    assert (Hinfos : forall ms,
              Forall (fun m => deterministic_info (info m)) ms ->
              det_infos (List.combine (map KIdx (seq 0 (List.length ms)))
                                      (map info ms))).
    { intros ms Hms.
      apply (@Forall_combine_snd Key InstantiatedNodeInfo deterministic_info).
      apply Forall_map. exact Hms. }
    unfold lift in Hrun.
    destruct (combine _ (Some (VListConfig items)) None None) as [i|e] eqn:C;
      [|discriminate].
    assert (Hi : deterministic_info i)
      by (exact (combine_deterministic_info _ _ None i (Hinfos ns Hdns) I C)).
    assert (Hresult :
      n = mkNode (if is_ALL convert || is_PARTIAL convert
                  then VList (map instance ns)
                  else OmegaConf_create (VList (map instance ns))) i
      /\ st' = s1).
    { destruct (is_ALL convert || is_PARTIAL convert);
        injection Hrun as <- <-; split; reflexivity. }
    destruct Hresult as [-> ->].
    split; [exact Hs1|]. split; [exact Hi|].
    intros s0. destruct (Href s0) as (ns' & s0' & Hr0 & Hmap & Hdns').
    destruct (combine_deterministic_ok _ (VListConfig items) None
                (Hinfos ns' Hdns')) as [i' C'].
    exists i', s0'. cbn [instantiate_node].
    unfold instantiate_list, bind. rewrite Hr0. unfold lift. rewrite C'.
    rewrite Hmap. cbn [instance].
    split.
    + destruct (is_ALL convert || is_PARTIAL convert); reflexivity.
    + exact (combine_deterministic_info _ _ None i' (Hinfos ns' Hdns') I C').
  - (* DictConfig *)
    simpl in Hdet, Huni, Hcan.
    apply andb_prop in Hdet. destruct Hdet as [Htarget_det Hdet].
    apply andb_prop in Huni. destruct Huni as [Huni Hunic].
    apply andb_prop in Huni. destruct Huni as [Hnoconv Hnorec].
    apply andb_prop in Hcan. destruct Hcan as [Hsorted Hcanc].
    apply negb_true_iff in Hnoconv, Hnorec.
    apply Forall_forallb_entries in Hdet, Hunic, Hcanc.
    assert (Hconv : effective_convert entries convert = convert)
      by (unfold effective_convert;
          rewrite (str_contains_get _ _ _ Hnoconv); reflexivity).
    assert (Hrec : effective_recursive entries (VBool r) = VBool r)
      by (unfold effective_recursive;
          rewrite (str_contains_get _ _ _ Hnorec); reflexivity).
    assert (Hcanon : canonical (VDictConfig entries) = true).
    { simpl. rewrite Hsorted. simpl. apply forallb_forall.
      intros [k x] Hin. rewrite Forall_forall in Hcanc.
      exact (Hcanc (k, x) Hin). }
    assert (Hchildren :
      Forall (fun kv => agree with_cache without_cache (snd kv)) entries).
    { rewrite Forall_forall in *. intros kv Hin. apply H; auto. }
    destruct (_is_target entries) eqn:Htarget.
    + (* a node with target *)
      rewrite (instantiate_node_target_eq resolve joblib_hash entries []
                 convert (VBool r) true Hrec Htarget), Hconv in Hrun.
      destruct (str_contains_some _ _ Htarget) as [tv Htv].
      unfold str_get in Htarget_det. unfold str_get in Htv.
      rewrite Htv in Htarget_det. apply negb_true_iff in Htarget_det.
      fold (str_get "_target_" entries) in Htv.
      destruct (InMemoryCache.getitem (st_store st) (VDictConfig entries))
        as [hit|] eqn:Hget.
      * (* found in the cache *)
        rewrite (instantiate_target_hit resolve joblib_hash _ _ _ _ _ _ _
                   Hget) in Hrun.
        injection Hrun as <- <-.
        destruct (getitem_In_key _ _ _ _ Hget) as (k' & Hin & Hk').
        unfold sound_cache in Hs. rewrite Forall_forall in Hs.
        destruct (Hs (k', hit) Hin) as (Hck & Hdi & Hunc).
        cbn [fst snd] in *.
        rewrite (canonical_config_eqb k' _ Hck Hcanon Hk') in Hunc.
        split; [apply Forall_forall; exact Hs|].
        split; [exact Hdi|]. exact Hunc.
      * (* computed *)
        destruct (resolve tv) as [target|] eqn:Hres.
        2:{ unfold instantiate_target, bind in Hrun.
            rewrite cache_lookup_eq, Hget in Hrun.
            unfold _resolve_target in Hrun. rewrite Htv, Hres in Hrun.
            destruct tv; discriminate. }
        rewrite (instantiate_target_miss resolve joblib_hash _ _ _ _ _ _
                   true _ Hget Htv Hres) in Hrun.
        destruct (instantiate_kwargs _ r convert entries ([], []) st)
          as [[[kwargs infos]|e] s_k] eqn:Hkw; [|discriminate].
        destruct (instantiate_kwargs_agree with_cache without_cache
                    r convert entries Hchildren ([], []) ([], []) st
                    (kwargs, infos) s_k Hs eq_refl
                    (Forall_nil _) (Forall_nil _) Hkw)
          as (Hsk & Hdinfos & Hrefk).
        cbn [fst snd] in *. cbv zeta in Hrun.
        set (ti := from_func (target_attr target) (own_cache_result entries))
          in *.
        assert (Hnd : not_deterministic ti = false).
        { unfold ti.
          rewrite (target_info_not_deterministic World resolve tv target _
                     Hres). exact Htarget_det. }
        rewrite substitute_lookup_eq, Hnd in Hrun.
        destruct (combine infos (Some (VDictConfig entries)) (Some ti) None)
          as [ri|e] eqn:C; [|discriminate].
        destruct (combine_deterministic_info infos _ (Some ti) ri Hdinfos
                    Hnd C) as [Hri_nd Hri_dc].
        rewrite Hri_dc in Hrun.
        rewrite call_and_store_eq in Hrun.
        destruct (call_body target [] kwargs (st_world s_k))
          as [[v t|p] w] eqn:Hcall; [|discriminate].
        unfold complete_info in Hrun. cbv zeta in Hrun.
        injection Hrun as <- <-.
        assert (Href :
          uncached resolve joblib_hash convert r (VDictConfig entries) v).
        { intros s0. destruct (Hrefk s0) as ([kw0 infos0] & s0k & Hr0 & Hkw0
                                             & Hd0).
          cbn [fst snd] in *. subst kw0.
          destruct (combine_deterministic_ok infos0 (VDictConfig entries)
                      (Some ti) Hd0) as [ri0 C0].
          destruct (combine_deterministic_info infos0 _ (Some ti) ri0 Hd0
                      Hnd C0) as [Hri0_nd Hri0_dc].
          exists (set_time_target ri0 t).
          eexists.
          rewrite (instantiate_node_target_eq resolve joblib_hash entries []
                     convert (VBool r) false Hrec Htarget), Hconv.
          rewrite (instantiate_target_miss resolve joblib_hash _ _ _ _ _ _
                     false _ eq_refl Htv Hres).
          rewrite Hr0. cbv zeta. fold ti.
          rewrite substitute_lookup_eq, Hnd, C0, Hri0_dc.
          rewrite call_and_store_eq.
          rewrite (pure_call_body World target (targets_pure tv target Hres)
                     [] kwargs (st_world s0k) (st_world s_k)), Hcall.
          cbn [fst]. unfold complete_info.
          split; [reflexivity|]. split; assumption. }
        split; [|split; [split; assumption | exact Href]].
        unfold stored. cbn [andb info cache_result set_time_target].
        destruct (cache_result ri).
        -- rewrite config_eqb_refl. cbn [negb].
           apply sound_cache_setitem; [|exact Hcanon|].
           ++ eapply sound_cache_store; [|exact Hsk]. reflexivity.
           ++ split; [exact Hcanon|].
              split; [split; assumption | exact Href].
        -- eapply sound_cache_store; [|exact Hsk]. reflexivity.
    + (* a mapping without target *)
      cbn [instantiate_node] in Hrun. rewrite Hrec, Hconv, Htarget in Hrun.
      unfold instantiate_dict, bind in Hrun.
      destruct (instantiate_entries _ entries ([], []) st)
        as [[[dict_items infos]|e] s1] eqn:Hentries; [|discriminate].
      destruct (instantiate_entries_agree with_cache without_cache
                  entries Hchildren ([], []) ([], []) st
                  (dict_items, infos) s1 Hs eq_refl
                  (Forall_nil _) (Forall_nil _) Hentries)
        as (Hs1 & Hdinfos & Href).
      cbn [fst snd] in *. unfold lift in Hrun.
      destruct (combine infos (Some (VDictConfig entries)) None None)
        as [i|e] eqn:C; [|discriminate].
      assert (Hi : deterministic_info i)
        by (exact (combine_deterministic_info _ _ None i Hdinfos I C)).
      assert (Hresult :
        n = mkNode (if is_ALL convert || is_PARTIAL convert
                    then VDict dict_items
                    else OmegaConf_create (VDict dict_items)) i
        /\ st' = s1).
      { destruct (is_ALL convert || is_PARTIAL convert);
          injection Hrun as <- <-; split; reflexivity. }
      destruct Hresult as [-> ->].
      split; [exact Hs1|]. split; [exact Hi|].
      intros s0. destruct (Href s0) as ([items0 infos0] & s0' & Hr0 & Hfst
                                        & Hd0).
      cbn [fst snd] in *. subst items0.
      destruct (combine_deterministic_ok infos0 (VDictConfig entries) None
                  Hd0) as [i' C'].
      exists i', s0'. cbn [instantiate_node].
      rewrite Hrec, Hconv, Htarget.
      unfold instantiate_dict, bind. rewrite Hr0. unfold lift. rewrite C'.
      cbn [instance]. split.
      * destruct (is_ALL convert || is_PARTIAL convert); reflexivity.
      * exact (combine_deterministic_info _ _ None i' Hd0 I C').
Qed.

(** X15.  The cache does not change what is computed.  Take targets
    whose outcome depends on their arguments only, and a tree in which
    no target is marked as not deterministic, no mapping sets
    [_convert_] or [_recursive_], and the keys of every mapping are in
    order.  Against a cache each of whose entries holds what its key
    evaluates to (an empty cache, for one), whatever an evaluation of the
    tree returns is what the evaluation without cache returns, from any
    state; and the cache that the evaluation leaves is again such a
    cache. *)
Theorem X15_cache_does_not_change_results :
  forall node (s : State World) n s',
    deterministic_tree resolve node = true ->
    uniform node = true ->
    canonical node = true ->
    sound_cache resolve joblib_hash convert r s ->
    instantiate_node resolve joblib_hash node [] convert (VBool r) true s
    = (Ok n, s') ->
    sound_cache resolve joblib_hash convert r s' /\
    forall s0 : State World,
      exists i s0',
        instantiate_node resolve joblib_hash node [] convert (VBool r)
          false s0
        = (Ok (mkNode (instance n) i), s0').
Proof.
  intros node s n s' Hdet Huni Hcan Hs Hrun.
  destruct (cached_agrees node Hdet Huni Hcan s n s' Hs Hrun)
    as (Hs' & _ & Href).
  split; [exact Hs'|].
  intros s0. destruct (Href s0) as (i & s0' & H0 & _).
  exists i, s0'. exact H0.
Qed.
End Transparency.

(** X15, witness: a tree of three targets that occurs twice; the second
    occurrence is served from the cache, and the result is the one of the
    evaluation without cache. *)
Lemma X15_witness :
  let run :=
    instantiate_node PureExample.resolve Bench.joblib_hash PureExample.tree
      [] (VStr "none") (VBool true) true (Bench.fresh []) in
  List.length (called_nodes (st_log (snd run))) = 3 /\
  exists i s0',
    instantiate_node PureExample.resolve Bench.joblib_hash PureExample.tree
      [] (VStr "none") (VBool true) false (Bench.fresh [])
    = (Ok (mkNode (VListConfig [VInt 7; VInt 7]) i), s0').
Proof.
  intros run. split; [vm_compute; reflexivity|].
  destruct (X15_cache_does_not_change_results Bench.World
              PureExample.resolve Bench.joblib_hash (VStr "none") true)
    with (node := PureExample.tree) (s := Bench.fresh [])
         (n := Bench.returned run) (s' := snd run) as [_ H].
  - intros tv target Hres args kwargs w w'.
    destruct tv; try discriminate.
    unfold PureExample.resolve in Hres.
    repeat match type of Hres with
           | context [match ?x with _ => _ end] => destruct x; try discriminate
           end; injection Hres as <-; reflexivity.
  - reflexivity.
  - reflexivity.
  - reflexivity.
  - constructor.
  - vm_compute. reflexivity.
  - exact (H (Bench.fresh [])).
Defined.


(* ================================================================= *)
(** ** Tables: dict of lists and list of dicts *)

Lemma str_contains_absent :
  forall (V : Type) k (d : list (string * V)),
    ~ In k (map fst d) -> str_contains k d = false.
Proof.
  intros V k d H. destruct (str_contains k d) eqn:E; [|reflexivity].
  exfalso. apply H. apply str_contains_In. exact E.
Qed.

Lemma str_get_In_distinct :
  forall (V : Type) k (x : V) (d : list (string * V)),
    NoDup (map fst d) -> In (k, x) d -> str_get k d = Some x.
Proof.
  intros V k x d. unfold str_get.
  induction d as [|[k0 x0] d IH]; intros Hnd Hin; [destruct Hin|].
  inversion Hnd as [|? ? Hnotin Hnd']; subst. simpl.
  destruct Hin as [Hin|Hin].
  - injection Hin as -> ->. rewrite String.eqb_refl. reflexivity.
  - destruct (String.eqb k0 k) eqn:E; [|apply IH; assumption].
    apply String.eqb_eq in E. subst k0. exfalso. apply Hnotin.
    apply (in_map fst d (k, x)). exact Hin.
Qed.

Section TableFacts.
Variable A : Type.
Variable np_array : A -> A.
Variable json_dumps : A -> Result A.

Local Abbreviation plain := (fun x : A => @Ok A x).

Lemma dict_of_distinct :
  forall pairs : list (string * A),
    NoDup (map fst pairs) -> Utils.dict_of pairs = pairs.
Proof.
  unfold Utils.dict_of.
  assert (H : forall (pairs acc : list (string * A)),
             NoDup (map fst (acc ++ pairs)) ->
             fold_left (fun d kv => str_set (fst kv) (snd kv) d) pairs acc
             = acc ++ pairs).
  { induction pairs as [|[k x] pairs IH]; intros acc Hnd; simpl.
    - rewrite app_nil_r. reflexivity.
    - rewrite str_set_absent.
      + rewrite IH; rewrite <- app_assoc; [reflexivity | exact Hnd].
      + apply str_contains_absent. rewrite map_app in Hnd.
        apply NoDup_remove_2 in Hnd. intros Hin. apply Hnd.
        apply in_or_app. left. exact Hin. }
  intros pairs Hnd. apply (H pairs []). exact Hnd.
Qed.

Lemma combine_fst_snd :
  forall (X Y : Type) (l : list (X * Y)),
    List.combine (map fst l) (map snd l) = l.
Proof.
  intros X Y l. induction l as [|[x y] l IH]; simpl; [reflexivity|].
  rewrite IH. reflexivity.
Qed.

Lemma map_fst_combine :
  forall (X Y : Type) (l1 : list X) (l2 : list Y),
    List.length l1 = List.length l2 -> map fst (List.combine l1 l2) = l1.
Proof.
  intros X Y l1. induction l1 as [|x l1 IH]; intros [|y l2] H;
    simpl in *; try reflexivity; try discriminate.
  rewrite IH by lia. reflexivity.
Qed.

Lemma map_snd_combine :
  forall (X Y : Type) (l1 : list X) (l2 : list Y),
    List.length l1 = List.length l2 -> map snd (List.combine l1 l2) = l2.
Proof.
  intros X Y l1. induction l1 as [|x l1 IH]; intros [|y l2] H;
    simpl in *; try reflexivity; try discriminate.
  rewrite IH by lia. reflexivity.
Qed.

(** The columns of a list of dicts, when every dict has every key. *)
Lemma column_cons :
  forall k dic ld c,
    Utils.column plain k (dic :: ld) = Ok c ->
    exists x c', str_get k dic = Some x /\ Utils.column plain k ld = Ok c' /\
                 c = x :: c'.
Proof.
  intros k dic ld c H. simpl in H.
  destruct (str_get k dic) as [x|]; [|discriminate].
  destruct (Utils.column plain k ld) as [c'|]; [|discriminate].
  injection H as <-. exists x, c'. repeat split; reflexivity.
Qed.

Lemma column_total :
  forall k (ld : list (list (string * A))),
    (forall dic, In dic ld -> str_get k dic <> None) ->
    exists c, Utils.column plain k ld = Ok c /\
              List.length c = List.length ld.
Proof.
  intros k ld. induction ld as [|dic ld IH]; intros H.
  - exists []. split; reflexivity.
  - destruct IH as (c & Hc & Hlen);
      [intros d Hd; apply H; right; exact Hd|].
    simpl. destruct (str_get k dic) as [x|] eqn:E.
    + rewrite Hc. exists (x :: c). split; [reflexivity | simpl; lia].
    + exfalso. apply (H dic); [left; reflexivity | exact E].
Qed.

Lemma column_missing :
  forall k (ld : list (list (string * A))) dic,
    In dic ld -> str_get k dic = None ->
    Utils.column plain k ld = Err KeyError.
Proof.
  intros k ld dic. induction ld as [|d ld IH]; intros Hin Hk;
    [destruct Hin|].
  simpl. destruct Hin as [-> | Hin].
  - rewrite Hk. reflexivity.
  - destruct (str_get k d); [|reflexivity].
    rewrite (IH Hin Hk). reflexivity.
Qed.

Lemma columns_of_all :
  forall (pairs acc : list (string * list A)) ld,
    NoDup (map fst (acc ++ pairs)) ->
    (forall k c, In (k, c) pairs -> Utils.column plain k ld = Ok c) ->
    Utils.columns_of plain (map fst pairs) ld acc = Ok (acc ++ pairs).
Proof.
  induction pairs as [|[k c] pairs IH]; intros acc ld Hnd H; simpl.
  - rewrite app_nil_r. reflexivity.
  - rewrite (H k c (or_introl eq_refl)). rewrite str_set_absent.
    + rewrite IH.
      * rewrite <- app_assoc. reflexivity.
      * rewrite <- app_assoc. exact Hnd.
      * intros k' c' Hin. apply H. right. exact Hin.
    + apply str_contains_absent. rewrite map_app in Hnd.
      apply NoDup_remove_2 in Hnd. intros Hin. apply Hnd.
      apply in_or_app. left. exact Hin.
Qed.

Lemma columns_of_missing :
  forall keys ld acc k dic,
    In k keys -> In dic ld -> str_get k dic = None ->
    Utils.columns_of plain keys ld acc = Err KeyError.
Proof.
  induction keys as [|k0 keys IH]; intros ld acc k dic Hk Hdic Hget;
    [destruct Hk|].
  simpl. destruct (Utils.column plain k0 ld) as [c|e] eqn:E.
  - destruct Hk as [-> | Hk].
    + rewrite (column_missing k ld dic Hdic Hget) in E. discriminate.
    + exact (IH ld _ k dic Hk Hdic Hget).
  - clear - E. revert e E. induction ld as [|d ld IHl]; intros e E;
      [discriminate|].
    simpl in E. destruct (str_get k0 d); [|injection E as <-; reflexivity].
    destruct (Utils.column plain k0 ld) as [c|e'];
      [discriminate|].
    injection E as <-. rewrite (IHl e' eq_refl). reflexivity.
Qed.

(** The rows of columns of one length. *)
Lemma heads_full :
  forall n (columns : list (list A)),
    Forall (fun c => List.length c = S n) columns ->
    exists row,
      Utils.heads columns = Some row /\
      List.length row = List.length columns /\
      Forall (fun c => List.length c = n) (map (@tl A) columns) /\
      forall i c, nth_error columns i = Some c ->
                  exists x, nth_error row i = Some x /\ c = x :: tl c.
Proof.
  intros n columns H. induction H as [|c columns Hc Hl IH].
  - exists []. repeat split; try constructor.
    intros i c H. destruct i; discriminate.
  - destruct IH as (row & Hrow & Hlen & Htl & Hnth).
    destruct c as [|x c]; [discriminate|].
    exists (x :: row). simpl. rewrite Hrow.
    split; [reflexivity|]. split; [lia|]. split.
    + constructor; [simpl in Hc; lia | exact Htl].
    + intros [|i] c0 Hc0; simpl in Hc0.
      * injection Hc0 as <-. exists x. split; reflexivity.
      * apply Hnth. exact Hc0.
Qed.

Lemma str_get_combine_nth :
  forall (keys : list string) (row : list A) i k x,
    NoDup keys ->
    nth_error keys i = Some k -> nth_error row i = Some x ->
    str_get k (List.combine keys row) = Some x.
Proof.
  unfold str_get. induction keys as [|k0 keys IH];
    intros row i k x Hnd Hk Hx; [destruct i; discriminate|].
  inversion Hnd as [|? ? Hnotin Hnd']; subst.
  destruct row as [|x0 row]; [destruct i; discriminate|].
  destruct i as [|i]; simpl in Hk, Hx.
  - injection Hk as ->. injection Hx as ->. simpl.
    rewrite String.eqb_refl. reflexivity.
  - simpl. destruct (String.eqb k0 k) eqn:E.
    + apply String.eqb_eq in E. subst k0. exfalso. apply Hnotin.
      eapply nth_error_In. exact Hk.
    + eapply IH; eassumption.
Qed.

Lemma column_zip_rows :
  forall n keys (columns : list (list A)),
    NoDup keys ->
    List.length keys = List.length columns ->
    Forall (fun c => List.length c = n) columns ->
    forall i k c,
      nth_error keys i = Some k -> nth_error columns i = Some c ->
      Utils.column plain k
        (map (fun t => Utils.dict_of (List.combine keys t))
             (Utils.zip_rows n columns))
      = Ok c.
Proof.
  induction n as [|n IH]; intros keys columns Hnd Hlen Hcols i k c Hk Hc.
  - simpl. rewrite Forall_forall in Hcols.
    assert (Hz : List.length c = 0)
      by (apply Hcols; eapply nth_error_In; exact Hc).
    destruct c; [reflexivity | discriminate].
  - destruct (heads_full n columns Hcols) as (row & Hrow & Hrl & Htl & Hnth).
    destruct (Hnth i c Hc) as (x & Hx & Hcx).
    cbn [Utils.zip_rows]. rewrite Hrow. cbn [map Utils.column].
    rewrite dict_of_distinct
      by (rewrite map_fst_combine by lia; exact Hnd).
    rewrite (str_get_combine_nth keys row i k x Hnd Hk Hx).
    rewrite (IH keys (map (@tl A) columns) Hnd) with (i := i) (c := tl c);
      try assumption.
    + rewrite Hcx at 2. reflexivity.
    + rewrite length_map. exact Hlen.
    + rewrite nth_error_map, Hc. reflexivity.
Qed.

(** X16.  A table with at least one column and one row, given as a
    dict of lists of one length, is the same after [dl_to_ld] and
    [ld_to_dl]: same keys, in the same order, with the same lists. *)
Theorem X16_dl_to_ld_and_back :
  forall (dl : list (string * list A)) n,
    dl <> [] -> 0 < n ->
    NoDup (map fst dl) ->
    Forall (fun kc => List.length (snd kc) = n) dl ->
    Utils.ld_to_dl np_array json_dumps (Utils.dl_to_ld dl) false false
    = Ok dl.
Proof.
  intros dl n Hne Hn Hnd Hlen.
  destruct n as [|n]; [lia|].
  assert (Hcols : Forall (fun c => List.length c = S n) (map snd dl))
    by (apply Forall_map; exact Hlen).
  destruct dl as [|[k0 c0] dl']; [contradiction|].
  set (dl := (k0, c0) :: dl') in *.
  assert (Hc0 : List.length c0 = S n)
    by (inversion Hlen; assumption).
  destruct (heads_full n (map snd dl) Hcols) as (row & Hrow & Hrl & _ & _).
  unfold Utils.ld_to_dl, Utils.dl_to_ld. cbn [andb].
  assert (Hzip : Utils.zip_star (map snd dl)
                 = Utils.zip_rows (S n) (map snd dl))
    by (unfold dl; simpl; rewrite Hc0; reflexivity).
  rewrite Hzip.
  assert (Hfirst :
    exists rest,
      map (fun t => Utils.dict_of (List.combine (map fst dl) t))
          (Utils.zip_rows (S n) (map snd dl))
      = List.combine (map fst dl) row :: rest).
  { cbn [Utils.zip_rows]. rewrite Hrow. cbn [map].
    rewrite dict_of_distinct
      by (rewrite map_fst_combine by (rewrite Hrl, !length_map; reflexivity);
          exact Hnd).
    eexists. reflexivity. }
  destruct Hfirst as [rest Hfirst].
  pose proof (columns_of_all dl []
                (map (fun t => Utils.dict_of (List.combine (map fst dl) t))
                     (Utils.zip_rows (S n) (map snd dl)))) as Hall.
  rewrite Hfirst in Hall |- *.
  rewrite map_fst_combine by (rewrite Hrl, !length_map; reflexivity).
  apply Hall; [exact Hnd|].
  intros k c Hin. rewrite <- Hfirst.
  apply In_nth_error in Hin. destruct Hin as [i Hi].
  apply (column_zip_rows (S n) (map fst dl) (map snd dl) Hnd) with (i := i).
  - rewrite !length_map. reflexivity.
  - exact Hcols.
  - rewrite nth_error_map, Hi. reflexivity.
  - rewrite nth_error_map, Hi. reflexivity.
Qed.
End TableFacts.

(** X16, witness: two columns of two rows. *)
Lemma X16_witness :
  let dl := [("a", [VInt 1; VInt 2]); ("b", [VInt 3; VInt 4])] in
  Utils.dl_to_ld dl
  = [[("a", VInt 1); ("b", VInt 3)]; [("a", VInt 2); ("b", VInt 4)]] /\
  Utils.ld_to_dl (fun x => x) (fun x => Ok x) (Utils.dl_to_ld dl) false false
  = Ok dl.
Proof.
  intros dl. split; [reflexivity|].
  apply (X16_dl_to_ld_and_back Value (fun x => x) (fun x => Ok x) dl 2).
  - discriminate.
  - lia.
  - repeat constructor; simpl; intuition discriminate.
  - repeat constructor.
Defined.

Section TableEdges.
Variable A : Type.
Variable np_array : A -> A.
Variable json_dumps : A -> Result A.

Local Abbreviation plain := (fun x : A => @Ok A x).

Lemma fold_min_le :
  forall (l : list nat) a, fold_right Nat.min a l <= a.
Proof.
  induction l as [|x l IH]; intros a; simpl; [lia|].
  specialize (IH a). lia.
Qed.

Lemma heads_some_min :
  forall (columns : list (list A)) row n,
    Utils.heads columns = Some row ->
    List.length row = List.length columns /\
    fold_right Nat.min (S n) (map (@List.length A) columns)
    = S (fold_right Nat.min n
           (map (@List.length A) (map (@tl A) columns))).
Proof.
  induction columns as [|c columns IH]; intros row n H; simpl in H.
  - injection H as <-. split; reflexivity.
  - destruct c as [|x c]; [discriminate|].
    destruct (Utils.heads columns) as [row'|] eqn:E; [|discriminate].
    injection H as <-. destruct (IH row' n eq_refl) as [Hl Hm].
    split; [simpl; lia|]. simpl. rewrite Hm. reflexivity.
Qed.

Lemma heads_none_min :
  forall (columns : list (list A)) n,
    Utils.heads columns = None ->
    fold_right Nat.min n (map (@List.length A) columns) = 0.
Proof.
  induction columns as [|c columns IH]; intros n H; simpl in H;
    [discriminate|].
  destruct c as [|x c]; [reflexivity|].
  destruct (Utils.heads columns) as [row'|] eqn:E; [discriminate|].
  simpl. rewrite (IH n eq_refl). reflexivity.
Qed.

Lemma zip_rows_length :
  forall n (columns : list (list A)),
    List.length (Utils.zip_rows n columns)
    = fold_right Nat.min n (map (@List.length A) columns).
Proof.
  induction n as [|n IH]; intros columns.
  - simpl. pose proof (fold_min_le (map (@List.length A) columns) 0). lia.
  - cbn [Utils.zip_rows].
    destruct (Utils.heads columns) as [row|] eqn:E.
    + destruct (heads_some_min columns row n E) as [_ Hm].
      rewrite Hm. simpl. rewrite IH. reflexivity.
    + rewrite (heads_none_min columns (S n) E). reflexivity.
Qed.

Lemma zip_rows_widths :
  forall n (columns : list (list A)),
    Forall (fun row => List.length row = List.length columns)
           (Utils.zip_rows n columns).
Proof.
  induction n as [|n IH]; intros columns; [constructor|].
  cbn [Utils.zip_rows].
  destruct (Utils.heads columns) as [row|] eqn:E; [|constructor].
  constructor.
  - exact (proj1 (heads_some_min columns row 0 E)).
  - specialize (IH (map (@tl A) columns)).
    rewrite length_map in IH. exact IH.
Qed.

(** X17.  [dl_to_ld] gives as many dicts as the shortest list of the
    table has elements, so the further elements of the longer lists
    are dropped, and none for a table without keys; each dict has the
    keys of the table, in the order of the table. *)
Theorem X17_dl_to_ld_stops_at_the_shortest :
  forall dl : list (string * list A),
    NoDup (map fst dl) ->
    List.length (Utils.dl_to_ld dl)
    = match dl with
      | [] => 0
      | (_, c) :: dl' =>
          fold_right Nat.min (List.length c)
            (map (fun kc => List.length (snd kc)) dl')
      end /\
    Forall (fun dic => map fst dic = map fst dl) (Utils.dl_to_ld dl).
Proof.
  intros dl Hnd. unfold Utils.dl_to_ld. split.
  - rewrite length_map. destruct dl as [|[k c] dl']; [reflexivity|].
    cbn [map snd Utils.zip_star]. rewrite zip_rows_length.
    cbn [map fold_right]. rewrite map_map.
    pose proof (fold_min_le
                  (map (fun kc : string * list A => List.length (snd kc)) dl')
                  (List.length c)).
    lia.
  - apply Forall_map.
    assert (Hw : Forall (fun row => List.length row
                                    = List.length (map snd dl))
                        (Utils.zip_star (map snd dl))).
    { destruct dl as [|[k c] dl']; [constructor|].
      apply zip_rows_widths. }
    eapply Forall_impl; [|exact Hw].
    intros row Hrow. cbv beta in Hrow. rewrite length_map in Hrow.
    assert (Hk : map fst (List.combine (map fst dl) row) = map fst dl)
      by (apply map_fst_combine; rewrite length_map; lia).
    rewrite dict_of_distinct; [exact Hk|].
    rewrite Hk. exact Hnd.
Qed.

Lemma restrict_keys :
  forall keys (dic : list (string * A)),
    (forall k, In k keys -> str_get k dic <> None) ->
    map fst (restrict keys dic) = keys.
Proof.
  unfold restrict. induction keys as [|k keys IH]; intros dic H;
    [reflexivity|].
  simpl. destruct (str_get k dic) as [x|] eqn:E.
  - simpl. rewrite IH; [reflexivity|].
    intros k' Hk'. apply H. right. exact Hk'.
  - exfalso. apply (H k); [left; reflexivity | exact E].
Qed.

Lemma columns_exist :
  forall keys (ld : list (list (string * A))),
    (forall dic k, In dic ld -> In k keys -> str_get k dic <> None) ->
    exists columns,
      Forall2 (fun k c => Utils.column plain k ld = Ok c) keys columns /\
      Forall (fun c => List.length c = List.length ld) columns.
Proof.
  induction keys as [|k keys IH]; intros ld H.
  - exists []. split; constructor.
  - destruct (IH ld) as (columns & Hcols & Hlen);
      [intros dic k' Hd Hk'; apply H; [exact Hd | right; exact Hk']|].
    destruct (column_total A k ld) as (c & Hc & Hl);
      [intros dic Hd; apply H; [exact Hd | left; reflexivity]|].
    exists (c :: columns). split; constructor; assumption.
Qed.

Lemma Forall2_combine_In :
  forall (X Y : Type) (R : X -> Y -> Prop) l1 l2 a b,
    Forall2 R l1 l2 -> In (a, b) (List.combine l1 l2) -> R a b.
Proof.
  intros X Y R l1 l2 a b H. induction H as [|x y l1 l2 Hxy H IH];
    intros Hin; [destruct Hin|].
  destruct Hin as [Hin|Hin].
  - injection Hin as <- <-. exact Hxy.
  - apply IH. exact Hin.
Qed.

Lemma heads_of_columns :
  forall keys columns dic (ld : list (list (string * A))),
    Forall2 (fun k c => Utils.column plain k (dic :: ld) = Ok c)
            keys columns ->
    Utils.heads columns = Some (map snd (restrict keys dic)) /\
    Forall2 (fun k c => Utils.column plain k ld = Ok c)
            keys (map (@tl A) columns).
Proof.
  intros keys columns dic ld H.
  induction H as [|k c keys columns Hc H [IHh IHt]].
  - split; [reflexivity | constructor].
  - destruct (column_cons A k dic ld c Hc) as (x & c' & Hx & Hc' & ->).
    split.
    + simpl. rewrite IHh. unfold restrict. simpl. rewrite Hx.
      reflexivity.
    + simpl. constructor; assumption.
Qed.

Lemma zip_rows_of_columns :
  forall (ld : list (list (string * A))) keys columns,
    Forall2 (fun k c => Utils.column plain k ld = Ok c) keys columns ->
    Utils.zip_rows (List.length ld) columns
    = map (fun dic => map snd (restrict keys dic)) ld.
Proof.
  induction ld as [|dic ld IH]; intros keys columns H; [reflexivity|].
  destruct (heads_of_columns keys columns dic ld H) as [Hh Ht].
  cbn [List.length Utils.zip_rows map]. rewrite Hh.
  rewrite (IH keys _ Ht). reflexivity.
Qed.

(** X18.  [ld_to_dl] of a list of dicts that all have the keys of the
    first one gives a table with these keys, in the order of the first
    dict, and one list of the length of the list of dicts per key.
    [dl_to_ld] of this table gives the dicts back, each with the keys
    of the first dict only and in its order; from dicts without keys it
    gives no dict at all. *)
Theorem X18_ld_to_dl_and_back :
  forall (first : list (string * A)) (rest : list (list (string * A))),
    NoDup (map fst first) ->
    (forall dic k, In dic (first :: rest) -> In k (map fst first) ->
                   str_get k dic <> None) ->
    exists dl,
      Utils.ld_to_dl np_array json_dumps (first :: rest) false false = Ok dl /\
      map fst dl = map fst first /\
      Forall (fun kc => List.length (snd kc) = S (List.length rest)) dl /\
      (first <> [] ->
       Utils.dl_to_ld dl = map (restrict (map fst first)) (first :: rest)) /\
      (first = [] -> Utils.dl_to_ld dl = []).
Proof.
  intros first rest Hnd Hall.
  set (ld := first :: rest) in *. set (keys := map fst first) in *.
  destruct (columns_exist keys ld Hall) as (columns & Hcols & Hlen).
  pose proof (Forall2_length Hcols) as Hl.
  assert (Hfst : map fst (List.combine keys columns) = keys)
    by (apply map_fst_combine; exact Hl).
  assert (Hsnd : map snd (List.combine keys columns) = columns)
    by (apply map_snd_combine; exact Hl).
  exists (List.combine keys columns).
  split; [|split; [exact Hfst | split; [|split]]].
  - unfold Utils.ld_to_dl, ld. cbn [andb]. fold keys. fold ld.
    rewrite <- Hfst at 1.
    apply (columns_of_all A (List.combine keys columns) [] ld).
    + simpl. rewrite Hfst. exact Hnd.
    + intros k c Hin. exact (Forall2_combine_In _ _ _ _ _ _ _ Hcols Hin).
  - apply Forall_forall. intros [k c] Hin. simpl.
    rewrite Forall_forall in Hlen.
    change (S (List.length rest)) with (List.length ld).
    apply Hlen. apply in_combine_r in Hin. exact Hin.
  - intros Hne. unfold Utils.dl_to_ld. rewrite Hfst, Hsnd.
    assert (Hzip : Utils.zip_star columns
                   = Utils.zip_rows (List.length ld) columns).
    { destruct columns as [|c columns'].
      - destruct first; [contradiction | discriminate Hl].
      - simpl. inversion Hlen as [|? ? Hc _]; subst. rewrite Hc.
        reflexivity. }
    rewrite Hzip, (zip_rows_of_columns ld keys columns Hcols), map_map.
    apply map_ext_in. intros dic Hdic.
    assert (Hk : map fst (restrict keys dic) = keys)
      by (apply restrict_keys; intros k Hk; apply Hall; assumption).
    rewrite <- Hk at 1. rewrite combine_fst_snd.
    apply dict_of_distinct. rewrite Hk. exact Hnd.
  - intros ->. destruct columns; [reflexivity | discriminate Hl].
Qed.

(** X19.  What [ld_to_dl] raises: with both options set the assertion
    fails for every input, even the empty list; otherwise the empty
    list has no first dict ([IndexError]), and a dict that lacks a key
    of the first dict gives a [KeyError]. *)
Theorem X19_ld_to_dl_errors :
  (forall ld,
      Utils.ld_to_dl np_array json_dumps ld true true
      = Err (AssertionError
               "either as_numpy or as_json_string allowed to be True")) /\
  (forall as_numpy as_json_string,
      as_numpy && as_json_string = false ->
      Utils.ld_to_dl np_array json_dumps [] as_numpy as_json_string
      = Err IndexError) /\
  (forall first rest dic k,
      In k (map fst first) -> In dic rest -> str_get k dic = None ->
      Utils.ld_to_dl np_array json_dumps (first :: rest) false false
      = Err KeyError).
Proof.
  split; [|split].
  - intros ld. reflexivity.
  - intros as_numpy as_json_string H. unfold Utils.ld_to_dl.
    rewrite H. reflexivity.
  - intros first rest dic k Hk Hdic Hget. unfold Utils.ld_to_dl.
    cbn [andb].
    apply (columns_of_missing A (map fst first) (first :: rest) [] k dic Hk
             (or_intror Hdic) Hget).
Qed.
End TableEdges.

(** X17, witness: the third element of the longer list is dropped. *)
Lemma X17_witness :
  let dl := [("a", [VInt 1; VInt 2; VInt 5]); ("b", [VInt 3; VInt 4])] in
  Utils.dl_to_ld dl
  = [[("a", VInt 1); ("b", VInt 3)]; [("a", VInt 2); ("b", VInt 4)]] /\
  List.length (Utils.dl_to_ld dl) = 2 /\
  Forall (fun dic => map fst dic = ["a"; "b"]) (Utils.dl_to_ld dl).
Proof.
  intros dl. split; [reflexivity|].
  apply (X17_dl_to_ld_stops_at_the_shortest Value dl).
  repeat constructor; simpl; intuition discriminate.
Defined.

(** X18, witness: the key ["c"] of the second dict is not in the first
    one and is lost; the order of the keys becomes that of the first
    dict. *)
Lemma X18_witness :
  let first := [("a", VInt 1); ("b", VInt 3)] in
  let second := [("b", VInt 4); ("c", VInt 9); ("a", VInt 2)] in
  exists dl,
    Utils.ld_to_dl (fun x => x) (fun x => Ok x) [first; second] false false
    = Ok dl /\
    map fst dl = ["a"; "b"] /\
    Forall (fun kc => List.length (snd kc) = 2) dl /\
    (first <> [] ->
     Utils.dl_to_ld dl
     = map (restrict ["a"; "b"]) [first; second]) /\
    (first = [] -> Utils.dl_to_ld dl = []).
Proof.
  intros first second.
  apply (X18_ld_to_dl_and_back Value (fun x => x) (fun x => Ok x)
           first [second]).
  - repeat constructor; simpl; intuition discriminate.
  - intros dic k [<-|[<-|[]]] [<-|[<-|[]]]; discriminate.
Defined.

(** X19, witness: the second dict has no key ["b"]. *)
Lemma X19_witness :
  Utils.ld_to_dl (fun x => x) (fun x => Ok x)
    [[("a", VInt 1); ("b", VInt 3)]; [("a", VInt 2)]] false false
  = Err KeyError.
Proof.
  apply (proj2 (proj2 (X19_ld_to_dl_errors Value (fun x => x)
                         (fun x => Ok x)))
           [("a", VInt 1); ("b", VInt 3)] [[("a", VInt 2)]]
           [("a", VInt 2)] "b").
  - right. left. reflexivity.
  - left. reflexivity.
  - reflexivity.
Defined.
